(** * Galaxy DevKit, Soroban layer: codec, error classifier, event monitor
    and invocation pipeline.

    A shallow embedding of
      - [ScValConverter]            (soroban/utils/scval-converter.ts),
      - [ErrorParser]               (soroban/utils/error-parser.ts),
      - [ContractEventMonitor]      (soroban/utils/event-monitor.ts),
      - [SorobanContractManager]    (soroban/soroban-contract-manager.ts),
    followed by the properties the specification states about them.

    Host values are JavaScript values; a JavaScript [number] is an IEEE 754
    binary64 and is modelled by Rocq's primitive [float].  Code that can
    throw returns a [Result].  What the code takes from
    [@stellar/stellar-sdk] and from the JavaScript runtime (big-integer
    wrappers, strkey validation, [Number(...)], [String(...)],
    [Buffer.from]) is the interface [Platform]. *)

From Stdlib Require Import ZArith Lia Bool List String Ascii.
From Stdlib.Strings Require Import Byte.
From Stdlib Require Import PrimFloat FloatOps SpecFloat Uint63.
From Stdlib Require Import DecimalString.
Import ListNotations.
Open Scope string_scope.
Open Scope Z_scope.
Set Warnings "-register-all".

(* ===================================================================== *)
(** * JavaScript values and exceptions *)
(* ===================================================================== *)

Module Js.

(** What a [throw] carries: [new Error(msg)] of the code itself, or an error
    raised by the runtime or a library. *)
Inductive Exn : Type :=
| Error (msg : string)
| TypeError (msg : string)
| RangeError (msg : string).

(** [error.message] *)
Definition Exn_message (e : Exn) : string :=
  match e with
  | Error m | TypeError m | RangeError m => m
  end.

Inductive Result (A : Type) : Type :=
| Ok (a : A)
| Throw (e : Exn).
Arguments Ok {A} a.
Arguments Throw {A} e.

Definition bind {A B} (c : Result A) (k : A -> Result B) : Result B :=
  match c with
  | Ok a => k a
  | Throw e => Throw e
  end.

Definition isOk {A} (c : Result A) : bool :=
  match c with Ok _ => true | Throw _ => false end.

Declare Scope js_scope.
Delimit Scope js_scope with js.
Notation "x <- c ;; k" := (bind c (fun x => k))
  (at level 61, c at next level, right associativity) : js_scope.
Open Scope js_scope.

Section Traversals.
Context {A K B : Type}.
Variable f : A -> Result B.
Variable fk : K -> Result B.

(** [xs.map(f)] for an [f] that may throw: elements are visited in order
    and the first exception ends the traversal. *)
Fixpoint mapM (xs : list A) : Result (list B) :=
  match xs with
  | [] => Ok []
  | x :: r => y <- f x ;; ys <- mapM r ;; Ok (y :: ys)
  end.

(** [entries.map(([k, v]) => new xdr.ScMapEntry({ key: fk(k), val: f(v) }))]:
    within an entry the key is converted before the value. *)
Fixpoint mapEntriesM (es : list (K * A)) : Result (list (B * B)) :=
  match es with
  | [] => Ok []
  | (k, v) :: r =>
      k' <- fk k ;; v' <- f v ;; es' <- mapEntriesM r ;; Ok ((k', v') :: es')
  end.

(** [xs.map((x, index) => g(x, index))], indices counted from [i]. *)
Variable g : A -> nat -> Result B.
Fixpoint mapMi (i : nat) (xs : list A) : Result (list B) :=
  match xs with
  | [] => Ok []
  | x :: r => y <- g x i ;; ys <- mapMi (S i) r ;; Ok (y :: ys)
  end.
End Traversals.

(** Code with side effects: a state [S] (object fields and the log of the
    calls made) is threaded through, and an exception ends the computation
    with the state reached so far. *)
Definition Eff (S A : Type) : Type := S -> Result A * S.

Section Eff.
Context {S : Type}.

Definition ret {A} (a : A) : Eff S A := fun s => (Ok a, s).

Definition throw {A} (e : Exn) : Eff S A := fun s => (Throw e, s).

Definition ebind {A B} (c : Eff S A) (k : A -> Eff S B) : Eff S B :=
  fun s =>
    match c s with
    | (Ok a, s') => k a s'
    | (Throw e, s') => (Throw e, s')
    end.

(** [try { c } catch (error) { handler(error) }] *)
Definition tryCatch {A} (c : Eff S A) (handler : Exn -> Eff S A) : Eff S A :=
  fun s =>
    match c s with
    | (Ok a, s') => (Ok a, s')
    | (Throw e, s') => handler e s'
    end.

Definition get : Eff S S := fun s => (Ok s, s).

Definition modify (f : S -> S) : Eff S unit := fun s => (Ok tt, f s).

(** A computation that only returns or throws. *)
Definition lift {A} (r : Result A) : Eff S A := fun s => (r, s).
End Eff.

Notation "x <~ c ;; k" := (ebind c (fun x => k))
  (at level 61, c at next level, right associativity) : js_scope.
Notation "c ;;; k" := (ebind c (fun _ => k))
  (at level 61, right associativity) : js_scope.

(** An [Address] of the SDK, identified by its canonical strkey. *)
Record Address : Type := mkAddress { strkey : string }.

(** The SDK classes whose instances can reach the codec as host values: an
    [Address], or a generated XDR class named [className]. *)
Inductive LibObj : Type :=
| AddressObj (a : Address)
| XdrObj (className : string).

(** Host values.  [JMap] lists the entries of an ES [Map] in insertion
    order, [JSet] the elements of an ES [Set], [JObject] the own enumerable
    string-keyed properties of a plain object in enumeration order, and
    [JLib] an instance of an SDK class with its own enumerable properties. *)
Inductive JsVal : Type :=
| JUndefined
| JNull
| JBool (b : bool)
| JNumber (x : float)
| JBigInt (z : Z)
| JString (s : string)
| JSymbol (id : nat)
| JBuffer (bytes : list byte)
| JArray (items : list JsVal)
| JMap (entries : list (JsVal * JsVal))
| JSet (items : list JsVal)
| JObject (props : list (string * JsVal))
| JLib (o : LibObj) (props : list (string * JsVal)).

(** [typeof value] *)
Definition typeof (v : JsVal) : string :=
  match v with
  | JUndefined => "undefined"
  | JBool _ => "boolean"
  | JNumber _ => "number"
  | JBigInt _ => "bigint"
  | JString _ => "string"
  | JSymbol _ => "symbol"
  | JNull | JBuffer _ | JArray _ | JMap _ | JSet _ | JObject _ | JLib _ _ =>
      "object"
  end.

(** [value === null || value === undefined] *)
Definition isNullish (v : JsVal) : bool :=
  match v with
  | JUndefined | JNull => true
  | _ => false
  end.

(** [Number.isInteger(x)]: finite and without a fractional part. *)
Definition Number_isInteger (x : float) : bool :=
  match Prim2SF x with
  | S754_zero _ => true
  | S754_finite _ m e => (0 <=? e) || (Z.pos m mod 2 ^ (- e) =? 0)
  | S754_infinity _ | S754_nan => false
  end.

(** The number with the value of a small natural (an array index, a byte). *)
Definition Number_of_nat (n : nat) : float :=
  PrimFloat.of_uint63 (Uint63.of_Z (Z.of_nat n)).

(** The decimal numeral of an array index, as in the key ["0"]. *)
Definition index_key (n : nat) : string :=
  NilZero.string_of_uint (Nat.to_uint n).

(** [Boolean(value)] *)
Definition Boolean_ (v : JsVal) : bool :=
  match v with
  | JUndefined | JNull => false
  | JBool b => b
  | JNumber x => negb (PrimFloat.eqb x 0%float || PrimFloat.is_nan x)
  | JBigInt z => negb (z =? 0)
  | JString s => negb (String.eqb s "")
  | _ => true
  end.

(** SameValueZero, the key equality of ES [Map] and [Set].  Objects are
    equal only to themselves; every object occurrence in a value of the
    model is a separate allocation, so two of them are never the same key. *)
Definition sameValueZero (a b : JsVal) : bool :=
  match a, b with
  | JUndefined, JUndefined => true
  | JNull, JNull => true
  | JBool x, JBool y => Bool.eqb x y
  | JNumber x, JNumber y =>
      PrimFloat.eqb x y || (PrimFloat.is_nan x && PrimFloat.is_nan y)
  | JBigInt x, JBigInt y => x =? y
  | JString x, JString y => String.eqb x y
  | JSymbol x, JSymbol y => Nat.eqb x y
  | _, _ => false
  end.

(** The number is [-0]. *)
Definition isNegativeZero (x : float) : bool :=
  match Prim2SF x with
  | S754_zero true => true
  | _ => false
  end.

(** [Map.prototype.set] and [Set.prototype.add] store the key [-0] as [+0]. *)
Definition normKey (k : JsVal) : JsVal :=
  match k with
  | JNumber x => if isNegativeZero x then JNumber 0%float else k
  | _ => k
  end.

(** [map.set(k, v)]: an existing key keeps its place and gets the new
    value, a new key is appended. *)
Fixpoint Map_set (m : list (JsVal * JsVal)) (k v : JsVal)
  : list (JsVal * JsVal) :=
  match m with
  | [] => [(normKey k, v)]
  | (k', v') :: r =>
      if sameValueZero k' k then (k', v) :: r else (k', v') :: Map_set r k v
  end.

(** [map.get(k)] *)
Fixpoint Map_get (m : list (JsVal * JsVal)) (k : JsVal) : JsVal :=
  match m with
  | [] => JUndefined
  | (k', v') :: r => if sameValueZero k' k then v' else Map_get r k
  end.

(** [set.add(x)] *)
Fixpoint Set_add (s : list JsVal) (x : JsVal) : list JsVal :=
  match s with
  | [] => [normKey x]
  | y :: r => if sameValueZero y x then y :: r else y :: Set_add r x
  end.

(** [new Set(items)] *)
Definition Set_of (items : list JsVal) : list JsVal :=
  fold_left Set_add items [].

(** [obj[k] = v] on a plain object: an existing property is overwritten in
    place, a new one is appended. *)
Fixpoint Object_set (o : list (string * JsVal)) (k : string) (v : JsVal)
  : list (string * JsVal) :=
  match o with
  | [] => [(k, v)]
  | (k', v') :: r =>
      if String.eqb k' k then (k', v) :: r else (k', v') :: Object_set r k v
  end.

(** The entries [[String(i), x_i]] of an indexed collection. *)
Fixpoint indexed {A} (f : A -> JsVal) (i : nat) (xs : list A)
  : list (string * JsVal) :=
  match xs with
  | [] => []
  | x :: r => (index_key i, f x) :: indexed f (S i) r
  end.

(** A [Map] with string keys, as an insertion-ordered list of entries. *)
Section StringMap.
Context {V : Type}.

(** [map.get(k)] *)
Fixpoint SMap_get (m : list (string * V)) (k : string) : option V :=
  match m with
  | [] => None
  | (k', v) :: r => if String.eqb k' k then Some v else SMap_get r k
  end.

(** [map.has(k)] *)
Definition SMap_has (m : list (string * V)) (k : string) : bool :=
  match SMap_get m k with Some _ => true | None => false end.

(** [map.set(k, v)] *)
Fixpoint SMap_set (m : list (string * V)) (k : string) (v : V)
  : list (string * V) :=
  match m with
  | [] => [(k, v)]
  | (k', v') :: r =>
      if String.eqb k' k then (k', v) :: r else (k', v') :: SMap_set r k v
  end.

(** [map.delete(k)] *)
Fixpoint SMap_delete (m : list (string * V)) (k : string)
  : list (string * V) :=
  match m with
  | [] => []
  | (k', v') :: r =>
      if String.eqb k' k then r else (k', v') :: SMap_delete r k
  end.

(** [Array.from(map.values())] *)
Definition SMap_values (m : list (string * V)) : list V := List.map snd m.

(** [Array.from(map.keys())] *)
Definition SMap_keys (m : list (string * V)) : list string := List.map fst m.
End StringMap.

(** [Object.entries(value)] *)
Definition Object_entries (value : JsVal) : Result (list (string * JsVal)) :=
  match value with
  | JUndefined | JNull =>
      Throw (TypeError "Cannot convert undefined or null to object")
  | JObject props | JLib _ props => Ok props
  | JArray items => Ok (indexed (fun x => x) 0 items)
  | JBuffer bytes =>
      Ok (indexed (fun b => JNumber (Number_of_nat (N.to_nat (Byte.to_N b))))
                  0 bytes)
  | JString s =>
      Ok (indexed (fun c => JString (String c "")) 0 (list_ascii_of_string s))
  | JBool _ | JNumber _ | JBigInt _ | JSymbol _ | JMap _ | JSet _ => Ok []
  end.

End Js.

Import Js.
Open Scope js_scope.

(* ===================================================================== *)
(** * Wire values and type hints *)
(* ===================================================================== *)

(** [ScType] of [types/contract-types.ts]. *)
Inductive ScType : Type :=
| T_void | T_bool | T_u32 | T_i32 | T_u64 | T_i64 | T_u128 | T_i128
| T_u256 | T_i256 | T_f32 | T_f64 | T_bytes | T_string | T_symbol
| T_address | T_option | T_result | T_vec | T_map | T_set | T_tuple.

(** The string a hint is at run time. *)
Definition ScType_name (t : ScType) : string :=
  match t with
  | T_void => "void" | T_bool => "bool" | T_u32 => "u32" | T_i32 => "i32"
  | T_u64 => "u64" | T_i64 => "i64" | T_u128 => "u128" | T_i128 => "i128"
  | T_u256 => "u256" | T_i256 => "i256" | T_f32 => "f32" | T_f64 => "f64"
  | T_bytes => "bytes" | T_string => "string" | T_symbol => "symbol"
  | T_address => "address" | T_option => "option" | T_result => "result"
  | T_vec => "vec" | T_map => "map" | T_set => "set" | T_tuple => "tuple"
  end.

(** The tags of [xdr.ScVal] the code names, and [OtherTag] for the tags of
    the union it does not name (timepoint, duration, ...). *)
Inductive ScValType : Type :=
| TagVoid | TagBool | TagU32 | TagI32 | TagU64 | TagI64 | TagU128 | TagI128
| TagU256 | TagI256 | TagF32 | TagF64 | TagBytes | TagString | TagSymbol
| TagAddress | TagVec | TagMap | TagError | TagContractInstance
| TagLedgerKeyNonce | TagLedgerKeyContractCode | TagLedgerKeyContractData
| TagLedgerKeyState | OtherTag (name : string).

(** [xdr.ScVal].  A union arm stores the value its constructor was given: a
    [number] for the 32-bit and floating arms, the integer held by the SDK's
    64/128/256-bit wrappers for the wide arms, and a host value for
    [scvSymbol], which the hinted encoder calls on its input as it is, and
    for the arms the codec only passes through. *)
Inductive ScVal : Type :=
| scvVoid
| scvBool (b : bool)
| scvU32 (x : float)
| scvI32 (x : float)
| scvU64 (n : Z)
| scvI64 (n : Z)
| scvU128 (n : Z)
| scvI128 (n : Z)
| scvU256 (n : Z)
| scvI256 (n : Z)
| scvF32 (x : float)
| scvF64 (x : float)
| scvBytes (bytes : list byte)
| scvString (s : string)
| scvSymbol (sym : JsVal)
| scvAddress (a : Address)
| scvVec (items : list ScVal)
| scvMap (entries : list (ScVal * ScVal))
| scvError (e : JsVal)
| scvContractInstance (x : JsVal)
| scvLedgerKeyNonce (x : JsVal)
| scvLedgerKeyContractCode (x : JsVal)
| scvLedgerKeyContractData (x : JsVal)
| scvLedgerKeyState (x : JsVal)
| scvOther (name : string) (x : JsVal).

(** [scVal.switch()] *)
Definition switch (v : ScVal) : ScValType :=
  match v with
  | scvVoid => TagVoid | scvBool _ => TagBool
  | scvU32 _ => TagU32 | scvI32 _ => TagI32
  | scvU64 _ => TagU64 | scvI64 _ => TagI64
  | scvU128 _ => TagU128 | scvI128 _ => TagI128
  | scvU256 _ => TagU256 | scvI256 _ => TagI256
  | scvF32 _ => TagF32 | scvF64 _ => TagF64
  | scvBytes _ => TagBytes | scvString _ => TagString
  | scvSymbol _ => TagSymbol | scvAddress _ => TagAddress
  | scvVec _ => TagVec | scvMap _ => TagMap
  | scvError _ => TagError
  | scvContractInstance _ => TagContractInstance
  | scvLedgerKeyNonce _ => TagLedgerKeyNonce
  | scvLedgerKeyContractCode _ => TagLedgerKeyContractCode
  | scvLedgerKeyContractData _ => TagLedgerKeyContractData
  | scvLedgerKeyState _ => TagLedgerKeyState
  | scvOther name _ => OtherTag name
  end.

(** [scVal.switch().name] *)
Definition tagName (t : ScValType) : string :=
  match t with
  | TagVoid => "scvVoid" | TagBool => "scvBool"
  | TagU32 => "scvU32" | TagI32 => "scvI32"
  | TagU64 => "scvU64" | TagI64 => "scvI64"
  | TagU128 => "scvU128" | TagI128 => "scvI128"
  | TagU256 => "scvU256" | TagI256 => "scvI256"
  | TagF32 => "scvF32" | TagF64 => "scvF64"
  | TagBytes => "scvBytes" | TagString => "scvString"
  | TagSymbol => "scvSymbol" | TagAddress => "scvAddress"
  | TagVec => "scvVec" | TagMap => "scvMap" | TagError => "scvError"
  | TagContractInstance => "scvContractInstance"
  | TagLedgerKeyNonce => "scvLedgerKeyNonce"
  | TagLedgerKeyContractCode => "scvLedgerKeyContractCode"
  | TagLedgerKeyContractData => "scvLedgerKeyContractData"
  | TagLedgerKeyState => "scvLedgerKeyState"
  | OtherTag name => name
  end.

(** The sized conversions of the SDK's [ScInt]. *)
Inductive IntKind : Type := U64 | I64 | U128 | I128 | U256 | I256.

(** What the codec and the error parser call in [@stellar/stellar-sdk] and in
    the JavaScript runtime. *)
Class Platform : Type := {
  (** [new Address(s)] returns for a valid strkey and throws otherwise. *)
  StrKey_isValid : string -> bool;
  (** [new ScInt(value)]: the integer it holds, or what it throws. *)
  ScInt_new : JsVal -> Result Z;
  (** [.toU64()], [.toI64()], ... of an [ScInt] holding [n]: the integer of
      the XDR value produced, or what the size check throws. *)
  ScInt_to : IntKind -> Z -> Result Z;
  (** [new ScInt(x).toBigInt()] for the XDR value [x] of a wide arm, given
      by the integer it holds.  Whether the SDK returns the integer or
      throws depends on what the arm holds (the encoder stores what
      [toU64()] and the like returned): the class leaves both open. *)
  ScInt_toBigInt : Z -> Result Z;
  (** [Number(value)] *)
  Number_ : JsVal -> Result float;
  (** [String(value)] and template-literal interpolation. *)
  String_ : JsVal -> Result string;
  (** [Buffer.from(value)] *)
  Buffer_from : JsVal -> Result (list byte)
}.

(* ===================================================================== *)
(** * What the SDK has *)
(* ===================================================================== *)

(** The code calls members of [@stellar/stellar-sdk] that the library does
    not have.  [o.m()] for a member [m] that [o] lacks throws the TypeError
    "o.m is not a function", and [new o.C()] the TypeError "o.C is not a
    constructor".  The message names the callee as the source writes it; a
    transpiled build may print the binding of the imported module before
    it. *)
Definition notAFunction {A : Type} (member : string) : Result A :=
  Throw (TypeError (member ++ " is not a function")).

Definition notAConstructor {A : Type} (name : string) : Result A :=
  Throw (TypeError (name ++ " is not a constructor")).

(** An accessor of an XDR union called while another arm is set. *)
Definition notSet {A : Type} (arm : string) : Result A :=
  Throw (TypeError (arm ++ " not set")).

(** The members of [xdr.ScValType]: the union of the SDK has no
    floating-point arm, and of the ledger keys only the nonce key and the
    contract instance. *)
Definition sdkHasTag (t : ScValType) : bool :=
  match t with
  | TagF32 | TagF64 | TagLedgerKeyContractCode | TagLedgerKeyContractData
  | TagLedgerKeyState => false
  | _ => true
  end.

(** [xdr.ScValType.scvVoid()], [xdr.ScValType.scvF32()], ...: the member
    of the enumeration, when there is one. *)
Definition ScValType_of (t : ScValType) : Result ScValType :=
  if sdkHasTag t then Ok t
  else notAFunction ("xdr.ScValType." ++ tagName t).

(** [a === b] on members of the enumeration. *)
Definition ScValType_eqb (a b : ScValType) : bool :=
  match a, b with
  | TagVoid, TagVoid | TagBool, TagBool | TagU32, TagU32 | TagI32, TagI32
  | TagU64, TagU64 | TagI64, TagI64 | TagU128, TagU128 | TagI128, TagI128
  | TagU256, TagU256 | TagI256, TagI256 | TagF32, TagF32 | TagF64, TagF64
  | TagBytes, TagBytes | TagString, TagString | TagSymbol, TagSymbol
  | TagAddress, TagAddress | TagVec, TagVec | TagMap, TagMap
  | TagError, TagError | TagContractInstance, TagContractInstance
  | TagLedgerKeyNonce, TagLedgerKeyNonce
  | TagLedgerKeyContractCode, TagLedgerKeyContractCode
  | TagLedgerKeyContractData, TagLedgerKeyContractData
  | TagLedgerKeyState, TagLedgerKeyState => true
  | OtherTag n, OtherTag m => String.eqb n m
  | _, _ => false
  end.

(** [scVal.switch() === xdr.ScValType.scvX()]: the member is looked up
    first. *)
Definition tagIs (scVal : ScVal) (t : ScValType) : Result bool :=
  label <- ScValType_of t ;; Ok (ScValType_eqb (switch scVal) label).

(** A [switch] on a tag whose clauses all return or throw:
    [switch (tag) { case xdr.ScValType.scvA(): ... default: ... }].  The
    case expressions are evaluated in the order written, each compared
    with the tag, until one is equal; evaluating a case expression that
    names a member the enumeration lacks throws, whatever the tag is. *)
Fixpoint switchOnTag {A : Type} (tag : ScValType)
    (clauses : list (ScValType * Result A)) (default : Result A) : Result A :=
  match clauses with
  | [] => default
  | (caseTag, body) :: rest =>
      label <- ScValType_of caseTag ;;
      if ScValType_eqb tag label then body else switchOnTag tag rest default
  end.

(** The accessors of [xdr.ScVal] the code calls.  The SDK names the boolean
    arm [b] and the symbol arm [sym], and has no [f32], [f64],
    [contractCode], [contractData] or [state]: [scVal.bool()],
    [scVal.symbol()] and the like throw. *)
Definition scVal_bool (scVal : ScVal) : Result bool :=
  notAFunction "scVal.bool".

Definition scVal_symbol (scVal : ScVal) : Result JsVal :=
  notAFunction "scVal.symbol".

Definition scVal_f32 (scVal : ScVal) : Result float :=
  notAFunction "scVal.f32".

Definition scVal_f64 (scVal : ScVal) : Result float :=
  notAFunction "scVal.f64".

Definition scVal_u32 (scVal : ScVal) : Result float :=
  match scVal with scvU32 x => Ok x | _ => notSet "u32" end.

Definition scVal_i32 (scVal : ScVal) : Result float :=
  match scVal with scvI32 x => Ok x | _ => notSet "i32" end.

(** [scVal.u64()], [scVal.i64()], ..., [scVal.i256()] *)
Definition scVal_wide (arm : string) (scVal : ScVal) : Result Z :=
  match scVal with
  | scvU64 n | scvI64 n | scvU128 n | scvI128 n | scvU256 n | scvI256 n =>
      Ok n
  | _ => notSet arm
  end.

Definition scVal_bytes (scVal : ScVal) : Result (list byte) :=
  match scVal with scvBytes bytes => Ok bytes | _ => notSet "bytes" end.

Definition scVal_str (scVal : ScVal) : Result string :=
  match scVal with scvString s => Ok s | _ => notSet "str" end.

Definition scVal_vec (scVal : ScVal) : Result (list ScVal) :=
  match scVal with scvVec items => Ok items | _ => notSet "vec" end.

Definition scVal_map (scVal : ScVal) : Result (list (ScVal * ScVal)) :=
  match scVal with scvMap entries => Ok entries | _ => notSet "map" end.

Definition scVal_error (scVal : ScVal) : Result JsVal :=
  match scVal with scvError e => Ok e | _ => notSet "error" end.

(* ===================================================================== *)
(** * ScValConverter *)
(* ===================================================================== *)

Module ScValConverter.
Section WithPlatform.
Context {P : Platform}.

(** [new Address(value)] *)
Definition Address_new (value : string) : Result Address :=
  if StrKey_isValid value then Ok (mkAddress value)
  else Throw (Error "Unsupported address type").

(** [new ScInt(value).toU64()], [.toI64()], ... *)
Definition ScInt_convert (k : IntKind) (value : JsVal) : Result Z :=
  n <- ScInt_new value ;; ScInt_to k n.

(** The branch [typeof value === 'string'] of [toScVal]: a string that
    starts with ['G'] and has 56 characters is tried as an address, and is
    a string when [new Address] throws. *)
Definition stringToScVal (value : string) : ScVal :=
  if String.prefix "G" value && (Z.of_nat (String.length value) =? 56) then
    match Address_new value with
    | Ok address => scvAddress address
    | Throw _ => scvString value
    end
  else scvString value.

(** [toScVal(value)] with the hint left out: the early return for [null]
    and [undefined], then the auto-detection. *)
Fixpoint toScValAuto (value : JsVal) : Result ScVal :=
  match value with
  | JUndefined | JNull => Ok scvVoid
  | JBool b => Ok (scvBool b)
  | JNumber x =>
      if Number_isInteger x then Ok (scvI32 x)
      else n <- ScInt_convert I64 value ;; Ok (scvI64 n)
  | JBigInt z =>
      if 0 <=? z then n <- ScInt_convert U64 value ;; Ok (scvU64 n)
      else n <- ScInt_convert I64 value ;; Ok (scvI64 n)
  | JString s => Ok (stringToScVal s)
  | JBuffer bytes => Ok (scvBytes bytes)
  | JArray items =>
      scVals <- mapM toScValAuto items ;; Ok (scvVec scVals)
  | JMap entries =>
      es <- mapEntriesM toScValAuto toScValAuto entries ;; Ok (scvMap es)
  | JSet _ =>
      (* an object that is no Map: [Object.entries] of a Set is empty *)
      Ok (scvMap [])
  | JObject props | JLib _ props =>
      es <- mapEntriesM toScValAuto (fun k => Ok (stringToScVal k)) props ;;
      Ok (scvMap es)
  | JSymbol _ =>
      Throw (Error ("Unsupported type for ScVal conversion: " ++ typeof value))
  end.

(** [value instanceof Map] *)
Definition instanceofMap (value : JsVal) : bool :=
  match value with JMap _ => true | _ => false end.

(** [value instanceof Map ? Array.from(value.entries())
                          : Object.entries(value)] *)
Definition entriesOf (value : JsVal) : Result (list (JsVal * JsVal)) :=
  match value with
  | JMap entries => Ok entries
  | _ =>
      props <- Object_entries value ;;
      Ok (List.map (fun kv => (JString (fst kv), snd kv)) props)
  end.

(** [toTypedScVal(value, type)].  For the hints f32 and f64 the code
    evaluates [new xdr.Float(Number(value))] and
    [new xdr.Double(Number(value))]: the argument first, then the
    construction, which throws as the SDK has neither class. *)
Definition toTypedScVal (value : JsVal) (type : ScType) : Result ScVal :=
  match type with
  | T_void => Ok scvVoid
  | T_bool => Ok (scvBool (Boolean_ value))
  | T_u32 => x <- Number_ value ;; Ok (scvU32 x)
  | T_i32 => x <- Number_ value ;; Ok (scvI32 x)
  | T_u64 => n <- ScInt_convert U64 value ;; Ok (scvU64 n)
  | T_i64 => n <- ScInt_convert I64 value ;; Ok (scvI64 n)
  | T_u128 => n <- ScInt_convert U128 value ;; Ok (scvU128 n)
  | T_i128 => n <- ScInt_convert I128 value ;; Ok (scvI128 n)
  | T_u256 => n <- ScInt_convert U256 value ;; Ok (scvU256 n)
  | T_i256 => n <- ScInt_convert I256 value ;; Ok (scvI256 n)
  | T_f32 => x <- Number_ value ;; notAConstructor "xdr.Float"
  | T_f64 => x <- Number_ value ;; notAConstructor "xdr.Double"
  | T_bytes =>
      match value with
      | JBuffer bytes => Ok (scvBytes bytes)
      | _ => bytes <- Buffer_from value ;; Ok (scvBytes bytes)
      end
  | T_string => s <- String_ value ;; Ok (scvString s)
  | T_symbol => Ok (scvSymbol value)
  | T_address =>
      match value with
      | JString s => a <- Address_new s ;; Ok (scvAddress a)
      | JLib (AddressObj a) _ => Ok (scvAddress a)
      | _ => Throw (TypeError "value.toScVal is not a function")
      end
  | T_option =>
      if isNullish value then Ok scvVoid else toScValAuto value
  | T_vec =>
      match value with
      | JArray items =>
          scVals <- mapM toScValAuto items ;; Ok (scvVec scVals)
      | _ => Throw (Error "Expected array for vec type")
      end
  | T_map =>
      if negb (instanceofMap value)
         && negb (String.eqb (typeof value) "object") then
        Throw (Error "Expected object or Map for map type")
      else
        entries <- entriesOf value ;;
        es <- mapEntriesM toScValAuto toScValAuto entries ;;
        Ok (scvMap es)
  | T_set =>
      match value with
      | JArray values | JSet values =>
          scVals <- mapM toScValAuto values ;; Ok (scvVec scVals)
      | _ => Throw (Error "Expected array or Set for set type")
      end
  | T_tuple =>
      match value with
      | JArray items =>
          scVals <- mapM toScValAuto items ;; Ok (scvVec scVals)
      | _ => Throw (Error "Expected array for tuple type")
      end
  | T_result => Throw (Error ("Unsupported ScType: " ++ ScType_name type))
  end.

(** [toScVal(value, type?)] *)
Definition toScVal (value : JsVal) (type : option ScType) : Result ScVal :=
  if isNullish value then Ok scvVoid
  else match type with
       | Some t => toTypedScVal value t
       | None => toScValAuto value
       end.

(** [x.toString()] of a symbol payload. *)
Definition toString_ (x : JsVal) : Result string :=
  match x with
  | JString s => Ok s
  | JUndefined | JNull =>
      Throw (TypeError "Cannot read properties of undefined")
  | _ => String_ x
  end.

Section DecodeEntries.
Variable decode : ScVal -> Result JsVal.

(** The loop [for (const entry of scVal.map()) map.set(key, val)]. *)
Fixpoint decodeIntoMap (es : list (ScVal * ScVal))
    (map : list (JsVal * JsVal)) : Result (list (JsVal * JsVal)) :=
  match es with
  | [] => Ok map
  | (k, v) :: r =>
      key <- decode k ;; val <- decode v ;;
      decodeIntoMap r (Map_set map key val)
  end.

(** The loop [for (const entry of scVal.map()) obj[...] = val]. *)
Fixpoint decodeIntoObject (es : list (ScVal * ScVal))
    (obj : list (string * JsVal)) : Result (list (string * JsVal)) :=
  match es with
  | [] => Ok obj
  | (k, v) :: r =>
      key <- decode k ;; val <- decode v ;;
      name <- match key with
              | JString s => Ok s
              | _ => String_ key
              end ;;
      decodeIntoObject r (Object_set obj name val)
  end.
End DecodeEntries.

(** [fromScVal(scVal)].  The bodies of the vector and map clauses read the
    arm by a match, which is what [scVal.vec()] and [scVal.map()] do. *)
Fixpoint fromScVal (scVal : ScVal) : Result JsVal :=
  let wide arm :=
    n <- scVal_wide arm scVal ;; z <- ScInt_toBigInt n ;; Ok (JBigInt z) in
  switchOnTag (switch scVal)
    [ (TagVoid, Ok JNull);
      (TagBool, b <- scVal_bool scVal ;; Ok (JBool b));
      (TagU32, x <- scVal_u32 scVal ;; Ok (JNumber x));
      (TagI32, x <- scVal_i32 scVal ;; Ok (JNumber x));
      (TagU64, wide "u64");
      (TagI64, wide "i64");
      (TagU128, wide "u128");
      (TagI128, wide "i128");
      (TagU256, wide "u256");
      (TagI256, wide "i256");
      (TagF32, x <- scVal_f32 scVal ;; Ok (JNumber x));
      (TagF64, x <- scVal_f64 scVal ;; Ok (JNumber x));
      (TagBytes, bytes <- scVal_bytes scVal ;; Ok (JBuffer bytes));
      (TagString, s <- scVal_str scVal ;; Ok (JString s));
      (TagSymbol, sym <- scVal_symbol scVal ;; s <- toString_ sym ;;
                  Ok (JString s));
      (TagAddress,
       match scVal with
       | scvAddress a => Ok (JString (strkey a))
       | _ => notSet "address"
       end);
      (TagVec,
       match scVal with
       | scvVec items => xs <- mapM fromScVal items ;; Ok (JArray xs)
       | _ => notSet "vec"
       end);
      (TagMap,
       match scVal with
       | scvMap entries =>
           map <- decodeIntoMap fromScVal entries [] ;; Ok (JMap map)
       | _ => notSet "map"
       end);
      (TagContractInstance,
       match scVal with
       | scvContractInstance x => Ok x
       | _ => notSet "instance"
       end);
      (TagLedgerKeyNonce,
       match scVal with
       | scvLedgerKeyNonce x => Ok x
       | _ => notSet "nonceKey"
       end);
      (TagLedgerKeyContractCode, notAFunction "scVal.contractCode");
      (TagLedgerKeyContractData, notAFunction "scVal.contractData");
      (TagLedgerKeyState, notAFunction "scVal.state") ]
    (Throw (Error ("Unsupported ScVal type: " ++ tagName (switch scVal)))).

(** [encodeArgs(args, types?)].  An array is truthy whatever its length, so
    the check runs whenever [types] is given; [types[index]] outside the
    array is [undefined]. *)
Definition encodeArgs (args : list JsVal) (types : option (list ScType))
  : Result (list ScVal) :=
  if match types with
     | Some ts => negb (Nat.eqb (List.length ts) (List.length args))
     | None => false
     end
  then Throw (Error "Number of types must match number of arguments")
  else
    mapMi (fun arg index =>
             let type := match types with
                         | Some ts => nth_error ts index
                         | None => None
                         end in
             toScVal arg type)
          0%nat args.

(** [fromTypedScVal(scVal, type)] *)
Definition fromTypedScVal (scVal : ScVal) (type : ScType) : Result JsVal :=
  match type with
  | T_void => Ok JNull
  | T_bool =>
      same <- tagIs scVal TagBool ;;
      if same then b <- scVal_bool scVal ;; Ok (JBool b) else Ok JNull
  | T_u32 =>
      same <- tagIs scVal TagU32 ;;
      if same then x <- scVal_u32 scVal ;; Ok (JNumber x) else Ok JNull
  | T_i32 =>
      same <- tagIs scVal TagI32 ;;
      if same then x <- scVal_i32 scVal ;; Ok (JNumber x) else Ok JNull
  | T_u64 | T_i64 | T_u128 | T_i128 | T_u256 | T_i256 => fromScVal scVal
  | T_f32 =>
      same <- tagIs scVal TagF32 ;;
      if same then x <- scVal_f32 scVal ;; Ok (JNumber x) else Ok JNull
  | T_f64 =>
      same <- tagIs scVal TagF64 ;;
      if same then x <- scVal_f64 scVal ;; Ok (JNumber x) else Ok JNull
  | T_bytes =>
      same <- tagIs scVal TagBytes ;;
      if same then bytes <- scVal_bytes scVal ;; Ok (JBuffer bytes)
      else Ok JNull
  | T_string =>
      same <- tagIs scVal TagString ;;
      if same then s <- scVal_str scVal ;; Ok (JString s) else Ok JNull
  | T_symbol =>
      same <- tagIs scVal TagSymbol ;;
      if same then
        sym <- scVal_symbol scVal ;; s <- toString_ sym ;; Ok (JString s)
      else Ok JNull
  | T_address =>
      same <- tagIs scVal TagAddress ;;
      if same then
        match scVal with
        | scvAddress a => Ok (JString (strkey a))
        | _ => notSet "address"
        end
      else Ok JNull
  | T_option =>
      isVoid <- tagIs scVal TagVoid ;;
      if isVoid then Ok JNull else fromScVal scVal
  | T_vec | T_tuple =>
      same <- tagIs scVal TagVec ;;
      if same then
        items <- scVal_vec scVal ;; xs <- mapM fromScVal items ;;
        Ok (JArray xs)
      else Ok JNull
  | T_map =>
      same <- tagIs scVal TagMap ;;
      if same then
        entries <- scVal_map scVal ;;
        obj <- decodeIntoObject fromScVal entries [] ;; Ok (JObject obj)
      else Ok JNull
  | T_set =>
      same <- tagIs scVal TagVec ;;
      if same then
        items <- scVal_vec scVal ;; xs <- mapM fromScVal items ;;
        Ok (JSet (Set_of xs))
      else Ok JNull
  | T_result => Throw (Error ("Unsupported ScType: " ++ ScType_name type))
  end.

(** [decodeResult(result, type?)] *)
Definition decodeResult (result : ScVal) (type : option ScType)
  : Result JsVal :=
  match type with
  | Some t => fromTypedScVal result t
  | None => fromScVal result
  end.

End WithPlatform.
End ScValConverter.

(* ===================================================================== *)
(** * ErrorParser *)
(* ===================================================================== *)

Module ErrorParser.

(** [class SorobanError]: the constructor sets [message], [code] and [type];
    [contractId] and [method] are only set by [withContext]. *)
Record SorobanError : Type := mkSorobanError {
  message : string;
  code : float;
  type : string
}.

(** [s.includes(sub)] *)
Fixpoint includes (s sub : string) : bool :=
  String.prefix sub s
  || match s with
     | EmptyString => false
     | String _ s' => includes s' sub
     end.

(** [xs.includes(x)] on an array of strings. *)
Definition Array_includes (xs : list string) (x : string) : bool :=
  existsb (String.eqb x) xs.

Section WithPlatform.
Context {P : Platform}.

(** An [xdr.ScVal] instance seen as a host value, where the parser hands a
    wire value on as it is. *)
Definition asObject (scVal : ScVal) : JsVal := JLib (XdrObj "ScVal") [].

(** [extractScValValue(scVal)] *)
Definition extractScValValue (scVal : ScVal) : Result JsVal :=
  switchOnTag (switch scVal)
    [ (TagVoid, Ok JNull);
      (TagBool, b <- scVal_bool scVal ;; Ok (JBool b));
      (TagU32, x <- scVal_u32 scVal ;; Ok (JNumber x));
      (TagI32, x <- scVal_i32 scVal ;; Ok (JNumber x));
      (TagString, s <- scVal_str scVal ;; Ok (JString s));
      (TagSymbol,
       sym <- scVal_symbol scVal ;;
       s <- ScValConverter.toString_ sym ;; Ok (JString s)) ]
    (Ok (asObject scVal)).

(** The loop of [extractErrorValue] over the entries of a wire map. *)
Fixpoint extractEntries (es : list (ScVal * ScVal))
    (map : list (JsVal * JsVal)) : Result (list (JsVal * JsVal)) :=
  match es with
  | [] => Ok map
  | (k, v) :: r =>
      key <- extractScValValue k ;; value <- extractScValValue v ;;
      extractEntries r (Map_set map key value)
  end.

(** [extractErrorValue(result)] *)
Definition extractErrorValue (result : ScVal) : Result JsVal :=
  switchOnTag (switch result)
    [ (TagError, scVal_error result);
      (TagU32, x <- scVal_u32 result ;; Ok (JNumber x));
      (TagI32, x <- scVal_i32 result ;; Ok (JNumber x));
      (TagString, s <- scVal_str result ;; Ok (JString s));
      (TagSymbol,
       sym <- scVal_symbol result ;;
       s <- ScValConverter.toString_ sym ;; Ok (JString s));
      (TagMap,
       entries <- scVal_map result ;;
       map <- extractEntries entries [] ;; Ok (JMap map)) ]
    (Ok (asObject result)).

(** [parseErrorCode(code)] *)
Definition parseErrorCode (code : float) : Result SorobanError :=
  let same n := PrimFloat.eqb code n in
  if same 1%float then Ok (mkSorobanError "Contract panicked" 1 "ContractPanic")
  else if same 2%float then
    Ok (mkSorobanError "Arithmetic overflow" 2 "ArithmeticOverflow")
  else if same 3%float then
    Ok (mkSorobanError "Division by zero" 3 "DivisionByZero")
  else if same 4%float then
    Ok (mkSorobanError "Invalid arithmetic" 4 "InvalidArithmetic")
  else if same 5%float then Ok (mkSorobanError "Invalid input" 5 "InvalidInput")
  else if same 6%float then
    Ok (mkSorobanError "Index out of bounds" 6 "IndexOutOfBounds")
  else if same 7%float then
    Ok (mkSorobanError "Memory access violation" 7 "MemoryAccessViolation")
  else if same 8%float then
    Ok (mkSorobanError "Invalid conversion" 8 "InvalidConversion")
  else if same 9%float then
    Ok (mkSorobanError "Missing value in optional" 9 "MissingValue")
  else if same 10%float then
    Ok (mkSorobanError "Expected error in result" 10 "ExpectedError")
  else if same 11%float then
    Ok (mkSorobanError "Host context error" 11 "HostContextError")
  else
    text <- String_ (JNumber code) ;;
    Ok (mkSorobanError ("Unknown error code: " ++ text) code "UnknownCode").

(** [typeof x === 'string' ? x : fallback] *)
Definition stringOr (x : JsVal) (fallback : string) : string :=
  match x with JString s => s | _ => fallback end.

(** [parseErrorStruct(errorMap)] *)
Definition parseErrorStruct (errorMap : list (JsVal * JsVal)) : SorobanError :=
  let code := Map_get errorMap (JString "code") in
  let message := Map_get errorMap (JString "message") in
  let type := Map_get errorMap (JString "type") in
  match code with
  | JNumber c =>
      mkSorobanError (stringOr message "Contract error") c
                     (stringOr type "ContractError")
  | _ =>
      mkSorobanError (stringOr message "Unknown contract error") 0
                     (stringOr type "ContractError")
  end.

(** [parseError(result?)]: whatever is thrown inside the [try] becomes a
    [ParseError]. *)
Definition parseError (result : option ScVal) : SorobanError :=
  match result with
  | None => mkSorobanError "Unknown error occurred" (-1) "Unknown"
  | Some result =>
      let attempt :=
        errorValue <- extractErrorValue result ;;
        match errorValue with
        | JMap errorMap => Ok (parseErrorStruct errorMap)
        | JNumber c => parseErrorCode c
        | JString s => Ok (mkSorobanError s 0 "Custom")
        | _ =>
            text <- String_ errorValue ;;
            Ok (mkSorobanError ("Unrecognized error format: " ++ text) (-1)
                               "InvalidFormat")
        end in
      match attempt with
      | Ok e => e
      | Throw error =>
          mkSorobanError ("Failed to parse error: " ++ Exn_message error) (-2)
                         "ParseError"
      end
  end.

(** [parseSimulationError(error?, result?)].  [if (error)] holds for a
    string that is not empty. *)
Definition parseSimulationError (error : option string)
    (result : option ScVal) : SorobanError :=
  match error with
  | Some (String _ _ as error) =>
      if includes error "insufficient fee" then
        mkSorobanError "Insufficient fee for transaction" 4001 "InsufficientFee"
      else if includes error "insufficient balance" then
        mkSorobanError "Insufficient balance" 4002 "InsufficientBalance"
      else if includes error "contract not found" then
        mkSorobanError "Contract not found" 4003 "ContractNotFound"
      else if includes error "method not found" then
        mkSorobanError "Method not found" 4004 "MethodNotFound"
      else if includes error "invalid argument" then
        mkSorobanError "Invalid argument" 4005 "InvalidArgument"
      else mkSorobanError error 4000 "SimulationError"
  | _ =>
      match result with
      | Some _ => parseError result
      | None => mkSorobanError "Simulation failed" 4000 "SimulationError"
      end
  end.

End WithPlatform.

(** [isRecoverableError(error)] *)
Definition isRecoverableError (error : SorobanError) : bool :=
  let recoverableTypes :=
    ["InsufficientFee"; "InsufficientBalance"; "NetworkError"; "Timeout"] in
  Array_includes recoverableTypes (type error).

(** [shouldRetry(error, attemptCount)] *)
Definition shouldRetry (error : SorobanError) (attemptCount : Z) : bool :=
  if negb (isRecoverableError error) then false
  else if attemptCount >=? 3 then false
  else
    let nonRetryableTypes := ["InsufficientBalance"; "ContractNotFound"] in
    negb (Array_includes nonRetryableTypes (type error)).

(** [Math.pow(2, k)] for an integer [k]: the power of two, exact, with the
    overflow and underflow of binary64. *)
Definition Math_pow2 (k : Z) : float := FloatOps.Z.ldexp 1%float k.

(** [getRetryDelay(error, attemptCount)], in milliseconds. *)
Definition getRetryDelay (error : SorobanError) (attemptCount : Z) : float :=
  let baseDelay :=
    if String.eqb (type error) "InsufficientFee" then 2000%float
    else if String.eqb (type error) "NetworkError" then 5000%float
    else if String.eqb (type error) "Timeout" then 3000%float
    else 1000%float in
  (baseDelay * Math_pow2 (attemptCount - 1))%float.

End ErrorParser.

(* ===================================================================== *)
(** * ContractEventMonitor *)
(* ===================================================================== *)

Module ContractEventMonitor.

(** [ContractEventDetail] *)
Record ContractEventDetail : Type := mkDetail {
  contractId : string;
  type : string;
  topics : list ScVal;
  data : ScVal;
  timestamp : Z;
  ledger : Z;
  txHash : string
}.

(** An event of a [getEvents] response; [None] is a property that is
    absent. *)
Record RpcEvent : Type := mkRpcEvent {
  ev_contractId : option string;
  ev_type : string;
  ev_topics : option (list ScVal);
  ev_data : option ScVal;
  ev_timestamp : option Z;
  ev_ledger : option Z;
  ev_txHash : option string
}.

(** The argument of [server.getEvents]: the ledger range and the single
    filter [{ type: 'contract', contractIds: [contractId], topics? }]. *)
Record GetEventsRequest : Type := mkRequest {
  startLedger : Z;
  endLedger : Z;
  contractIds : list string;
  filterTopics : option (list string)
}.

(** [EventSubscription].  A callback is what it does to the caller: it
    returns or throws; that it was called is recorded in the log.  A
    callback that calls the monitor's own methods (an [onEvent] that
    unsubscribes, say) is not represented. *)
Record EventSubscription : Type := mkSubscription {
  id : string;
  sub_contractId : string;
  eventTypes : option (list string);
  onEvent : ContractEventDetail -> Result unit;
  onError : option (Exn -> Result unit);
  onClose : option (unit -> Result unit)
}.

(** The fields of a [ContractEventMonitor].  A timer of [setInterval] is the
    closure it runs, which has captured the subscription id and the
    subscription read in [startPolling]. *)
Record Monitor : Type := mkMonitor {
  subscriptions : list (string * EventSubscription);
  pollingIntervals : list (string * EventSubscription);
  lastLedger : Z
}.

(** [new ContractEventMonitor(rpcUrl)] *)
Definition create : Monitor := mkMonitor [] [] 0.

(** What one operation finds at the RPC server: the answer to
    [getLatestLedger()] and the answer to each [getEvents] request. *)
Record Server : Type := mkServer {
  getLatestLedger : Result Z;
  getEvents : GetEventsRequest -> Result (list RpcEvent)
}.

(** [Date.now()] and [Math.random().toString(36).substr(2, 9)]. *)
Record Clock : Type := mkClock { now : Z; random : string }.

(** The observable steps of the monitor, in the order taken. *)
Inductive Effect : Type :=
| CallGetLatestLedger
| CallGetEvents (request : GetEventsRequest)
| CallOnEvent (subscriptionId : string) (event : ContractEventDetail)
| CallOnError (subscriptionId : string) (error : Exn)
| CallOnClose (subscriptionId : string)
| SetInterval (subscriptionId : string)
| ClearInterval (subscriptionId : string)
| ConsoleError (error : Exn).

(** An operation runs on the monitor's fields and appends to the log.  It
    runs to completion: the points where the code awaits are not
    interleaved with other operations, except in the stretches of
    [pollForEvents] given after it. *)
Definition M (A : Type) : Type := Eff (Monitor * list Effect) A.

Definition emit (e : Effect) : M unit :=
  modify (fun s => (fst s, (snd s ++ [e])%list)).

Definition this : M Monitor := s <~ get ;; ret (fst s).

Definition update (f : Monitor -> Monitor) : M unit :=
  modify (fun s => (f (fst s), snd s)).

Definition set_subscriptions (v : list (string * EventSubscription))
    (m : Monitor) : Monitor :=
  mkMonitor v (pollingIntervals m) (lastLedger m).

Definition set_pollingIntervals (v : list (string * EventSubscription))
    (m : Monitor) : Monitor :=
  mkMonitor (subscriptions m) v (lastLedger m).

Definition set_lastLedger (v : Z) (m : Monitor) : Monitor :=
  mkMonitor (subscriptions m) (pollingIntervals m) v.

(** [generateSubscriptionId(contractId)] *)
Definition generateSubscriptionId (clock : Clock) (contractId : string)
  : string :=
  String.substring 0 8 contractId ++ "_"
  ++ NilZero.string_of_int (Z.to_int (now clock)) ++ "_" ++ random clock.

(** [convertRpcEventToDetail(event)]: the defaults, then [...event], which
    puts every property the event has over its default. *)
Definition convertRpcEventToDetail (event : RpcEvent) : ContractEventDetail :=
  let or {A} (x : option A) (d : A) := match x with Some v => v | None => d end in
  mkDetail (or (ev_contractId event) "") (ev_type event)
           (or (ev_topics event) []) (or (ev_data event) scvVoid)
           (or (ev_timestamp event) 0) (or (ev_ledger event) 0)
           (or (ev_txHash event) "").

(** [if (cb) cb(arg)] for an optional callback. *)
Definition callIfPresent {A} (cb : option (A -> Result unit)) (e : Effect)
    (arg : A) : M unit :=
  match cb with
  | Some f => emit e ;;; lift (f arg)
  | None => ret tt
  end.

(** [startPolling(subscriptionId)] *)
Definition startPolling (subscriptionId : string) : M unit :=
  m <~ this ;;
  match SMap_get (subscriptions m) subscriptionId with
  | None => ret tt
  | Some subscription =>
      emit (SetInterval subscriptionId) ;;;
      update (fun m =>
        set_pollingIntervals
          (SMap_set (pollingIntervals m) subscriptionId subscription) m)
  end.

(** [subscribeToEvents(subscription)] *)
Definition subscribeToEvents (server : Server) (clock : Clock)
    (subscription : EventSubscription) : M string :=
  tryCatch
    (let subscriptionId :=
       generateSubscriptionId clock (sub_contractId subscription) in
     update (fun m =>
       set_subscriptions
         (SMap_set (subscriptions m) subscriptionId
            (mkSubscription subscriptionId (sub_contractId subscription)
               (eventTypes subscription) (onEvent subscription)
               (onError subscription) (onClose subscription))) m) ;;;
     emit CallGetLatestLedger ;;;
     sequence <~ lift (getLatestLedger server) ;;
     update (set_lastLedger sequence) ;;;
     startPolling subscriptionId ;;;
     ret subscriptionId)
    (fun error =>
       callIfPresent (onError subscription)
         (CallOnError (id subscription) error) error ;;;
       throw error).

(** The loop [for (const event of eventsResponse.events)] of
    [pollForEvents]. *)
Fixpoint deliver (subscription : EventSubscription) (events : list RpcEvent)
  : M unit :=
  match events with
  | [] => ret tt
  | event :: rest =>
      let eventDetail := convertRpcEventToDetail event in
      emit (CallOnEvent (id subscription) eventDetail) ;;;
      lift (onEvent subscription eventDetail) ;;;
      deliver subscription rest
  end.

(** [pollForEvents(subscriptionId)] *)
Definition pollForEvents (server : Server) (subscriptionId : string)
  : M unit :=
  m <~ this ;;
  match SMap_get (subscriptions m) subscriptionId with
  | None => ret tt
  | Some subscription =>
      tryCatch
        (emit CallGetLatestLedger ;;;
         currentLedger <~ lift (getLatestLedger server) ;;
         m <~ this ;;
         if currentLedger <=? lastLedger m then ret tt
         else
           let request :=
             mkRequest (lastLedger m + 1) currentLedger
                       [sub_contractId subscription]
                       (eventTypes subscription) in
           emit (CallGetEvents request) ;;;
           events <~ lift (getEvents server request) ;;
           deliver subscription events ;;;
           update (set_lastLedger currentLedger))
        (fun error => emit (ConsoleError error))
  end.

(** The callback given to [setInterval] in [startPolling], run when the
    timer of a subscription fires. *)
Definition tick (server : Server) (subscriptionId : string)
    (subscription : EventSubscription) : M unit :=
  tryCatch (pollForEvents server subscriptionId)
    (fun error =>
       callIfPresent (onError subscription)
         (CallOnError (id subscription) error) error).







(** [unsubscribe(subscriptionId)] *)
Definition unsubscribe (subscriptionId : string) : M unit :=
  m <~ this ;;
  (if SMap_has (pollingIntervals m) subscriptionId then
     emit (ClearInterval subscriptionId) ;;;
     update (fun m =>
       set_pollingIntervals (SMap_delete (pollingIntervals m) subscriptionId) m)
   else ret tt) ;;;
  m <~ this ;;
  match SMap_get (subscriptions m) subscriptionId with
  | Some subscription =>
      callIfPresent (onClose subscription) (CallOnClose subscriptionId) tt
  | None => ret tt
  end ;;;
  update (fun m =>
    set_subscriptions (SMap_delete (subscriptions m) subscriptionId) m).

(** The delivery loop of [pollForEvents] when the [onEvent] of the
    subscription is a callback that uses the monitor: [react] is what the
    callback does, on the monitor's fields, with the event it is given. *)
Fixpoint deliverTo (react : ContractEventDetail -> M unit)
    (subscription : EventSubscription) (events : list RpcEvent) : M unit :=
  match events with
  | [] => ret tt
  | event :: rest =>
      let eventDetail := convertRpcEventToDetail event in
      emit (CallOnEvent (id subscription) eventDetail) ;;;
      react eventDetail ;;;
      deliverTo react subscription rest
  end.

(** [pollForEvents(subscriptionId)] for a subscription whose [onEvent] is
    such a callback. *)
Definition pollForEventsTo (react : ContractEventDetail -> M unit)
    (server : Server) (subscriptionId : string) : M unit :=
  m <~ this ;;
  match SMap_get (subscriptions m) subscriptionId with
  | None => ret tt
  | Some subscription =>
      tryCatch
        (emit CallGetLatestLedger ;;;
         currentLedger <~ lift (getLatestLedger server) ;;
         m <~ this ;;
         if currentLedger <=? lastLedger m then ret tt
         else
           let request :=
             mkRequest (lastLedger m + 1) currentLedger
                       [sub_contractId subscription]
                       (eventTypes subscription) in
           emit (CallGetEvents request) ;;;
           events <~ lift (getEvents server request) ;;
           deliverTo react subscription events ;;;
           update (set_lastLedger currentLedger))
        (fun error => emit (ConsoleError error))
  end.

(** [getSubscriptions()] *)
Definition getSubscriptions (m : Monitor) : list EventSubscription :=
  SMap_values (subscriptions m).

(** Running an operation on a monitor with an empty log. *)
Definition run {A} (c : M A) (m : Monitor)
  : Result A * (Monitor * list Effect) := c (m, []).

(** The loop [for (const subscriptionId of this.subscriptions.keys())] of
    [unsubscribeAll].  The iterator of a Map is live; as the body deletes
    the key it is at and adds none, the keys visited are the keys the Map
    had when the loop began. *)
Fixpoint unsubscribeEach (ids : list string) : M unit :=
  match ids with
  | [] => ret tt
  | subscriptionId :: rest =>
      unsubscribe subscriptionId ;;; unsubscribeEach rest
  end.

(** [unsubscribeAll()] *)
Definition unsubscribeAll : M unit :=
  m <~ this ;; unsubscribeEach (SMap_keys (subscriptions m)).

(** [destroy()] *)
Definition destroy : M unit :=
  unsubscribeAll ;;; update (set_subscriptions []).

(** [streamEvents(subscription)] *)
Definition streamEvents (clock : Clock) (subscription : EventSubscription)
  : M string :=
  tryCatch
    (let subscriptionId :=
       generateSubscriptionId clock (sub_contractId subscription) in
     update (fun m =>
       set_subscriptions
         (SMap_set (subscriptions m) subscriptionId
            (mkSubscription subscriptionId (sub_contractId subscription)
               (eventTypes subscription) (onEvent subscription)
               (onError subscription) (onClose subscription))) m) ;;;
     startPolling subscriptionId ;;;
     ret subscriptionId)
    (fun error =>
       callIfPresent (onError subscription)
         (CallOnError (id subscription) error) error ;;;
       throw error).

(** [filterEventsByContract(events, contractId)] *)
Definition filterEventsByContract (events : list ContractEventDetail)
    (contract : string) : list ContractEventDetail :=
  filter (fun event => String.eqb (contractId event) contract) events.

(** [filterEventsByTimeRange(events, startTime, endTime)] *)
Definition filterEventsByTimeRange (events : list ContractEventDetail)
    (startTime endTime : Z) : list ContractEventDetail :=
  filter (fun event =>
            (timestamp event >=? startTime) && (timestamp event <=? endTime))
         events.

(** [set.add(x)] on a Set of strings. *)
Fixpoint SSet_add (s : list string) (x : string) : list string :=
  match s with
  | [] => [x]
  | y :: r => if String.eqb y x then y :: r else y :: SSet_add r x
  end.

(** [new Set(xs)] for strings. *)
Definition SSet_of (xs : list string) : list string :=
  fold_left SSet_add xs [].

(** [{ min, max }] *)
Record Range : Type := mkRange { min : Z; max : Z }.

(** [{ min: xs.length > 0 ? Math.min(...xs) : 0,
       max: xs.length > 0 ? Math.max(...xs) : 0 }] *)
Definition rangeOf (xs : list Z) : Range :=
  match xs with
  | [] => mkRange 0 0
  | x :: r => mkRange (fold_left Z.min r x) (fold_left Z.max r x)
  end.

(** The result of [getEventStats]. *)
Record EventStats : Type := mkStats {
  totalEvents : nat;
  uniqueContracts : nat;
  uniqueTypes : nat;
  ledgerRange : Range;
  timeRange : Range
}.

(** [getEventStats(events)] *)
Definition getEventStats (events : list ContractEventDetail) : EventStats :=
  let uniqueContracts := List.length (SSet_of (List.map contractId events)) in
  let uniqueTypes := List.length (SSet_of (List.map type events)) in
  let ledgers := filter (fun l => l >? 0) (List.map ledger events) in
  let timestamps := filter (fun t => t >? 0) (List.map timestamp events) in
  mkStats (List.length events) uniqueContracts uniqueTypes
          (rangeOf ledgers) (rangeOf timestamps).

End ContractEventMonitor.

(* ===================================================================== *)
(** * SorobanContractManager *)
(* ===================================================================== *)

Module SorobanContractManager.

Import ContractEventMonitor (ContractEventDetail, mkDetail).

(** The signing capability: [caller.publicKey()]; the secret is opaque. *)
Record Keypair : Type := mkKeypair { publicKey : string }.

(** [ContractInvocationParams]; [simulateOnly] is optional. *)
Record ContractInvocationParams : Type := mkParams {
  contractId : string;
  method : string;
  args : list JsVal;
  caller : Keypair;
  networkPassphrase : string;
  simulateOnly : option bool
}.

(** The account state [getAccount] returns. *)
Record Account : Type := mkAccount {
  accountId : string;
  sequenceNumber : string
}.

(** The transaction the builder makes for [contract.call(method, ...scArgs)],
    whether it has been prepared from a simulation, and who signed it. *)
Record Transaction : Type := mkTransaction {
  source : Account;
  fee : string;
  tx_networkPassphrase : string;
  tx_contract : string;
  tx_method : string;
  tx_args : list ScVal;
  tx_timeout : Z;
  prepared : bool;
  signedBy : list string
}.

(** An event inside a transaction's Soroban meta. *)
Record MetaEvent : Type := mkMetaEvent {
  me_contractId : option string;
  me_type : string;
  me_topics : list ScVal;
  me_data : ScVal
}.

(** An [xdr.TransactionMeta], by what [meta.v3()?.sorobanMeta()] does on
    it. *)
Inductive TransactionMeta : Type :=
| V3Throws (e : Exn)         (** [v3()] throws: the union holds another arm *)
| V3Nullish                  (** [v3()] is [null] or [undefined] *)
| V3 (sorobanMeta : option (list MetaEvent)).

(** What [parseEvents] is called with: the meta of a transaction, or, in
    [convertSimulationToResult], the [result] of a simulation, which the
    repository takes for a wire value ([InvocationResult.result] is an
    [xdr.ScVal] and the callers decode it with [fromScVal]).  A wire value
    has no method [v3]. *)
Inductive MetaArgument : Type :=
| OfMeta (meta : TransactionMeta)
| OfWire (scVal : ScVal).

(** The answer of [simulateTransaction]; [sim_success] is
    [SorobanRpc.Api.isSimulationSuccess(simulation)]. *)
Record SimulateTransactionResponse : Type := mkSimulation {
  sim_success : bool;
  sim_error : string;
  sim_result : option ScVal
}.

(** The answer of [sendTransaction]. *)
Record SendTransactionResponse : Type := mkSend {
  status : string;
  hash : string
}.

(** The answer of [getTransaction]; [tx_success] is
    [SorobanRpc.Api.isGetTransactionSuccess(result)]. *)
Record GetTransactionResponse : Type := mkGetTransaction {
  tx_success : bool;
  resultXdr : string;
  returnValue : option ScVal;
  tx_ledger : option Z;
  resultMetaXdr : option TransactionMeta
}.

(** [InvocationResult]; [result] is [undefined] when the response it is
    taken from has none. *)
Record InvocationResult : Type := mkInvocationResult {
  result : option ScVal;
  transactionHash : string;
  ledger : Z;
  events : list ContractEventDetail;
  auth : list JsVal
}.

(** The RPC server the manager talks to. *)
Record Server : Type := mkServer {
  getAccount : string -> Result Account;
  simulateTransaction : Transaction -> Result SimulateTransactionResponse;
  sendTransaction : Transaction -> Result SendTransactionResponse;
  getTransaction : string -> Result GetTransactionResponse
}.

(** The calls made on the server, in order. *)
Inductive RpcCall : Type :=
| CallGetAccount (publicKey : string)
| CallSimulateTransaction (tx : Transaction)
| CallSendTransaction (tx : Transaction)
| CallGetTransaction (hash : string).

Definition M (A : Type) : Type := Eff (list RpcCall) A.

Definition call {A} (c : RpcCall) (answer : Result A) : M A :=
  modify (fun log => (log ++ [c])%list) ;;; lift answer.

(** [BASE_FEE] of the SDK. *)
Definition BASE_FEE : string := "100".

Section WithPlatform.
Context {P : Platform}.

(** [new Contract(contractId)] throws on an identity that is no strkey. *)
Definition Contract_new (contractId : string) : Result string :=
  if StrKey_isValid contractId then Ok contractId
  else Throw (Error ("Invalid contract ID: " ++ contractId)).

(** [event.topics()] and [event.data()]: an [xdr.ContractEvent] of the SDK
    keeps its topics and data under [body().v0()] and has neither
    accessor. *)
Definition event_topics (event : MetaEvent) : Result (list ScVal) :=
  notAFunction "event.topics".

Definition event_data (event : MetaEvent) : Result ScVal :=
  notAFunction "event.data".

(** The object pushed for one event of the meta; its properties are
    evaluated in the order written. *)
Definition eventDetail (event : MetaEvent) : Result ContractEventDetail :=
  let contractId :=
    match me_contractId event with Some c => c | None => "" end in
  let type := me_type event in
  topics <- event_topics event ;;
  data <- event_data event ;;
  Ok (mkDetail contractId type topics data 0 0 "").

(** [parseEvents(meta?)] *)
Definition parseEvents (meta : option MetaArgument)
  : Result (list ContractEventDetail) :=
  match meta with
  | None => Ok []
  | Some meta =>
      sorobanMeta <-
        match meta with
        | OfWire _ => Throw (TypeError "meta.v3 is not a function")
        | OfMeta (V3Throws e) => Throw e
        | OfMeta V3Nullish => Ok None
        | OfMeta (V3 sorobanMeta) => Ok sorobanMeta
        end ;;
      match sorobanMeta with
      | Some events => mapM eventDetail events
      | None => Ok []
      end
  end.

(** [parseAuth(result?)] *)
Definition parseAuth {A} (result : option A) : list JsVal := [].

(** [convertSimulationToResult(simulation)]: the object literal evaluates
    its properties in order, and [parseEvents] is given
    [simulation.result]. *)
Definition convertSimulationToResult (simulation : SimulateTransactionResponse)
  : Result InvocationResult :=
  events <- parseEvents (option_map OfWire (sim_result simulation)) ;;
  Ok (mkInvocationResult (sim_result simulation) "" 0 events
                         (parseAuth (sim_result simulation))).

(** [SorobanRpc.Api.prepareTransaction(tx, simulation)]: the namespace
    [SorobanRpc.Api] of the SDK has no such member; a transaction is
    prepared by a method of the server, which the code does not call.
    (The mock of the SDK in the repository's tests defines one; what is
    embedded here is the code on the SDK itself.) *)
Definition Api_prepareTransaction (tx : Transaction)
    (simulation : SimulateTransactionResponse) : Result Transaction :=
  notAFunction "SorobanRpc.Api.prepareTransaction".

(** [tx.sign(signer)] *)
Definition sign (tx : Transaction) (signer : Keypair) : Transaction :=
  mkTransaction (source tx) (fee tx) (tx_networkPassphrase tx)
                (tx_contract tx) (tx_method tx) (tx_args tx)
                (tx_timeout tx) (prepared tx)
                (signedBy tx ++ [publicKey signer])%list.

(** [invokeContract(params)] *)
Definition invokeContract (server : Server) (params : ContractInvocationParams)
  : M InvocationResult :=
  tryCatch
    (let pk := publicKey (caller params) in
     account <~ call (CallGetAccount pk) (getAccount server pk) ;;
     contract <~ lift (Contract_new (contractId params)) ;;
     scArgs <~ lift (ScValConverter.encodeArgs (args params) None) ;;
     let tx :=
       mkTransaction account BASE_FEE (networkPassphrase params) contract
                     (method params) scArgs 30 false [] in
     simulation <~
       call (CallSimulateTransaction tx) (simulateTransaction server tx) ;;
     if negb (sim_success simulation) then
       throw (Error ("Simulation failed: " ++ sim_error simulation))
     else if match simulateOnly params with Some b => b | None => false end
     then lift (convertSimulationToResult simulation)
     else
       preparedTx <~ lift (Api_prepareTransaction tx simulation) ;;
       let preparedTx := sign preparedTx (caller params) in
       response <~
         call (CallSendTransaction preparedTx)
              (sendTransaction server preparedTx) ;;
       if negb (String.eqb (status response) "PENDING") then
         throw (Error ("Transaction failed: " ++ status response))
       else
         result <~
           call (CallGetTransaction (hash response))
                (getTransaction server (hash response)) ;;
         if negb (tx_success result) then
           throw (Error ("Transaction execution failed: " ++ resultXdr result))
         else
           events <~
             lift (parseEvents (option_map OfMeta (resultMetaXdr result))) ;;
           let auth := parseAuth (returnValue result) in
           ret (mkInvocationResult (returnValue result)
                  (hash response)
                  (match tx_ledger result with Some l => l | None => 0 end)
                  events auth))
    (fun error =>
       throw (Error ("Contract invocation failed: " ++ Exn_message error))).

End WithPlatform.

(** Running an operation with an empty log of calls. *)
Definition run {A} (c : M A) : Result A * list RpcCall := c [].

End SorobanContractManager.

(* ===================================================================== *)
(** * FunctionSignatureBuilder *)
(* ===================================================================== *)

Module FunctionSignatureBuilder.

(** An element of [ContractFunction.inputs]. *)
Record FunctionInput : Type := mkInput {
  input_name : string;
  input_type : ScType
}.

(** [ContractFunction] of [types/contract-types.ts]. *)
Record ContractFunction : Type := mkFunction {
  name : string;
  inputs : list FunctionInput;
  outputs : list ScType
}.

(** [s.charCodeAt(i)] for the character at [i].  A character of a string is
    a code unit below 256. *)
Definition charCode (c : ascii) : Z := Z.of_N (N_of_ascii c).

(** [xs.join(sep)] *)
Fixpoint join (sep : string) (xs : list string) : string :=
  match xs with
  | [] => ""
  | x :: r => x ++ match r with [] => "" | _ :: _ => sep ++ join sep r end
  end.

(** [buildSignatureString(funcName, inputTypes)] *)
Definition buildSignatureString (funcName : string) (inputTypes : list ScType)
  : string :=
  let typesStr := join ", " (List.map ScType_name inputTypes) in
  funcName ++ "(" ++ typesStr ++ ")".

(** [buildMethodSignature(namespace, method, inputTypes)] *)
Definition buildMethodSignature (namespace method : string)
    (inputTypes : list ScType) : string :=
  let fullName := namespace ++ "_" ++ method in
  buildSignatureString fullName inputTypes.

(** [createErrorSignature(errorName, inputTypes)] *)
Definition createErrorSignature (errorName : string)
    (inputTypes : list ScType) : string :=
  buildSignatureString ("error_" ++ errorName) inputTypes.

(** The class [\w] of a regular expression: [A-Za-z0-9_]. *)
Definition isWord (c : ascii) : bool :=
  let n := charCode c in
  ((48 <=? n) && (n <=? 57)) || ((65 <=? n) && (n <=? 90)) || (n =? 95)
  || ((97 <=? n) && (n <=? 122)).

(** The characters [.] does not match: the line terminators. *)
Definition isLineTerminator (c : ascii) : bool :=
  (charCode c =? 10) || (charCode c =? 13).

(** The white space [trim] removes. *)
Definition isWhiteSpace (c : ascii) : bool :=
  let n := charCode c in
  ((9 <=? n) && (n <=? 13)) || (n =? 32) || (n =? 160).

(** The longest prefix of word characters, and what follows it. *)
Fixpoint spanWord (s : string) : string * string :=
  match s with
  | EmptyString => ("", "")
  | String c r =>
      if isWord c then let (w, rest) := spanWord r in (String c w, rest)
      else ("", s)
  end.

(** A string without its last character, and that character. *)
Fixpoint unsnoc (s : string) : option (string * ascii) :=
  match s with
  | EmptyString => None
  | String c r =>
      match unsnoc r with
      | None => Some ("", c)
      | Some (init, last) => Some (String c init, last)
      end
  end.

(** [signature.match(re)] for the pattern of [parseSignature]: from the
    start, a group of one or more word characters, an opening parenthesis,
    a group of any characters but line terminators, a closing parenthesis,
    the end.  The result is the two groups.  The first group has to stop
    where the word characters stop, since a parenthesis follows it; and as
    the pattern ends at the end of the string, the last character is the
    closing parenthesis and the second group is all that lies between. *)
Definition matchSignature (signature : string) : option (string * string) :=
  match spanWord signature with
  | (EmptyString, _) => None
  | (name, String c body) =>
      if negb (Ascii.eqb c "("%char) then None
      else
        match unsnoc body with
        | Some (inner, last) =>
            if Ascii.eqb last ")"%char
               && negb (existsb isLineTerminator (list_ascii_of_string inner))
            then Some (name, inner)
            else None
        | None => None
        end
  | (_, EmptyString) => None
  end.

(** [s.trimStart()] *)
Fixpoint trimStart (s : string) : string :=
  match s with
  | EmptyString => ""
  | String c r => if isWhiteSpace c then trimStart r else s
  end.

(** [s.trimEnd()] *)
Fixpoint trimEnd (s : string) : string :=
  match s with
  | EmptyString => ""
  | String c r =>
      match trimEnd r with
      | EmptyString => if isWhiteSpace c then "" else String c ""
      | t => String c t
      end
  end.

(** [s.trim()] *)
Definition trim (s : string) : string := trimEnd (trimStart s).

(** [s.split(',')] *)
Fixpoint split_comma (s : string) : list string :=
  match s with
  | EmptyString => [""]
  | String c r =>
      if Ascii.eqb c ","%char then "" :: split_comma r
      else match split_comma r with
           | h :: t => String c h :: t
           | [] => [String c ""]
           end
  end.

(** [parseSignature(signature)]; the types are the strings found, taken
    for [ScType]s unchecked. *)
Definition parseSignature (signature : string)
  : Result (string * list string) :=
  match matchSignature signature with
  | None => Throw (Error ("Invalid function signature format: " ++ signature))
  | Some (name, inputTypesStr) =>
      let inputTypes :=
        if negb (String.eqb (trim inputTypesStr) "")
        then List.map trim (split_comma inputTypesStr)
        else [] in
      Ok (name, inputTypes)
  end.

(** [ToInt32]: the integer modulo [2^32], taken between [-2^31] and
    [2^31 - 1]. *)
Definition toInt32 (z : Z) : Z := (z + 2 ^ 31) mod 2 ^ 32 - 2 ^ 31.

(** The body of the loop of [hashSignature]:
    [hash = (hash << 5) - hash + char; hash = hash & hash]. *)
Definition hashChar (hash : Z) (c : ascii) : Z :=
  let char := charCode c in
  let hash := toInt32 (hash * 2 ^ 5) - hash + char in
  toInt32 hash.

(** The digit of a value below 16. *)
Definition hexDigit (d : Z) : ascii :=
  nth (Z.to_nat d)
      ["0"; "1"; "2"; "3"; "4"; "5"; "6"; "7"; "8"; "9"; "a"; "b"; "c"; "d";
       "e"; "f"]%char "0"%char.

(** The hexadecimal digits of [n] put before [acc]; [fuel] bounds their
    number. *)
Fixpoint hexDigits (fuel : nat) (n : Z) (acc : string) : string :=
  match fuel with
  | O => acc
  | S fuel' =>
      let acc' := String (hexDigit (n mod 16)) acc in
      if n <? 16 then acc' else hexDigits fuel' (n / 16) acc'
  end.

(** [n.toString(16)] for a natural number [n]. *)
Definition toString16 (n : Z) : string :=
  hexDigits (S (Z.to_nat (Z.log2 n))) n "".

(** [s.padStart(targetLength, pad)] for a one-character [pad]. *)
Definition padStart (targetLength : nat) (pad : ascii) (s : string) : string :=
  string_of_list_ascii (List.repeat pad (targetLength - String.length s)) ++ s.

(** [s.repeat(count)] *)
Fixpoint String_repeat (s : string) (count : nat) : string :=
  match count with
  | O => ""
  | S k => s ++ String_repeat s k
  end.

(** [hashSignature(signature)] *)
Definition hashSignature (signature : string) : string :=
  let hash := fold_left hashChar (list_ascii_of_string signature) 0 in
  let absHash := Z.abs hash in
  String_repeat (padStart 8 "0"%char (toString16 absHash)) 4.

(** [buildSignatureHash(funcName, inputTypes)] *)
Definition buildSignatureHash (funcName : string) (inputTypes : list ScType)
  : string :=
  let signature := buildSignatureString funcName inputTypes in
  hashSignature signature.

(** [func.inputs[i].type !== inputTypes[i]]: the hints are compared as the
    strings they are. *)
Definition ScType_eqb (a b : ScType) : bool :=
  String.eqb (ScType_name a) (ScType_name b).

(** The loop of [matchesSignature], run on lists of the same length. *)
Fixpoint typesMatch (inputs : list FunctionInput) (inputTypes : list ScType)
  : bool :=
  match inputs, inputTypes with
  | input :: inputs', type :: inputTypes' =>
      if negb (ScType_eqb (input_type input) type) then false
      else typesMatch inputs' inputTypes'
  | _, _ => true
  end.

(** [matchesSignature(func, funcName, inputTypes)] *)
Definition matchesSignature (func : ContractFunction) (funcName : string)
    (inputTypes : list ScType) : bool :=
  if negb (String.eqb (name func) funcName) then false
  else if negb (Nat.eqb (List.length (inputs func)) (List.length inputTypes))
  then false
  else typesMatch (inputs func) inputTypes.

(** [inferTypeFromScVal(scVal)] *)
Definition inferTypeFromScVal (scVal : ScVal) : Result ScType :=
  switchOnTag (switch scVal)
    [ (TagVoid, Ok T_void); (TagBool, Ok T_bool);
      (TagU32, Ok T_u32); (TagI32, Ok T_i32);
      (TagU64, Ok T_u64); (TagI64, Ok T_i64);
      (TagU128, Ok T_u128); (TagI128, Ok T_i128);
      (TagU256, Ok T_u256); (TagI256, Ok T_i256);
      (TagF32, Ok T_f32); (TagF64, Ok T_f64);
      (TagBytes, Ok T_bytes); (TagString, Ok T_string);
      (TagSymbol, Ok T_symbol); (TagAddress, Ok T_address);
      (TagVec, Ok T_vec); (TagMap, Ok T_map) ]
    (Ok T_void).

(** [createSignatureFromScVals(funcName, args)] *)
Definition createSignatureFromScVals (funcName : string) (args : list ScVal)
  : Result string :=
  inputTypes <- mapM inferTypeFromScVal args ;;
  Ok (buildSignatureString funcName inputTypes).

(** The result of [validateArguments]. *)
Record Validation : Type := mkValidation {
  valid : bool;
  errors : list string
}.

Section WithPlatform.
Context {P : Platform}.

(** [createInvocation(funcName, args, inputTypes?)] *)
Definition createInvocation (funcName : string) (args : list JsVal)
    (inputTypes : option (list ScType)) : Result ScVal :=
  let nameScVal := scvSymbol (JString funcName) in
  argScVals <-
    mapMi (fun arg index =>
             let type := match inputTypes with
                         | Some ts => nth_error ts index
                         | None => None
                         end in
             ScValConverter.toScVal arg type)
          0%nat args ;;
  Ok (scvVec (nameScVal :: argScVals)).

(** [validateArgumentType(arg, expectedType)]; [None] is [null]. *)
Definition validateArgumentType (arg : JsVal) (expectedType : ScType)
  : option string :=
  match ScValConverter.toScVal arg (Some expectedType) with
  | Ok _ => None
  | Throw error => Some ("Type validation failed: " ++ Exn_message error)
  end.

(** The loop of [validateArguments] from index [i] on, run on lists of the
    same length: the messages pushed, in order. *)
Fixpoint validateEach (i : nat) (args : list JsVal)
    (inputs : list FunctionInput) : list string :=
  match args, inputs with
  | arg :: args', input :: inputs' =>
      match validateArgumentType arg (input_type input) with
      | Some validationError =>
          ("Argument " ++ index_key i ++ " (" ++ input_name input ++ "): "
           ++ validationError)
          :: validateEach (S i) args' inputs'
      | None => validateEach (S i) args' inputs'
      end
  | _, _ => []
  end.

(** [validateArguments(func, args)] *)
Definition validateArguments (func : ContractFunction) (args : list JsVal)
  : Validation :=
  if negb (Nat.eqb (List.length args) (List.length (inputs func))) then
    mkValidation false
      ["Expected " ++ index_key (List.length (inputs func))
       ++ " arguments, got " ++ index_key (List.length args) ++ ". "
       ++ "Expected: ["
       ++ join ", " (List.map input_name (inputs func)) ++ "]"]
  else
    let errors := validateEach 0 args (inputs func) in
    mkValidation (Nat.eqb (List.length errors) 0) errors.

End WithPlatform.
End FunctionSignatureBuilder.

(* ===================================================================== *)
(** * EventDecoder *)
(* ===================================================================== *)

Module EventDecoder.
Import ContractEventMonitor (ContractEventDetail, txHash).

(** The body of the loop of [groupEventsByTransaction].  The Map holds
    arrays, and [push] changes the array stored under the key, which is
    there: it was, or has just been set. *)
Definition addToGroup (grouped : list (string * list ContractEventDetail))
    (event : ContractEventDetail) : list (string * list ContractEventDetail) :=
  let txHash := txHash event in
  let grouped :=
    if negb (SMap_has grouped txHash) then SMap_set grouped txHash []
    else grouped in
  match SMap_get grouped txHash with
  | Some group => SMap_set grouped txHash (group ++ [event])%list
  | None => grouped
  end.

(** [groupEventsByTransaction(events)] *)
Definition groupEventsByTransaction (events : list ContractEventDetail)
  : list (string * list ContractEventDetail) :=
  fold_left addToGroup events [].

End EventDecoder.

(* ===================================================================== *)
(** * A platform to run the code on *)
(* ===================================================================== *)

(** The SDK and runtime functions of [Platform], written out far enough to
    evaluate the code on the inputs used in this file: [ScInt] holds a
    [bigint] as it is and an integral [number] by its value, and a sized
    conversion checks the range of its type. *)
Module Reference.

(** The value of an integral number. *)
Definition integerValue (x : float) : option Z :=
  match Prim2SF x with
  | S754_zero _ => Some 0
  | S754_finite s m e =>
      let sign := if s then -1 else 1 in
      if 0 <=? e then Some (sign * (Z.pos m * 2 ^ e))
      else if Z.pos m mod 2 ^ (- e) =? 0 then
        Some (sign * (Z.pos m / 2 ^ (- e)))
      else None
  | S754_infinity _ | S754_nan => None
  end.

Definition inRange (k : IntKind) (n : Z) : bool :=
  match k with
  | U64 => (0 <=? n) && (n <? 2 ^ 64)
  | I64 => (- 2 ^ 63 <=? n) && (n <? 2 ^ 63)
  | U128 => (0 <=? n) && (n <? 2 ^ 128)
  | I128 => (- 2 ^ 127 <=? n) && (n <? 2 ^ 127)
  | U256 => (0 <=? n) && (n <? 2 ^ 256)
  | I256 => (- 2 ^ 255 <=? n) && (n <? 2 ^ 255)
  end.

Definition decimal (n : Z) : string := NilZero.string_of_int (Z.to_int n).

(** The value of a character of the base-32 alphabet of RFC 4648: the
    letters A to Z and the digits 2 to 7. *)
Definition base32Value (c : ascii) : option Z :=
  let n := Z.of_N (N_of_ascii c) in
  if (65 <=? n) && (n <=? 90) then Some (n - 65)
  else if (50 <=? n) && (n <=? 55) then Some (n - 24)
  else None.

(** The number a base-32 string writes, five bits a character. *)
Fixpoint base32Number (s : string) (acc : Z) : option Z :=
  match s with
  | EmptyString => Some acc
  | String c r =>
      match base32Value c with
      | Some v => base32Number r (acc * 32 + v)
      | None => None
      end
  end.

(** The byte at [index] of the 35 bytes that 56 characters decode to. *)
Definition byteAt (n : Z) (index : Z) : Z :=
  Z.land (Z.shiftr n (8 * (34 - index))) 255.

(** CRC16-XModem: polynomial 0x1021, initial value 0. *)
Definition crcBit (crc : Z) : Z :=
  if Z.testbit crc 15 then Z.land (Z.lxor (Z.shiftl crc 1) 4129) 65535
  else Z.land (Z.shiftl crc 1) 65535.

Definition crcByte (crc b : Z) : Z :=
  Nat.iter 8 crcBit (Z.lxor crc (Z.shiftl b 8)).

Definition crc16 (data : list Z) : Z := fold_left crcByte data 0.

(** A strkey of an account or of a contract: 56 base-32 characters for a
    version byte (6 << 3 for an ed25519 public key, 2 << 3 for a
    contract), 32 bytes of payload and the CRC16-XModem checksum of these
    33 bytes, low byte first. *)
Definition isStrKey (s : string) : bool :=
  (Z.of_nat (String.length s) =? 56)
  && match base32Number s 0 with
     | Some n =>
         let version := byteAt n 0 in
         let checksum := Z.lor (byteAt n 33) (Z.shiftl (byteAt n 34) 8) in
         ((version =? 48) || (version =? 16))
         && (crc16 (List.map (fun i => byteAt n (Z.of_nat i)) (seq 0 33))
             =? checksum)
     | None => false
     end.

Definition platform : Platform := {|
  StrKey_isValid := isStrKey;
  ScInt_new := fun value =>
    match value with
    | JBigInt z => Ok z
    | JNumber x =>
        match integerValue x with
        | Some z => Ok z
        | None => Throw (RangeError "The number cannot be converted to a BigInt because it is not an integer")
        end
    | _ => Throw (TypeError "Cannot convert value to a BigInt")
    end;
  ScInt_to := fun k n =>
    if inRange k n then Ok n else Throw (RangeError "value too large");
  ScInt_toBigInt := fun n => Ok n;
  Number_ := fun value =>
    match value with
    | JNumber x => Ok x
    | JBool b => Ok (if b then 1 else 0)%float
    | JNull => Ok 0%float
    | JString "" => Ok 0%float
    | JSymbol _ => Throw (TypeError "Cannot convert a Symbol value to a number")
    | _ => Ok PrimFloat.nan
    end;
  String_ := fun value =>
    match value with
    | JString s => Ok s
    | JUndefined => Ok "undefined"
    | JNull => Ok "null"
    | JBool b => Ok (if b then "true" else "false")
    | JBigInt z => Ok (decimal z)
    | JNumber x =>
        match integerValue x with
        | Some z => Ok (decimal z)
        | None => Ok "NaN"
        end
    | JSymbol _ => Ok "Symbol()"
    | _ => Ok "[object Object]"
    end;
  Buffer_from := fun value =>
    match value with
    | JBuffer bytes => Ok bytes
    | JString s => Ok (list_byte_of_string s)
    | _ => Throw (TypeError "The first argument must be of type string or an instance of Buffer")
    end
|}.

(** The SDK as the repository's tests mock it: [Contract] and [Address] take
    any string. *)
Definition mocked : Platform := {|
  StrKey_isValid := fun _ => true;
  ScInt_new := @ScInt_new platform;
  ScInt_to := @ScInt_to platform;
  ScInt_toBigInt := @ScInt_toBigInt platform;
  Number_ := @Number_ platform;
  String_ := @String_ platform;
  Buffer_from := @Buffer_from platform
|}.

End Reference.

(* ===================================================================== *)
(** * Properties of the error classifier *)
(* ===================================================================== *)

Section ErrorParserProperties.
Import ErrorParser.

(** [msg] has [sub] as a substring. *)
Definition contains (msg sub : string) : Prop :=
  exists pre post, msg = pre ++ sub ++ post.

Lemma prefix_spec (sub s : string) :
  String.prefix sub s = true <-> exists post, s = sub ++ post.
Proof.
  revert s; induction sub as [|c sub IH]; intros s.
  - split; [intros _; now exists s | intros _; now destruct s].
  - destruct s as [|d s]; simpl.
    + split; [discriminate | intros [post H]; discriminate].
    + destruct (Ascii.ascii_dec c d) as [->|Hne].
      * rewrite IH. split; intros [post H]; exists post.
        -- now rewrite H.
        -- now injection H.
      * split; [discriminate | intros [post H]; injection H; congruence].
Qed.

Lemma includes_spec (s sub : string) :
  includes s sub = true <-> contains s sub.
Proof.
  unfold contains. induction s as [|c s IH]; cbn [includes].
  - rewrite orb_false_r, prefix_spec. split.
    + intros [post H]. exists "", post. exact H.
    + intros [pre [post H]]. destruct pre; simpl in H.
      * now exists post.
      * discriminate.
  - rewrite orb_true_iff, prefix_spec, IH. split.
    + intros [[post H] | [pre [post H]]].
      * exists "", post. exact H.
      * exists (String c pre), post. simpl. now rewrite H.
    + intros [pre [post H]]. destruct pre as [|d pre]; simpl in H.
      * left. now exists post.
      * right. exists pre, post. now injection H.
Qed.

Lemma includes_false (s sub : string) :
  ~ contains s sub -> includes s sub = false.
Proof.
  intros H. destruct (includes s sub) eqn:E; [|reflexivity].
  apply includes_spec in E. contradiction.
Qed.

Lemma Array_includes_spec (xs : list string) (x : string) :
  Array_includes xs x = true <-> In x xs.
Proof.
  unfold Array_includes. rewrite existsb_exists. split.
  - intros [y [Hy E]]. apply String.eqb_eq in E. now subst.
  - intros H. exists x. split; [exact H | apply String.eqb_refl].
Qed.

(** C4 (retry policy).  [isRecoverableError] holds exactly for the tags
    InsufficientFee, InsufficientBalance, NetworkError and Timeout;
    [shouldRetry] is false for an error that is not recoverable, false for
    the tags InsufficientBalance and ContractNotFound, false for every
    attempt count of 3 or more whatever the tag, and for an InsufficientFee
    error it is true at attempts 1 and 2 and false at attempt 3. *)
Theorem shouldRetry_policy (error : SorobanError) (attemptCount : Z) :
  (isRecoverableError error = true <->
   In (type error)
      ["InsufficientFee"; "InsufficientBalance"; "NetworkError"; "Timeout"])
  /\ (isRecoverableError error = false ->
      shouldRetry error attemptCount = false)
  /\ (type error = "InsufficientBalance" \/ type error = "ContractNotFound" ->
      shouldRetry error attemptCount = false)
  /\ (3 <= attemptCount -> shouldRetry error attemptCount = false)
  /\ (type error = "InsufficientFee" ->
      shouldRetry error 1 = true /\ shouldRetry error 2 = true
      /\ shouldRetry error 3 = false).
Proof.
  repeat split.
  - apply Array_includes_spec.
  - apply Array_includes_spec.
  - intros H. unfold shouldRetry. now rewrite H.
  - intros [H | H]; unfold shouldRetry, isRecoverableError; rewrite H; simpl;
      [destruct (attemptCount >=? 3)|]; reflexivity.
  - intros H. unfold shouldRetry.
    destruct (negb (isRecoverableError error)); [reflexivity|].
    assert ((attemptCount >=? 3) = true) as -> by (apply Z.geb_le; lia).
    reflexivity.
  - unfold shouldRetry, isRecoverableError. now rewrite H.
  - unfold shouldRetry, isRecoverableError. now rewrite H.
  - unfold shouldRetry, isRecoverableError. now rewrite H.
Qed.

Lemma shouldRetry_policy_witness :
  let error := mkSorobanError "Insufficient fee for transaction" 4001
                              "InsufficientFee" in
  shouldRetry error 1 = true /\ shouldRetry error 2 = true
  /\ shouldRetry error 3 = false /\ shouldRetry error 7 = false.
Proof.
  intros error.
  destruct (shouldRetry_policy error 7) as [_ [_ [_ [Hcap Hfee]]]].
  destruct (Hfee eq_refl) as [H1 [H2 H3]].
  assert (3 <= 7) as Hle by lia.
  exact (conj H1 (conj H2 (conj H3 (Hcap Hle)))).
Defined.

Section Classification.
Context {P : Platform}.

Ltac decide_includes msg sub :=
  let E := fresh "E" in
  destruct (includes msg sub) eqn:E;
  [apply includes_spec in E
  |assert (~ contains msg sub)
     by (let C := fresh "C" in
         intros C; apply includes_spec in C; congruence)].

(** C7 (free-text classification), as the code has it.  A message that is
    not empty is classified by the first phrase it contains, in the order
    insufficient fee, insufficient balance, contract not found, method not
    found, invalid argument, and is a SimulationError when it contains
    none; an empty message without a result payload is a SimulationError
    too. *)
Theorem parseSimulationError_classification
    (msg : string) (result : option ScVal) :
  let tag := type (parseSimulationError (Some msg) result) in
  (msg <> "" ->
   (contains msg "insufficient fee" -> tag = "InsufficientFee")
   /\ (~ contains msg "insufficient fee" ->
       contains msg "insufficient balance" -> tag = "InsufficientBalance")
   /\ (~ contains msg "insufficient fee" ->
       ~ contains msg "insufficient balance" ->
       contains msg "contract not found" -> tag = "ContractNotFound")
   /\ (~ contains msg "insufficient fee" ->
       ~ contains msg "insufficient balance" ->
       ~ contains msg "contract not found" ->
       contains msg "method not found" -> tag = "MethodNotFound")
   /\ (~ contains msg "insufficient fee" ->
       ~ contains msg "insufficient balance" ->
       ~ contains msg "contract not found" ->
       ~ contains msg "method not found" ->
       contains msg "invalid argument" -> tag = "InvalidArgument")
   /\ (~ contains msg "insufficient fee" ->
       ~ contains msg "insufficient balance" ->
       ~ contains msg "contract not found" ->
       ~ contains msg "method not found" ->
       ~ contains msg "invalid argument" -> tag = "SimulationError"))
  /\ (msg = "" -> result = None -> tag = "SimulationError").
Proof.
  intros tag. subst tag. split.
  - intros Hne. destruct msg as [|c msg]; [congruence|].
    cbn [parseSimulationError].
    set (m := String c msg) in *.
    decide_includes m "insufficient fee";
      [repeat split; intros; solve [reflexivity | contradiction]|].
    decide_includes m "insufficient balance";
      [repeat split; intros; solve [reflexivity | contradiction]|].
    decide_includes m "contract not found";
      [repeat split; intros; solve [reflexivity | contradiction]|].
    decide_includes m "method not found";
      [repeat split; intros; solve [reflexivity | contradiction]|].
    decide_includes m "invalid argument";
      repeat split; intros; solve [reflexivity | contradiction].
  - intros -> ->. reflexivity.
Qed.

End Classification.

Lemma parseSimulationError_classification_witness :
  type (parseSimulationError (P := Reference.platform)
          (Some "simulation: insufficient fee") None)
  = "InsufficientFee".
Proof.
  apply (parseSimulationError_classification (P := Reference.platform)
           "simulation: insufficient fee" None).
  - discriminate.
  - exists "simulation: ", "". reflexivity.
Defined.

(** C7 as stated does not hold: a message that contains "insufficient
    balance" after "insufficient fee" is an InsufficientFee error, and an
    empty message, which contains none of the phrases, is classified by the
    result payload. *)
Lemma classification_counterexample :
  let msg := "insufficient fee, insufficient balance" in
  contains msg "insufficient balance"
  /\ type (parseSimulationError (P := Reference.platform) (Some msg) None)
     = "InsufficientFee"
  /\ type (parseSimulationError (P := Reference.platform) (Some "")
             (Some (scvU32 1)))
     = "ContractPanic".
Proof.
  repeat split. exists "insufficient fee, ", "". reflexivity.
Qed.

End ErrorParserProperties.

(* ===================================================================== *)
(** * Properties of the codec *)
(* ===================================================================== *)

Section TraversalFacts.
Context {A B : Type}.

Lemma mapM_Forall2 (f : A -> Result B) (xs : list A) (ys : list B) :
  mapM f xs = Ok ys <-> Forall2 (fun x y => f x = Ok y) xs ys.
Proof.
  revert ys; induction xs as [|x xs IH]; intros ys; simpl.
  - split.
    + intros H; injection H as <-; constructor.
    + intros H; inversion H; reflexivity.
  - split.
    + destruct (f x) as [y|e] eqn:Ex; simpl; [|discriminate].
      destruct (mapM f xs) as [ys'|e] eqn:Exs; simpl; [|discriminate].
      intros H; injection H as <-. constructor; [exact Ex|].
      now apply IH.
    + intros H; inversion H as [|x' y xs' ys' Hx Hxs]; subst.
      rewrite Hx; simpl. apply IH in Hxs. now rewrite Hxs.
Qed.

Lemma mapM_length (f : A -> Result B) (xs : list A) (ys : list B) :
  mapM f xs = Ok ys -> List.length ys = List.length xs.
Proof.
  intros H. apply mapM_Forall2 in H.
  symmetry. eapply Forall2_length; eassumption.
Qed.

Lemma mapMi_ignore (f : A -> Result B) (i : nat) (xs : list A) :
  mapMi (fun x _ => f x) i xs = mapM f xs.
Proof.
  revert i; induction xs as [|x xs IH]; intros i; simpl; [reflexivity|].
  now rewrite IH.
Qed.
End TraversalFacts.

Section CodecProperties.
Import ScValConverter.

(** A number that fits a signed 32-bit integer. *)
Definition narrow32 (x : float) : bool :=
  Number_isInteger x
  && PrimFloat.leb (-2147483648)%float x && PrimFloat.leb x 2147483647%float.

Section Encoding.
Context {P : Platform}.

(** C6 (unhinted numbers), as the code has it.  Every integral number,
    narrow or wide, encodes as an [i32] wire value that holds the number as
    it is; a number that is not integral goes through [ScInt] and its
    [toI64], and what that returns is wrapped as an [i64] wire value. *)
Theorem toScVal_number (x : float) :
  (Number_isInteger x = true -> toScVal (JNumber x) None = Ok (scvI32 x))
  /\ (Number_isInteger x = false ->
      (forall n, ScInt_convert I64 (JNumber x) = Ok n ->
                 toScVal (JNumber x) None = Ok (scvI64 n))
      /\ (forall e, ScInt_convert I64 (JNumber x) = Throw e ->
                    toScVal (JNumber x) None = Throw e)).
Proof.
  unfold toScVal; cbn [isNullish toScValAuto]. split.
  - intros ->. reflexivity.
  - intros ->. split; intros ? ->; reflexivity.
Qed.

(** The hint the argument at [index] is encoded with. *)
Definition hintAt (types : option (list ScType)) (index : nat)
  : option ScType :=
  match types with
  | Some ts => nth_error ts index
  | None => None
  end.

Lemma mapMi_hints (args : list JsVal) :
  forall (done ts : list ScType),
    List.length ts = List.length args ->
    mapMi (fun arg index => toScVal arg (nth_error (done ++ ts) index))
          (List.length done) args
    = mapM (fun ah => toScVal (fst ah) (Some (snd ah))) (combine args ts).
Proof.
  induction args as [|a args IH]; intros done ts Hlen.
  - reflexivity.
  - destruct ts as [|t ts]; [discriminate|]. cbn [mapMi combine mapM fst snd].
    rewrite nth_error_app2 by lia. rewrite Nat.sub_diag. cbn [nth_error].
    specialize (IH (done ++ [t])%list ts).
    rewrite <- app_assoc, length_app in IH. cbn [List.length app] in IH.
    rewrite Nat.add_1_r in IH. rewrite IH by (simpl in Hlen; lia).
    reflexivity.
Qed.

(** C8 (argument lists), as the code has it.  With a hint list of another
    length than the argument list [encodeArgs] throws the count-mismatch
    error.  With a hint list of the same length, or without one, it encodes
    the arguments in order, each with its hint: it returns one wire value
    per argument when every argument encodes, and otherwise throws what the
    first failing argument throws. *)
Theorem encodeArgs_spec (args : list JsVal) :
  (forall ts, List.length ts <> List.length args ->
     encodeArgs args (Some ts)
     = Throw (Error "Number of types must match number of arguments"))
  /\ (forall ts, List.length ts = List.length args ->
        encodeArgs args (Some ts)
        = mapM (fun ah => toScVal (fst ah) (Some (snd ah))) (combine args ts))
  /\ encodeArgs args None = mapM (fun a => toScVal a None) args
  /\ (forall ts ws, List.length ts = List.length args ->
        Forall2 (fun ah w => toScVal (fst ah) (Some (snd ah)) = Ok w)
                (combine args ts) ws ->
        encodeArgs args (Some ts) = Ok ws /\ List.length ws = List.length args)
  /\ (forall ws, Forall2 (fun a w => toScVal a None = Ok w) args ws ->
        encodeArgs args None = Ok ws /\ List.length ws = List.length args).
Proof.
  assert (Hsome : forall ts, List.length ts = List.length args ->
            encodeArgs args (Some ts)
            = mapM (fun ah => toScVal (fst ah) (Some (snd ah)))
                   (combine args ts)).
  { intros ts Hlen. unfold encodeArgs.
    rewrite (proj2 (Nat.eqb_eq _ _) Hlen). cbn [negb].
    exact (mapMi_hints args [] ts Hlen). }
  assert (Hnone : encodeArgs args None = mapM (fun a => toScVal a None) args).
  { unfold encodeArgs. apply mapMi_ignore. }
  repeat split.
  - intros ts Hlen. unfold encodeArgs.
    rewrite (proj2 (Nat.eqb_neq _ _) Hlen). reflexivity.
  - exact Hsome.
  - exact Hnone.
  - rewrite Hsome by assumption. now apply mapM_Forall2.
  - apply Forall2_length in H0. rewrite length_combine in H0. lia.
  - rewrite Hnone. now apply mapM_Forall2.
  - apply Forall2_length in H. lia.
Qed.

End Encoding.

Lemma toScVal_number_witness :
  toScVal (P := Reference.platform) (JNumber 42) None = Ok (scvI32 42).
Proof.
  apply (toScVal_number (P := Reference.platform) 42). reflexivity.
Defined.

(** C6 as stated does not hold: 2^40 is integral and does not fit 32 bits,
    and it encodes as an [i32] wire value. *)
Lemma wide_integer_counterexample :
  let x := 1099511627776%float in
  Number_isInteger x = true /\ narrow32 x = false
  /\ toScVal (P := Reference.platform) (JNumber x) None = Ok (scvI32 x).
Proof. repeat split. Qed.

Lemma encodeArgs_spec_witness :
  encodeArgs (P := Reference.platform) [JNumber 1; JNumber 2]
             (Some [T_u32; T_u64])
  = Ok [scvU32 1; scvU64 2]
  /\ encodeArgs (P := Reference.platform) [JNumber 1; JNumber 2]
                (Some [T_u32])
     = Throw (Error "Number of types must match number of arguments").
Proof.
  destruct (encodeArgs_spec (P := Reference.platform) [JNumber 1; JNumber 2])
    as [Hbad [_ [_ [Hgood _]]]].
  split.
  - apply (Hgood [T_u32; T_u64] [scvU32 1; scvU64 2]); [reflexivity|].
    repeat constructor.
  - apply Hbad. simpl. lia.
Defined.

(** C8 as stated does not hold: with one argument and one hint the lengths
    agree, and [encodeArgs] throws what the argument's encoding throws. *)
Lemma encodeArgs_counterexample :
  List.length [T_vec] = List.length [JString "x"]
  /\ encodeArgs (P := Reference.platform) [JString "x"] (Some [T_vec])
     = Throw (Error "Expected array for vec type").
Proof. split; reflexivity. Qed.

(** ** Round trip *)

(** [fromScVal(toScVal(v))] *)
Definition roundTrip {P : Platform} (v : JsVal) : Result JsVal :=
  scVal <- toScVal v None ;; fromScVal scVal.

(** A key as an ES Map or Set holds it: not [-0]. *)
Definition storedKey (k : JsVal) : bool :=
  match k with
  | JNumber x => negb (isNegativeZero x)
  | _ => true
  end.

(** What the lookup of the label [xdr.ScValType.scvF32()] throws. *)
Definition noF32 : Exn := TypeError "xdr.ScValType.scvF32 is not a function".

(** What the call [scVal.bool()] throws. *)
Definition noBool : Exn := TypeError "scVal.bool is not a function".

Section RoundTrip.
Context {P : Platform}.

Lemma toScVal_unhinted (v : JsVal) : toScVal v None = toScValAuto v.
Proof. destruct v; reflexivity. Qed.

Lemma storedKey_normKey (k : JsVal) : storedKey k = true -> normKey k = k.
Proof.
  destruct k; try reflexivity. simpl.
  destruct (isNegativeZero x); [discriminate | reflexivity].
Qed.

(** How far the switch of [fromScVal] gets: the clauses up to [scvI256] are
    reached; for every other tag the label [xdr.ScValType.scvF32()] is
    evaluated first and throws. *)
Lemma fromScVal_reach (w : ScVal) :
  fromScVal w
  = match w with
    | scvVoid => Ok JNull
    | scvBool _ => Throw noBool
    | scvU32 x | scvI32 x => Ok (JNumber x)
    | scvU64 n | scvI64 n | scvU128 n | scvI128 n | scvU256 n | scvI256 n =>
        z <- ScInt_toBigInt n ;; Ok (JBigInt z)
    | _ => Throw noF32
    end.
Proof. destruct w; reflexivity. Qed.

Lemma stringToScVal_decode (s : string) :
  fromScVal (stringToScVal s) = Throw noF32.
Proof.
  unfold stringToScVal.
  destruct (String.prefix "G" s && (Z.of_nat (String.length s) =? 56));
    [destruct (Address_new s)|]; reflexivity.
Qed.

(** C1 (round trip), on the code.  The decoder calls members the SDK does
    not have, so the round trip throws a TypeError where the claim promises
    the value: for every boolean ([scVal.bool()]), and for every string,
    byte buffer, array and Map, empty ones too, whose tag comes after
    [scvI256] in the switch of [fromScVal], so that the label
    [xdr.ScValType.scvF32()] is evaluated before their clause is reached.
    Only [null] and the integral numbers, 0 and negative ones among them,
    come back. *)
Theorem roundTrip_breaks :
  (forall b, roundTrip (JBool b) = Throw noBool)
  /\ (forall s, roundTrip (JString s) = Throw noF32)
  /\ (forall bytes, roundTrip (JBuffer bytes) = Throw noF32)
  /\ (forall items,
        roundTrip (JArray items)
        = match mapM toScValAuto items with
          | Ok _ => Throw noF32
          | Throw e => Throw e
          end)
  /\ (forall entries,
        roundTrip (JMap entries)
        = match mapEntriesM toScValAuto toScValAuto entries with
          | Ok _ => Throw noF32
          | Throw e => Throw e
          end)
  /\ roundTrip (JArray []) = Throw noF32
  /\ roundTrip (JMap []) = Throw noF32
  /\ roundTrip (JArray [JArray [JNumber 1]]) = Throw noF32
  /\ roundTrip JNull = Ok JNull
  /\ roundTrip (JNumber 0) = Ok (JNumber 0)
  /\ roundTrip (JNumber (-5)) = Ok (JNumber (-5)).
Proof.
  unfold roundTrip.
  split; [reflexivity|].
  split; [intros s; rewrite toScVal_unhinted; apply stringToScVal_decode|].
  split; [reflexivity|].
  split; [intros items; rewrite toScVal_unhinted; cbn [toScValAuto];
          now destruct (mapM toScValAuto items)|].
  split; [intros entries; rewrite toScVal_unhinted; cbn [toScValAuto];
          now destruct (mapEntriesM toScValAuto toScValAuto entries)|].
  repeat split.
Qed.

End RoundTrip.

(** ** Hints *)








Section Hints.
Context {P : Platform}.


End Hints.



End CodecProperties.

(* ===================================================================== *)
(** * Properties of the event monitor *)
(* ===================================================================== *)

Section StringMapFacts.
Context {V : Type}.

Lemma SMap_get_set (m : list (string * V)) (k : string) (v : V) :
  SMap_get (SMap_set m k v) k = Some v.
Proof.
  induction m as [|[k' v'] m IH]; simpl.
  - now rewrite String.eqb_refl.
  - destruct (String.eqb k' k) eqn:E; simpl; rewrite E; [reflexivity|exact IH].
Qed.

Lemma SMap_get_In (m : list (string * V)) (k : string) (v : V) :
  SMap_get m k = Some v -> In v (SMap_values m).
Proof.
  induction m as [|[k' v'] m IH]; simpl; [discriminate|].
  destruct (String.eqb k' k).
  - intros H; injection H as ->. now left.
  - intros H. right. now apply IH.
Qed.
End StringMapFacts.

Section MonitorProperties.
Import ContractEventMonitor.

(** The [getEvents] requests in a log, in order. *)
Definition queries (log : list Effect) : list GetEventsRequest :=
  flat_map (fun e => match e with CallGetEvents r => [r] | _ => [] end) log.

(** The timers started in a log. *)
Definition timersStarted (log : list Effect) : list string :=
  flat_map (fun e => match e with SetInterval i => [i] | _ => [] end) log.

(** Every [onEvent] call for these events returns. *)
Definition callbacksReturn (sub : EventSubscription) (events : list RpcEvent)
  : bool :=
  forallb (fun ev => isOk (onEvent sub (convertRpcEventToDetail ev))) events.

(** One poll of a subscription on a monitor. *)
Definition poll (server : Server) (subscriptionId : string) (m : Monitor)
  : Result unit * (Monitor * list Effect) :=
  run (pollForEvents server subscriptionId) m.

Definition monitorAfter {A} (r : Result A * (Monitor * list Effect)) : Monitor :=
  fst (snd r).

Definition logOf {A} (r : Result A * (Monitor * list Effect)) : list Effect :=
  snd (snd r).

(** The request a poll makes for a subscription when it sees [current]. *)
Definition requestFor (sub : EventSubscription) (m : Monitor) (current : Z)
  : GetEventsRequest :=
  mkRequest (lastLedger m + 1) current [sub_contractId sub] (eventTypes sub).

Lemma queries_app (l1 l2 : list Effect) :
  queries (l1 ++ l2) = (queries l1 ++ queries l2)%list.
Proof. apply flat_map_app. Qed.

Ltac eff :=
  unfold this, emit, update, callIfPresent, tryCatch, ebind, get, modify,
    lift, ret, throw;
  cbn [fst snd app].

(** The delivery loop leaves the monitor alone and makes no request; it
    returns when every callback returns. *)
Lemma deliver_spec (sub : EventSubscription) (events : list RpcEvent) :
  forall (m : Monitor) (log : list Effect),
  exists r log',
    deliver sub events (m, log) = (r, (m, (log ++ log')%list))
    /\ queries log' = []
    /\ (callbacksReturn sub events = true -> r = Ok tt).
Proof.
  induction events as [|ev events IH]; intros m log; cbn [deliver].
  - exists (Ok tt), []. rewrite app_nil_r. repeat split.
  - eff. cbn [callbacksReturn forallb].
    destruct (onEvent sub (convertRpcEventToDetail ev)) as [[]|e]; cbn [isOk].
    + destruct (IH m (log ++ [CallOnEvent (id sub) (convertRpcEventToDetail ev)])%list)
        as [r [log' [Hd [Hq Hr]]]].
      exists r, (CallOnEvent (id sub) (convertRpcEventToDetail ev) :: log').
      rewrite Hd, <- app_assoc. repeat split; auto.
    + exists (Throw e), [CallOnEvent (id sub) (convertRpcEventToDetail ev)].
      repeat split. discriminate.
Qed.

Section OnePoll.
Variables (server : Server) (subscriptionId : string)
          (sub : EventSubscription) (m : Monitor).
Hypothesis registered : SMap_get (subscriptions m) subscriptionId = Some sub.

(** A poll that sees no new ledger makes no request and changes nothing. *)
Lemma poll_no_new_ledger (current : Z) :
  getLatestLedger server = Ok current -> current <= lastLedger m ->
  poll server subscriptionId m = (Ok tt, (m, [CallGetLatestLedger])).
Proof.
  intros Hl Hle. unfold poll, run, pollForEvents. eff.
  rewrite registered. eff. rewrite Hl.
  now rewrite (proj2 (Z.leb_le _ _) Hle).
Qed.

(** A poll that sees a new ledger makes exactly one request, over the
    ledgers after the cursor up to the one seen, and leaves the monitor as
    it is or moves the cursor to the ledger seen. *)
Lemma poll_new_ledger (current : Z) :
  getLatestLedger server = Ok current -> lastLedger m < current ->
  queries (logOf (poll server subscriptionId m)) = [requestFor sub m current]
  /\ (monitorAfter (poll server subscriptionId m) = m
      \/ monitorAfter (poll server subscriptionId m)
         = set_lastLedger current m).
Proof.
  intros Hl Hlt. unfold poll, run, pollForEvents. eff.
  rewrite registered. eff. rewrite Hl.
  rewrite (proj2 (Z.leb_gt _ _) Hlt). eff.
  fold (requestFor sub m current).
  destruct (getEvents server (requestFor sub m current)) as [events|e].
  - destruct (deliver_spec sub events m
                [CallGetLatestLedger; CallGetEvents (requestFor sub m current)])
      as [r [log' [Hd [Hq _]]]].
    rewrite Hd. destruct r as [[]|e]; unfold logOf, monitorAfter; cbn [fst snd].
    + split; [|now right]. rewrite queries_app, Hq. reflexivity.
    + split; [|now left]. rewrite !queries_app, Hq. reflexivity.
  - unfold logOf, monitorAfter; cbn [fst snd]. split; [reflexivity|now left].
Qed.

(** When the request succeeds and the callbacks return, the cursor is the
    ledger seen. *)
Lemma poll_advances (current : Z) (events : list RpcEvent) :
  getLatestLedger server = Ok current -> lastLedger m < current ->
  getEvents server (requestFor sub m current) = Ok events ->
  callbacksReturn sub events = true ->
  monitorAfter (poll server subscriptionId m) = set_lastLedger current m.
Proof.
  intros Hl Hlt He Hcb. unfold poll, run, pollForEvents. eff.
  rewrite registered. eff. rewrite Hl.
  rewrite (proj2 (Z.leb_gt _ _) Hlt). eff.
  fold (requestFor sub m current). rewrite He.
  destruct (deliver_spec sub events m
              [CallGetLatestLedger; CallGetEvents (requestFor sub m current)])
    as [r [log' [Hd [_ Hr]]]].
  rewrite Hd, (Hr Hcb). reflexivity.
Qed.

End OnePoll.

Lemma monitorAfter_poll_subscriptions (server : Server) (i : string)
    (m : Monitor) (sub : EventSubscription) (current : Z) :
  SMap_get (subscriptions m) i = Some sub ->
  getLatestLedger server = Ok current ->
  subscriptions (monitorAfter (poll server i m)) = subscriptions m.
Proof.
  intros Hreg Hl. destruct (Z_le_gt_dec current (lastLedger m)) as [Hle|Hgt].
  - now rewrite (poll_no_new_ledger server i sub m Hreg current Hl Hle).
  - destruct (poll_new_ledger server i sub m Hreg current Hl) as [_ [-> | ->]];
      [lia | reflexivity | reflexivity].
Qed.

(** C5 (polling cursor), as the code has it.  For a registered
    subscription: a poll that sees a ledger not after the cursor makes no
    event query and leaves the monitor as it is; a poll that sees a later
    ledger makes exactly one query, from the cursor plus one to the ledger
    seen; when that query succeeds and every [onEvent] call returns, with
    zero events too, the cursor becomes the ledger seen.  So for polls that
    see 100, 100 and 150, the first one completing with the cursor at most
    100 before it, the second makes no query and the third makes the one
    query for ledgers 101 to 150. *)
Theorem polling_cursor (subscriptionId : string) (sub : EventSubscription)
    (m : Monitor) :
  SMap_get (subscriptions m) subscriptionId = Some sub ->
  (forall server current,
     getLatestLedger server = Ok current -> current <= lastLedger m ->
     queries (logOf (poll server subscriptionId m)) = []
     /\ monitorAfter (poll server subscriptionId m) = m)
  /\ (forall server current,
        getLatestLedger server = Ok current -> lastLedger m < current ->
        queries (logOf (poll server subscriptionId m))
        = [mkRequest (lastLedger m + 1) current [sub_contractId sub]
                     (eventTypes sub)])
  /\ (forall server current events,
        getLatestLedger server = Ok current -> lastLedger m < current ->
        getEvents server (requestFor sub m current) = Ok events ->
        callbacksReturn sub events = true ->
        lastLedger (monitorAfter (poll server subscriptionId m)) = current)
  /\ (forall server current,
        getLatestLedger server = Ok current -> lastLedger m < current ->
        getEvents server (requestFor sub m current) = Ok [] ->
        lastLedger (monitorAfter (poll server subscriptionId m)) = current)
  /\ (forall s1 s2 s3,
        lastLedger m <= 100 ->
        getLatestLedger s1 = Ok 100 -> getLatestLedger s2 = Ok 100 ->
        getLatestLedger s3 = Ok 150 ->
        (forall request, exists events,
            getEvents s1 request = Ok events
            /\ callbacksReturn sub events = true) ->
        let m1 := monitorAfter (poll s1 subscriptionId m) in
        let m2 := monitorAfter (poll s2 subscriptionId m1) in
        lastLedger m1 = 100
        /\ queries (logOf (poll s2 subscriptionId m1)) = [] /\ m2 = m1
        /\ queries (logOf (poll s3 subscriptionId m2))
           = [mkRequest 101 150 [sub_contractId sub] (eventTypes sub)]).
Proof.
  intros Hreg. split; [|split; [|split; [|split]]].
  - intros server current Hl Hle.
    now rewrite (poll_no_new_ledger server _ sub m Hreg current Hl Hle).
  - intros server current Hl Hlt.
    now destruct (poll_new_ledger server _ sub m Hreg current Hl Hlt).
  - intros server current events Hl Hlt He Hcb.
    now rewrite (poll_advances server _ sub m Hreg current events Hl Hlt He Hcb).
  - intros server current Hl Hlt He.
    now rewrite (poll_advances server _ sub m Hreg current [] Hl Hlt He eq_refl).
  - intros s1 s2 s3 Hm H1 H2 H3 Hdeliver m1 m2.
    assert (Hreg1 : SMap_get (subscriptions m1) subscriptionId = Some sub).
    { subst m1.
      now rewrite (monitorAfter_poll_subscriptions s1 _ m sub 100 Hreg H1). }
    assert (Hm1 : lastLedger m1 = 100).
    { subst m1. destruct (Z.eq_dec (lastLedger m) 100) as [Heq|Hne].
      - rewrite (poll_no_new_ledger s1 _ sub m Hreg 100 H1) by lia. exact Heq.
      - destruct (Hdeliver (requestFor sub m 100)) as [events [He Hcb]].
        rewrite (poll_advances s1 _ sub m Hreg 100 events H1) by (auto; lia).
        reflexivity. }
    assert (Hpoll2 : poll s2 subscriptionId m1
                     = (Ok tt, (m1, [CallGetLatestLedger]))).
    { apply (poll_no_new_ledger s2 _ sub m1 Hreg1 100 H2). lia. }
    assert (Hm2 : m2 = m1) by (subst m2; now rewrite Hpoll2).
    repeat split; [exact Hm1 | now rewrite Hpoll2 | exact Hm2 |].
    rewrite Hm2.
    destruct (poll_new_ledger s3 _ sub m1 Hreg1 150 H3) as [Hq _]; [lia|].
    rewrite Hq. unfold requestFor. now rewrite Hm1.
Qed.

(** C9 (shared cursor).  The cursor is the one field [lastLedger] of the
    monitor: a subscribe that succeeds sets it to the ledger it fetched,
    whatever it was for the subscriptions already there; and after a poll
    of one subscription has succeeded at a ledger, the poll of another
    subscription that sees this ledger makes no query, so the second
    subscription never asks for the ledgers the first one moved over. *)
Theorem shared_cursor (m : Monitor) :
  (forall server clock sub current,
     getLatestLedger server = Ok current ->
     let r := run (subscribeToEvents server clock sub) m in
     fst r = Ok (generateSubscriptionId clock (sub_contractId sub))
     /\ lastLedger (monitorAfter r) = current)
  /\ (forall server id1 id2 sub1 sub2 current events,
        SMap_get (subscriptions m) id1 = Some sub1 ->
        SMap_get (subscriptions m) id2 = Some sub2 ->
        getLatestLedger server = Ok current -> lastLedger m < current ->
        getEvents server (requestFor sub1 m current) = Ok events ->
        callbacksReturn sub1 events = true ->
        let m1 := monitorAfter (poll server id1 m) in
        lastLedger m1 = current
        /\ poll server id2 m1 = (Ok tt, (m1, [CallGetLatestLedger]))).
Proof.
  split.
  - intros server clock sub current Hl.
    unfold run, subscribeToEvents, startPolling. eff. rewrite Hl.
    cbn [fst snd app subscriptions set_subscriptions set_lastLedger].
    rewrite SMap_get_set. split; reflexivity.
  - intros server id1 id2 sub1 sub2 current events H1 H2 Hl Hlt He Hcb m1.
    assert (Hm1 : m1 = set_lastLedger current m).
    { subst m1.
      apply (poll_advances server id1 sub1 m H1 current events Hl Hlt He Hcb). }
    rewrite Hm1. split; [reflexivity|].
    apply (poll_no_new_ledger server id2 sub2 (set_lastLedger current m) H2
             current Hl).
    simpl. lia.
Qed.

(** C10 (subscribe on failure), as the code has it.  When the first fetch
    of the latest ledger fails, the entry put in the registry before it is
    still there and [getSubscriptions] returns it, no timer has been
    started, the error has been given to [onError] when there is one, and
    the caller gets the error, unless [onError] throws, in which case the
    caller gets what [onError] threw. *)
Theorem subscribe_failure (server : Server) (clock : Clock)
    (sub : EventSubscription) (m : Monitor) (error : Exn) :
  getLatestLedger server = Throw error ->
  let subscriptionId := generateSubscriptionId clock (sub_contractId sub) in
  let entry :=
    mkSubscription subscriptionId (sub_contractId sub) (eventTypes sub)
                   (onEvent sub) (onError sub) (onClose sub) in
  let r := run (subscribeToEvents server clock sub) m in
  SMap_get (subscriptions (monitorAfter r)) subscriptionId = Some entry
  /\ In entry (getSubscriptions (monitorAfter r))
  /\ pollingIntervals (monitorAfter r) = pollingIntervals m
  /\ timersStarted (logOf r) = []
  /\ match onError sub with
     | None => logOf r = [CallGetLatestLedger] /\ fst r = Throw error
     | Some handler =>
         logOf r = [CallGetLatestLedger; CallOnError (id sub) error]
         /\ fst r = match handler error with
                    | Ok _ => Throw error
                    | Throw thrown => Throw thrown
                    end
     end.
Proof.
  intros Hl subscriptionId entry r.
  assert (Hget : SMap_get (subscriptions (monitorAfter r)) subscriptionId
                 = Some entry).
  { subst r. unfold run, subscribeToEvents. eff. rewrite Hl.
    destruct (onError sub) as [handler|]; eff;
      [destruct (handler error) as [[]|thrown]|];
      unfold monitorAfter; cbn [fst snd subscriptions set_subscriptions];
      apply SMap_get_set. }
  split; [exact Hget|]. split; [now apply SMap_get_In with subscriptionId|].
  subst r. unfold run, subscribeToEvents. eff. rewrite Hl.
  destruct (onError sub) as [handler|]; eff;
    [destruct (handler error) as [[]|thrown]|]; repeat split.
Qed.

End MonitorProperties.

(** Fixtures for running the monitor. *)
Module MonitorExamples.
Import ContractEventMonitor.

Definition quiet (name contract : string) : EventSubscription :=
  mkSubscription name contract None (fun _ => Ok tt) None None.

(** A subscription whose [onEvent] throws. *)
Definition throwing : EventSubscription :=
  mkSubscription "sub-1" "CA" None (fun _ => Throw (Error "boom")) None None.

(** A subscription whose [onError] throws. *)
Definition badHandler : EventSubscription :=
  mkSubscription "" "CA" None (fun _ => Ok tt)
                 (Some (fun _ => Throw (Error "handler failed"))) None.

Definition anEvent : RpcEvent :=
  mkRpcEvent (Some "CA") "contract" (Some []) (Some scvVoid) (Some 1700000000)
             (Some 120) (Some "tx1").

(** A server at ledger [current] that answers every query with [events]. *)
Definition serverAt (current : Z) (events : list RpcEvent) : Server :=
  mkServer (Ok current) (fun _ => Ok events).

Definition down : Server :=
  mkServer (Throw (Error "Network error")) (fun _ => Ok []).

Definition clock : Clock := mkClock 1700000000000 "k3j9x0a1b".

Definition oneSubscription (sub : EventSubscription) (cursor : Z) : Monitor :=
  mkMonitor [(id sub, sub)] [(id sub, sub)] cursor.

Definition twoSubscriptions (cursor : Z) : Monitor :=
  mkMonitor [("sub-1", quiet "sub-1" "CA"); ("sub-2", quiet "sub-2" "CB")]
            [("sub-1", quiet "sub-1" "CA"); ("sub-2", quiet "sub-2" "CB")]
            cursor.

End MonitorExamples.

Section MonitorWitnesses.
Import ContractEventMonitor MonitorExamples.

Lemma polling_cursor_witness :
  let sub := quiet "sub-1" "CA" in
  let m := oneSubscription sub 90 in
  let m1 := monitorAfter (poll (serverAt 100 [anEvent]) "sub-1" m) in
  let m2 := monitorAfter (poll (serverAt 100 []) "sub-1" m1) in
  lastLedger m1 = 100
  /\ queries (logOf (poll (serverAt 100 []) "sub-1" m1)) = [] /\ m2 = m1
  /\ queries (logOf (poll (serverAt 150 []) "sub-1" m2))
     = [mkRequest 101 150 ["CA"] None].
Proof.
  intros sub m.
  assert (Hreg : SMap_get (subscriptions m) "sub-1" = Some sub)
    by reflexivity.
  assert (Hcursor : lastLedger m <= 100) by (simpl; lia).
  destruct (polling_cursor "sub-1" sub m Hreg) as [_ [_ [_ [_ Hscenario]]]].
  apply (Hscenario (serverAt 100 [anEvent]) (serverAt 100 [])
                   (serverAt 150 []) Hcursor eq_refl eq_refl eq_refl).
  intros request. exists [anEvent]. split; reflexivity.
Defined.

(** C5 as stated does not hold: the query of this poll succeeds and
    returns one event, the [onEvent] call throws, and the cursor stays at
    100 instead of moving to 150, so that the next poll asks for the
    ledgers 101 to 150 again. *)
Lemma polling_cursor_counterexample :
  let m := oneSubscription throwing 100 in
  let server := serverAt 150 [anEvent] in
  let r := poll server "sub-1" m in
  getEvents server (requestFor throwing m 150) = Ok [anEvent]
  /\ queries (logOf r) = [mkRequest 101 150 ["CA"] None]
  /\ lastLedger (monitorAfter r) = 100
  /\ queries (logOf (poll server "sub-1" (monitorAfter r)))
     = [mkRequest 101 150 ["CA"] None].
Proof. repeat split. Qed.

Lemma shared_cursor_witness :
  let m := twoSubscriptions 100 in
  let server := serverAt 150 [anEvent] in
  let m1 := monitorAfter (poll server "sub-1" m) in
  lastLedger m1 = 150
  /\ poll server "sub-2" m1 = (Ok tt, (m1, [CallGetLatestLedger])).
Proof.
  intros m server.
  destruct (shared_cursor m) as [_ Hpoll].
  assert (Hlt : lastLedger m < 150) by (simpl; lia).
  apply (Hpoll server "sub-1" "sub-2" (quiet "sub-1" "CA") (quiet "sub-2" "CB")
               150 [anEvent] eq_refl eq_refl eq_refl Hlt eq_refl eq_refl).
Defined.

Lemma subscribe_failure_witness :
  let r := run (subscribeToEvents down clock (quiet "" "CABCDEFGHIJK")) create in
  List.length (getSubscriptions (monitorAfter r)) = 1%nat
  /\ pollingIntervals (monitorAfter r) = []
  /\ fst r = Throw (Error "Network error").
Proof.
  intros r.
  destruct (subscribe_failure down clock (quiet "" "CABCDEFGHIJK") create
              (Error "Network error") eq_refl)
    as [_ [_ [Htimers [_ [_ Hthrown]]]]].
  split; [reflexivity|]. split; [exact Htimers | exact Hthrown].
Defined.

(** C10 as stated does not hold: the fetch fails with "Network error",
    [onError] is called with it and throws, and the caller gets what
    [onError] threw instead of the error of the fetch. *)
Lemma subscribe_failure_counterexample :
  let r := run (subscribeToEvents down clock badHandler) create in
  getLatestLedger down = Throw (Error "Network error")
  /\ logOf r = [CallGetLatestLedger; CallOnError "" (Error "Network error")]
  /\ fst r = Throw (Error "handler failed")
  /\ fst r <> Throw (Error "Network error").
Proof. repeat split. discriminate. Qed.

End MonitorWitnesses.

(* ===================================================================== *)
(** * Properties of the invocation pipeline *)
(* ===================================================================== *)

Section ManagerProperties.
Import SorobanContractManager.

(** The call is a submit ([sendTransaction]) or a poll ([getTransaction]). *)
Definition isSubmitOrPoll (c : RpcCall) : bool :=
  match c with
  | CallSendTransaction _ | CallGetTransaction _ => true
  | CallGetAccount _ | CallSimulateTransaction _ => false
  end.

(** [simulateOnly] is set to [true]. *)
Definition simulateOnlyRequested (params : ContractInvocationParams) : Prop :=
  simulateOnly params = Some true.

Section Pipeline.
Context {P : Platform}.
Variables (server : Server) (params : ContractInvocationParams).
Hypothesis requested : simulateOnlyRequested params.

Ltac step :=
  unfold call, tryCatch, ebind, modify, lift, ret, throw; cbn [fst snd app].

(** With [simulateOnly] the pipeline makes no submit and no poll call,
    whatever the server answers. *)
Lemma simulateOnly_never_submits :
  existsb isSubmitOrPoll (snd (run (invokeContract server params))) = false.
Proof.
  unfold run, invokeContract. step.
  destruct (getAccount server _) as [account|e]; [|reflexivity].
  destruct (Contract_new _) as [contract|e]; [|reflexivity].
  destruct (ScValConverter.encodeArgs _ _) as [scArgs|e]; [|reflexivity].
  destruct (simulateTransaction server _) as [simulation|e]; [|reflexivity].
  destruct (sim_success simulation); [|reflexivity]. cbn [negb].
  rewrite requested.
  destruct (convertSimulationToResult simulation); reflexivity.
Qed.

(** With [simulateOnly], a result that is returned has an empty transaction
    hash and ledger 0. *)
Lemma simulateOnly_result (r : InvocationResult) (log : list RpcCall) :
  run (invokeContract server params) = (Ok r, log) ->
  transactionHash r = "" /\ ledger r = 0.
Proof.
  unfold run, invokeContract. step.
  destruct (getAccount server _) as [account|e]; [|discriminate].
  destruct (Contract_new _) as [contract|e]; [|discriminate].
  destruct (ScValConverter.encodeArgs _ _) as [scArgs|e]; [|discriminate].
  destruct (simulateTransaction server _) as [simulation|e]; [|discriminate].
  destruct (sim_success simulation); [|discriminate]. cbn [negb].
  rewrite requested. unfold convertSimulationToResult.
  destruct (parseEvents _) as [events|e]; [|discriminate].
  simpl. intros H; injection H as <- _. split; reflexivity.
Qed.

(** With [simulateOnly], a simulation that succeeds and carries a result
    makes [invokeContract] throw. *)
Lemma simulateOnly_throws (account : Account) (contract : string)
    (scArgs : list ScVal) (simulation : SimulateTransactionResponse)
    (value : ScVal) :
  getAccount server (publicKey (caller params)) = Ok account ->
  Contract_new (contractId params) = Ok contract ->
  ScValConverter.encodeArgs (args params) None = Ok scArgs ->
  simulateTransaction server
    (mkTransaction account BASE_FEE (networkPassphrase params) contract
                   (method params) scArgs 30 false [])
  = Ok simulation ->
  sim_success simulation = true ->
  sim_result simulation = Some value ->
  fst (run (invokeContract server params))
  = Throw (Error "Contract invocation failed: meta.v3 is not a function").
Proof.
  intros Ha Hc He Hs Hok Hr. unfold run, invokeContract. step.
  rewrite Ha, Hc, He, Hs, Hok. cbn [negb]. rewrite requested.
  unfold convertSimulationToResult. rewrite Hr. reflexivity.
Qed.

(** With [simulateOnly], a simulation that succeeds and carries no result
    gives a result with an empty hash and ledger 0. *)
Lemma simulateOnly_returns (account : Account) (contract : string)
    (scArgs : list ScVal) (simulation : SimulateTransactionResponse) :
  getAccount server (publicKey (caller params)) = Ok account ->
  Contract_new (contractId params) = Ok contract ->
  ScValConverter.encodeArgs (args params) None = Ok scArgs ->
  simulateTransaction server
    (mkTransaction account BASE_FEE (networkPassphrase params) contract
                   (method params) scArgs 30 false [])
  = Ok simulation ->
  sim_success simulation = true ->
  sim_result simulation = None ->
  fst (run (invokeContract server params))
  = Ok (mkInvocationResult None "" 0 [] []).
Proof.
  intros Ha Hc He Hs Hok Hr. unfold run, invokeContract. step.
  rewrite Ha, Hc, He, Hs, Hok. cbn [negb]. rewrite requested.
  unfold convertSimulationToResult. rewrite Hr. reflexivity.
Qed.

End Pipeline.

(** The request and the server of the test "should simulate only when
    requested" of the repository. *)
Definition testParams : ContractInvocationParams :=
  mkParams "mock-contract-id" "testMethod" []
           (mkKeypair "GDQZ43L2QQ3B5OUP4QKA52L2AKYYG5ZC5LEJ2TFKX2LFDWLXRWERFW53")
           "Test SDF Network ; September 2015" (Some true).

Definition testAccount : Account :=
  mkAccount "GDQZ43L2QQ3B5OUP4QKA52L2AKYYG5ZC5LEJ2TFKX2LFDWLXRWERFW53" "1".

Definition testServer : Server :=
  mkServer
    (fun _ => Ok testAccount)
    (fun _ => Ok (mkSimulation true "null"
                    (Some (scvOther "success" JUndefined))))
    (fun _ => Ok (mkSend "PENDING" "mock-tx-hash"))
    (fun _ => Ok (mkGetTransaction true "mock-result-xdr" None (Some 12345)
                    None)).

(** C3 (simulate-only), on the input of the repository's own test: the
    simulation succeeds, no submit or poll call is made, and
    [invokeContract] does not return a result with an empty hash and
    ledger 0 but throws, because [convertSimulationToResult] hands
    [simulation.result] to [parseEvents], which calls [v3()] on it. *)
Theorem simulateOnly_on_test_input :
  run (invokeContract (P := Reference.mocked) testServer testParams)
  = (Throw (Error "Contract invocation failed: meta.v3 is not a function"),
     [CallGetAccount (publicKey (caller testParams));
      CallSimulateTransaction
        (mkTransaction testAccount BASE_FEE "Test SDF Network ; September 2015"
                       "mock-contract-id" "testMethod" [] 30 false [])]).
Proof. reflexivity. Qed.

End ManagerProperties.

(* ===================================================================== *)
(** * Further properties of the error classifier *)
(* ===================================================================== *)

Section RetryPolicy.
Import ErrorParser.

(** When [shouldRetry] is true. *)
Lemma shouldRetry_true (error : SorobanError) (attemptCount : Z) :
  shouldRetry error attemptCount = true
  <-> In (type error) ["InsufficientFee"; "NetworkError"; "Timeout"]
      /\ attemptCount < 3.
Proof.
  unfold shouldRetry.
  destruct (isRecoverableError error) eqn:Hrec; cbn [negb].
  - apply Array_includes_spec in Hrec.
    destruct (Z.geb_spec attemptCount 3) as [Hge|Hlt].
    + split; [discriminate | intros [_ Hlt]; lia].
    + destruct Hrec as [E|[E|[E|[E|[]]]]]; rewrite <- E; cbn;
        (split;
         [intros Hr; first [discriminate Hr | split; [tauto | lia]]
         |intros [Hin _];
          first [reflexivity
                |destruct Hin as [X|[X|[X|[]]]]; discriminate X]]).
  - split; [discriminate|]. intros [Hin _].
    assert (isRecoverableError error = true) as Hyes.
    { apply Array_includes_spec. cbn in Hin |- *. tauto. }
    congruence.
Qed.

(** X1.  [shouldRetry] is true exactly for an error whose tag is
    InsufficientFee, NetworkError or Timeout at an attempt count below 3.
    Of the two entries of its exclusion list, InsufficientBalance is what
    the test after the recoverability test is for: the tag is recoverable
    and is never retried; ContractNotFound is not recoverable, so the
    exclusion list is not what refuses it. *)
Theorem shouldRetry_iff (error : SorobanError) (attemptCount : Z) :
  (shouldRetry error attemptCount = true
   <-> In (type error) ["InsufficientFee"; "NetworkError"; "Timeout"]
       /\ attemptCount < 3)
  /\ (type error = "InsufficientBalance" ->
      isRecoverableError error = true
      /\ shouldRetry error attemptCount = false)
  /\ (type error = "ContractNotFound" -> isRecoverableError error = false).
Proof.
  split; [apply shouldRetry_true|]. split.
  - intros E. unfold shouldRetry, isRecoverableError. rewrite E. cbn.
    now destruct (attemptCount >=? 3).
  - intros E. unfold isRecoverableError. now rewrite E.
Qed.

Lemma shouldRetry_iff_witness :
  shouldRetry (mkSorobanError "timed out" 0 "Timeout") 2 = true
  /\ shouldRetry (mkSorobanError "Insufficient balance" 4002
                                 "InsufficientBalance") 1 = false.
Proof.
  split.
  - apply (proj1 (shouldRetry_iff (mkSorobanError "timed out" 0 "Timeout")
                    2)).
    split; [right; right; now left | reflexivity].
  - exact (proj2 (proj1 (proj2 (shouldRetry_iff
                                  (mkSorobanError "Insufficient balance" 4002
                                                  "InsufficientBalance") 1))
                          eq_refl)).
Defined.

(** X2.  Whenever [shouldRetry] allows a retry at an attempt count of at
    least 1, the attempt is the first or the second and [getRetryDelay] is
    the base delay of the tag (2 s for a fee error, 5 s for a network error,
    3 s for a timeout) at the first attempt and twice that at the second:
    a delay that is used lies between 2 and 10 seconds. *)
Theorem retry_delay_when_retrying (error : SorobanError) (attemptCount : Z) :
  shouldRetry error attemptCount = true -> 1 <= attemptCount ->
  In (type error, attemptCount, getRetryDelay error attemptCount)
     [("InsufficientFee", 1, 2000%float); ("InsufficientFee", 2, 4000%float);
      ("NetworkError", 1, 5000%float); ("NetworkError", 2, 10000%float);
      ("Timeout", 1, 3000%float); ("Timeout", 2, 6000%float)].
Proof.
  intros Hretry Hge. apply shouldRetry_true in Hretry as [Htype Hlt].
  assert (attemptCount = 1 \/ attemptCount = 2) as [-> | ->] by lia;
    destruct Htype as [H|[H|[H|[]]]]; unfold getRetryDelay; rewrite <- H;
    cbn; tauto.
Qed.

Lemma retry_delay_when_retrying_witness :
  getRetryDelay (mkSorobanError "Insufficient fee for transaction" 4001
                                "InsufficientFee") 2
  = 4000%float.
Proof.
  pose proof (retry_delay_when_retrying
                (mkSorobanError "Insufficient fee for transaction" 4001
                                "InsufficientFee") 2 eq_refl) as H.
  assert (1 <= 2) as Hge by lia. specialize (H Hge).
  destruct H as [H|[H|[H|[H|[H|[H|[]]]]]]]; try discriminate H.
  symmetry. exact (f_equal snd H).
Defined.

Section SimulationRetry.
Context {P : Platform}.

(** X3.  For a simulation error with a message that is not empty, a retry
    is allowed exactly when the message contains "insufficient fee" and the
    attempt count is below 3: of the six tags [parseSimulationError] gives
    to a message, InsufficientFee is the only one that is retried. *)
Theorem simulation_error_retry (msg : string) (result : option ScVal)
    (attemptCount : Z) :
  msg <> "" ->
  (shouldRetry (parseSimulationError (Some msg) result) attemptCount = true
   <-> contains msg "insufficient fee" /\ attemptCount < 3).
Proof.
  intros Hne. destruct msg as [|c msg]; [congruence|].
  rewrite shouldRetry_true. cbn [parseSimulationError].
  set (m := String c msg).
  destruct (includes m "insufficient fee") eqn:Efee.
  - apply includes_spec in Efee. cbn. intuition.
  - assert (~ contains m "insufficient fee") as Hno
      by (intros C; apply includes_spec in C; congruence).
    destruct (includes m "insufficient balance");
      [|destruct (includes m "contract not found");
        [|destruct (includes m "method not found");
          [|destruct (includes m "invalid argument")]]];
      cbn; (split; [intros [[H|[H|[H|[]]]] _]; discriminate H
                   |intros [C _]; contradiction]).
Qed.

End SimulationRetry.

Lemma simulation_error_retry_witness :
  shouldRetry
    (parseSimulationError (P := Reference.platform)
       (Some "host: insufficient fee") None) 1
  = true.
Proof.
  apply (simulation_error_retry (P := Reference.platform)
           "host: insufficient fee" None 1).
  - discriminate.
  - split; [exists "host: ", ""; reflexivity | reflexivity].
Defined.

End RetryPolicy.

(* ===================================================================== *)
(** * Further properties of the codec *)
(* ===================================================================== *)

Section JsValFullInduction.
Variable Q : JsVal -> Prop.
Hypothesis HArray : forall items, Forall Q items -> Q (JArray items).
Hypothesis HMap :
  forall entries,
    Forall (fun kv => Q (fst kv) /\ Q (snd kv)) entries -> Q (JMap entries).
Hypothesis HSet : forall items, Forall Q items -> Q (JSet items).
Hypothesis HObject :
  forall props, Forall (fun kv => Q (snd kv)) props -> Q (JObject props).
Hypothesis HLib :
  forall o props, Forall (fun kv => Q (snd kv)) props -> Q (JLib o props).
Hypothesis HOther :
  forall v,
    match v with
    | JArray _ | JMap _ | JSet _ | JObject _ | JLib _ _ => True
    | _ => Q v
    end.

(** Induction on a host value through all its parts. *)
Fixpoint JsVal_parts_ind (v : JsVal) : Q v :=
  let items :=
    fix all (l : list JsVal) : Forall Q l :=
      match l with
      | [] => Forall_nil Q
      | x :: r => Forall_cons x (JsVal_parts_ind x) (all r)
      end in
  let props :=
    fix all (l : list (string * JsVal)) : Forall (fun kv => Q (snd kv)) l :=
      match l with
      | [] => Forall_nil _
      | (k, x) :: r => Forall_cons (k, x) (JsVal_parts_ind x) (all r)
      end in
  match v with
  | JArray l => HArray l (items l)
  | JMap entries =>
      HMap entries
        ((fix all (l : list (JsVal * JsVal))
            : Forall (fun kv => Q (fst kv) /\ Q (snd kv)) l :=
            match l with
            | [] => Forall_nil _
            | (k, x) :: r =>
                Forall_cons (k, x)
                  (conj (JsVal_parts_ind k) (JsVal_parts_ind x)) (all r)
            end) entries)
  | JSet l => HSet l (items l)
  | JObject l => HObject l (props l)
  | JLib o l => HLib o l (props l)
  | v' => HOther v'
  end.
End JsValFullInduction.

Section ScValInduction.
Variable Q : ScVal -> Prop.
Hypothesis HVec : forall items, Forall Q items -> Q (scvVec items).
Hypothesis HMap :
  forall entries,
    Forall (fun kv => Q (fst kv) /\ Q (snd kv)) entries -> Q (scvMap entries).
Hypothesis HOther :
  forall w, match w with scvVec _ | scvMap _ => True | _ => Q w end.

(** Induction on a wire value through its vector items and map entries. *)
Fixpoint ScVal_containers_ind (w : ScVal) : Q w :=
  match w with
  | scvVec items =>
      HVec items
        ((fix all (l : list ScVal) : Forall Q l :=
            match l with
            | [] => Forall_nil Q
            | x :: r => Forall_cons x (ScVal_containers_ind x) (all r)
            end) items)
  | scvMap entries =>
      HMap entries
        ((fix all (l : list (ScVal * ScVal))
            : Forall (fun kv => Q (fst kv) /\ Q (snd kv)) l :=
            match l with
            | [] => Forall_nil _
            | (k, x) :: r =>
                Forall_cons (k, x)
                  (conj (ScVal_containers_ind k) (ScVal_containers_ind x))
                  (all r)
            end) entries)
  | w' => HOther w'
  end.
End ScValInduction.

Section EntryTraversalFacts.
Context {A K B : Type}.

Lemma mapEntriesM_Forall2 (f : A -> Result B) (fk : K -> Result B)
    (es : list (K * A)) (ws : list (B * B)) :
  mapEntriesM f fk es = Ok ws <->
  Forall2 (fun kv w => fk (fst kv) = Ok (fst w) /\ f (snd kv) = Ok (snd w))
          es ws.
Proof.
  revert ws; induction es as [|[k v] es IH]; intros ws; simpl.
  - split.
    + intros H; injection H as <-; constructor.
    + intros H; inversion H; reflexivity.
  - split.
    + destruct (fk k) as [k'|e] eqn:Ek; simpl; [|discriminate].
      destruct (f v) as [v'|e] eqn:Ev; simpl; [|discriminate].
      destruct (mapEntriesM f fk es) as [ws'|e] eqn:Es; simpl; [|discriminate].
      intros H; injection H as <-. constructor; [now split|]. now apply IH.
    + intros H; inversion H as [|kv [k' v'] es' ws' [Hk Hv] Hes]; subst.
      simpl in Hk, Hv. rewrite Hk, Hv; simpl.
      apply IH in Hes. now rewrite Hes.
Qed.
End EntryTraversalFacts.

Section EncoderShape.
Import ScValConverter.

(** The wire values the unhinted encoder can produce: void, bool, i32 with
    an integral number, u64, i64, string, address, bytes, and vectors and
    maps of such values. *)
Fixpoint autoShape (w : ScVal) : bool :=
  match w with
  | scvVoid | scvBool _ | scvU64 _ | scvI64 _ | scvString _ | scvAddress _
  | scvBytes _ => true
  | scvI32 x => Number_isInteger x
  | scvVec items => forallb autoShape items
  | scvMap entries =>
      forallb (fun kv => autoShape (fst kv) && autoShape (snd kv)) entries
  | _ => false
  end.

Section WithPlatform.
Context {P : Platform}.

Lemma stringToScVal_shape (s : string) : autoShape (stringToScVal s) = true.
Proof.
  unfold stringToScVal.
  destruct (String.prefix "G" s && (Z.of_nat (String.length s) =? 56));
    [destruct (Address_new s)|]; reflexivity.
Qed.

Lemma props_shape (props : list (string * JsVal)) (es : list (ScVal * ScVal)) :
  Forall (fun kv => forall w, toScValAuto (snd kv) = Ok w -> autoShape w = true)
         props ->
  mapEntriesM toScValAuto (fun k => Ok (stringToScVal k)) props = Ok es ->
  forallb (fun kv => autoShape (fst kv) && autoShape (snd kv)) es = true.
Proof.
  intros IH He. apply mapEntriesM_Forall2 in He.
  induction He as [|[k v] [wk wv] props es [Hk Hv] _ IHes]; [reflexivity|].
  inversion IH as [|? ? Hhead Htail]; subst. simpl in *.
  injection Hk as <-. rewrite stringToScVal_shape, (Hhead wv Hv). simpl.
  now apply IHes.
Qed.

Lemma toScValAuto_shape (v : JsVal) :
  forall w, toScValAuto v = Ok w -> autoShape w = true.
Proof.
  revert v.
  apply (JsVal_parts_ind
           (fun v => forall w, toScValAuto v = Ok w -> autoShape w = true)).
  - intros items IH w. cbn [toScValAuto].
    destruct (mapM toScValAuto items) as [ws|e] eqn:He; simpl; [|discriminate].
    intros H; injection H as <-. cbn [autoShape].
    apply mapM_Forall2 in He.
    induction He as [|x y items ws Hx _ IHws]; [reflexivity|].
    inversion IH as [|? ? Hhead Htail]; subst. simpl.
    rewrite (Hhead y Hx). now apply IHws.
  - intros entries IH w. cbn [toScValAuto].
    destruct (mapEntriesM toScValAuto toScValAuto entries) as [es|e] eqn:He;
      simpl; [|discriminate].
    intros H; injection H as <-. cbn [autoShape].
    apply mapEntriesM_Forall2 in He.
    induction He as [|[k v] [wk wv] entries es [Hk Hv] _ IHes]; [reflexivity|].
    inversion IH as [|? ? [Hkey Hval] Htail]; subst. simpl in *.
    rewrite (Hkey wk Hk), (Hval wv Hv). now apply IHes.
  - intros items _ w H. injection H as <-. reflexivity.
  - intros props IH w. cbn [toScValAuto].
    destruct (mapEntriesM _ _ props) as [es|e] eqn:He; simpl; [|discriminate].
    intros H; injection H as <-. now apply (props_shape props).
  - intros o props IH w. cbn [toScValAuto].
    destruct (mapEntriesM _ _ props) as [es|e] eqn:He; simpl; [|discriminate].
    intros H; injection H as <-. now apply (props_shape props).
  - intros v. destruct v; try exact I; intros w; cbn [toScValAuto].
    + intros H; injection H as <-; reflexivity.
    + intros H; injection H as <-; reflexivity.
    + intros H; injection H as <-; reflexivity.
    + destruct (Number_isInteger x) eqn:Hx.
      * intros H; injection H as <-. exact Hx.
      * destruct (ScInt_convert I64 (JNumber x)); simpl; [|discriminate].
        intros H; injection H as <-; reflexivity.
    + destruct (0 <=? z);
        (destruct (ScInt_convert _ (JBigInt z)); simpl; [|discriminate]);
        intros H; injection H as <-; reflexivity.
    + intros H; injection H as <-. apply stringToScVal_shape.
    + discriminate.
    + intros H; injection H as <-; reflexivity.
Qed.

(** X4.  Whatever the host value, the wire value [toScVal] returns without
    a hint is made, at every depth, of the tags void, bool, i32, u64, i64,
    string, address, bytes, vec and map only, and an i32 in it holds an
    integral number: the unhinted encoder never emits u32, u128, i128,
    u256, i256, f32, f64 or symbol. *)
Theorem unhinted_tags (v : JsVal) (w : ScVal) :
  toScVal v None = Ok w -> autoShape w = true.
Proof.
  unfold toScVal. destruct (isNullish v).
  - intros H; injection H as <-; reflexivity.
  - apply toScValAuto_shape.
Qed.

(** The tags whose clause the switch of [fromScVal] reaches. *)
Definition reached (t : ScValType) : bool :=
  match t with
  | TagVoid | TagBool | TagU32 | TagI32 | TagU64 | TagI64 | TagU128
  | TagI128 | TagU256 | TagI256 => true
  | _ => false
  end.

(** X5.  What [fromScVal], and so [decodeResult] without a hint, can
    return.  On a wire value whose tag is not void, bool, u32, i32 or one
    of the six wide integers it throws the TypeError of the missing label
    [xdr.ScValType.scvF32()], before the clause of the tag or the default
    clause is reached.  When it returns, the result is [null] for void, the
    number of a u32 or i32, or a bigint for a wide integer: it never
    returns a boolean, a string, a byte buffer, an array or a Map, and it
    never recurses into a vector or a map. *)
Theorem decoder_reach (w : ScVal) :
  (reached (switch w) = false -> fromScVal w = Throw noF32)
  /\ (forall v, fromScVal w = Ok v ->
        match v with
        | JNull => w = scvVoid
        | JNumber x => w = scvU32 x \/ w = scvI32 x
        | JBigInt _ =>
            In (switch w) [TagU64; TagI64; TagU128; TagI128; TagU256; TagI256]
        | _ => False
        end)
  /\ decodeResult w None = fromScVal w.
Proof.
  split; [|split; [|reflexivity]].
  - intros Hr. rewrite fromScVal_reach.
    destruct w; try discriminate Hr; reflexivity.
  - intros v. rewrite fromScVal_reach.
    destruct w; try discriminate;
      try (intros H; injection H as <-; auto; fail);
      (destruct (ScInt_toBigInt n) as [z|e]; cbn [bind]; [|discriminate];
       intros H; injection H as <-; simpl; tauto).
Qed.

(** The round trip under a hint. *)
Definition hintedRoundTrip (v : JsVal) (type : ScType) : Result JsVal :=
  scVal <- toScVal v (Some type) ;; fromTypedScVal scVal type.

(** The items that come back from the wire: [null] and the integral
    numbers. *)
Definition plain (v : JsVal) : bool :=
  match v with
  | JNull => true
  | JNumber x => Number_isInteger x
  | _ => false
  end.

(** The items whose encoding the decoder throws on. *)
Definition undecodable (v : JsVal) : bool :=
  match v with
  | JBool _ | JString _ | JBuffer _ | JArray _ | JMap _ | JSet _
  | JObject _ | JLib _ _ => true
  | _ => false
  end.

Lemma plain_trips (v : JsVal) :
  plain v = true ->
  exists w, toScValAuto v = Ok w /\ fromScVal w = Ok v.
Proof.
  destruct v; try discriminate; cbn [plain]; intros Hp.
  - exists scvVoid. split; reflexivity.
  - exists (scvI32 x). cbn [toScValAuto]. rewrite Hp. split; reflexivity.
Qed.

Lemma plain_items_trip (items : list JsVal) :
  forallb plain items = true ->
  exists ws, mapM toScValAuto items = Ok ws /\ mapM fromScVal ws = Ok items.
Proof.
  induction items as [|v items IH]; cbn [forallb]; intros Hp.
  - exists []. split; reflexivity.
  - apply andb_prop in Hp. destruct Hp as [Hv Hrest].
    destruct (plain_trips v Hv) as [w [He Hd]].
    destruct (IH Hrest) as [ws [Hes Hds]].
    exists (w :: ws). cbn [mapM]. rewrite He, Hes, Hd, Hds.
    split; reflexivity.
Qed.

Lemma undecodable_throws (v : JsVal) (w : ScVal) :
  undecodable v = true -> toScValAuto v = Ok w ->
  exists e, fromScVal w = Throw e.
Proof.
  intros Hu He. rewrite fromScVal_reach.
  destruct v; try discriminate Hu; cbn [toScValAuto] in He.
  - injection He as <-. eauto.
  - injection He as <-. rewrite <- fromScVal_reach, stringToScVal_decode.
    eauto.
  - injection He as <-. eauto.
  - destruct (mapM toScValAuto items); [|discriminate].
    injection He as <-. eauto.
  - destruct (mapEntriesM toScValAuto toScValAuto entries); [|discriminate].
    injection He as <-. eauto.
  - injection He as <-. eauto.
  - destruct (mapEntriesM _ _ props); [|discriminate].
    injection He as <-. eauto.
  - destruct (mapEntriesM _ _ props); [|discriminate].
    injection He as <-. eauto.
Qed.

Lemma undecodable_items_throw (items : list JsVal) :
  existsb undecodable items = true ->
  match mapM toScValAuto items with
  | Ok ws => exists e, mapM fromScVal ws = Throw e
  | Throw _ => True
  end.
Proof.
  induction items as [|v items IH]; cbn [existsb]; [discriminate|].
  intros Hu. cbn [mapM].
  destruct (toScValAuto v) as [w|e] eqn:He; cbn [bind]; [|exact I].
  destruct (mapM toScValAuto items) as [ws|e] eqn:Hes; cbn [bind]; [|exact I].
  cbn [mapM].
  destruct (undecodable v) eqn:Hv.
  - destruct (undecodable_throws v w Hv He) as [e ->]. cbn [bind]. eauto.
  - destruct (fromScVal w) as [x|e]; cbn [bind]; [|eauto].
    destruct (IH Hu) as [e ->]. cbn [bind]. eauto.
Qed.

(** X6.  Under the hint vec or tuple, an array comes back only when its
    items do.  For an array of [null]s and integral numbers, encoding it
    with the hint and decoding the result with the same hint returns the
    array.  An array that holds a boolean, a string, a byte buffer, an
    array, a Map, a Set or an object never comes back: the round trip
    throws, since the items are decoded by [fromScVal]. *)
Theorem hinted_array_roundTrip (items : list JsVal) (type : ScType) :
  type = T_vec \/ type = T_tuple ->
  (forallb plain items = true ->
   hintedRoundTrip (JArray items) type = Ok (JArray items))
  /\ (existsb undecodable items = true ->
      exists e, hintedRoundTrip (JArray items) type = Throw e).
Proof.
  intros Ht.
  assert (Hrun : hintedRoundTrip (JArray items) type
                 = (ws <- mapM toScValAuto items ;;
                    xs <- mapM fromScVal ws ;; Ok (JArray xs))).
  { unfold hintedRoundTrip, toScVal. cbn [isNullish].
    destruct Ht as [-> | ->]; cbn [toTypedScVal];
      now destruct (mapM toScValAuto items). }
  rewrite Hrun. split.
  - intros Hp. destruct (plain_items_trip items Hp) as [ws [-> Hd]].
    cbn [bind]. now rewrite Hd.
  - intros Hu. pose proof (undecodable_items_throw items Hu) as H.
    destruct (mapM toScValAuto items) as [ws|e]; cbn [bind]; [|eauto].
    destruct H as [e ->]. cbn [bind]. eauto.
Qed.

(** The elements an ES Set can hold after the elements [seen]. *)
Fixpoint validItems (seen items : list JsVal) : bool :=
  match items with
  | [] => true
  | x :: r =>
      storedKey x
      && forallb (fun y => negb (sameValueZero y x)) seen
      && validItems (seen ++ [x]) r
  end.

Lemma Set_add_fresh (s : list JsVal) (x : JsVal) :
  storedKey x = true ->
  forallb (fun y => negb (sameValueZero y x)) s = true ->
  Set_add s x = (s ++ [x])%list.
Proof.
  intros Hx. induction s as [|y s IH]; simpl; intros Hs.
  - now rewrite storedKey_normKey.
  - apply andb_prop in Hs as [Hy Hs].
    apply negb_true_iff in Hy. rewrite Hy. now rewrite IH.
Qed.

Lemma fold_Set_add (items acc : list JsVal) :
  validItems acc items = true ->
  fold_left Set_add items acc = (acc ++ items)%list.
Proof.
  revert acc; induction items as [|x items IH]; intros acc Hv; simpl.
  - now rewrite app_nil_r.
  - simpl in Hv. apply andb_prop in Hv as [Hv Hrest].
    apply andb_prop in Hv as [Hx Hfresh].
    rewrite Set_add_fresh by assumption. rewrite IH by assumption.
    now rewrite <- app_assoc.
Qed.

(** X7.  Under the hint set, for [null]s and integral numbers: an array
    comes back as the Set of its items, duplicates merged, and a Set (its
    elements pairwise different, as in any ES Set) comes back as the same
    Set in the same order.  An array or Set that holds a boolean, a string,
    a byte buffer, an array, a Map, a Set or an object never comes back:
    the round trip throws. *)
Theorem hinted_set_roundTrip (items : list JsVal) :
  (forallb plain items = true ->
   hintedRoundTrip (JArray items) T_set = Ok (JSet (Set_of items))
   /\ (validItems [] items = true ->
       hintedRoundTrip (JSet items) T_set = Ok (JSet items)))
  /\ (existsb undecodable items = true ->
      (exists e, hintedRoundTrip (JArray items) T_set = Throw e)
      /\ (exists e, hintedRoundTrip (JSet items) T_set = Throw e)).
Proof.
  assert (Hrun : forall v, v = JArray items \/ v = JSet items ->
             hintedRoundTrip v T_set
             = (ws <- mapM toScValAuto items ;;
                xs <- mapM fromScVal ws ;; Ok (JSet (Set_of xs)))).
  { intros v [-> | ->]; unfold hintedRoundTrip, toScVal;
      cbn [isNullish toTypedScVal];
      now destruct (mapM toScValAuto items). }
  rewrite (Hrun (JArray items)), (Hrun (JSet items)) by auto. split.
  - intros Hp. destruct (plain_items_trip items Hp) as [ws [-> Hd]].
    cbn [bind]. rewrite Hd. cbn [bind]. split; [reflexivity|].
    intros Hv. unfold Set_of. now rewrite fold_Set_add.
  - intros Hu. pose proof (undecodable_items_throw items Hu) as H.
    destruct (mapM toScValAuto items) as [ws|e]; cbn [bind]; [|eauto].
    destruct H as [e ->]. cbn [bind]. eauto.
Qed.

End WithPlatform.

Lemma unhinted_tags_witness :
  autoShape (scvMap [(scvString "amount", scvI32 7)]) = true.
Proof.
  apply (unhinted_tags (P := Reference.platform)
           (JObject [("amount", JNumber 7)])).
  reflexivity.
Defined.

Lemma decoder_reach_witness :
  fromScVal (P := Reference.platform) (scvVec [scvI32 1]) = Throw noF32
  /\ (scvI32 42 = scvU32 42 \/ scvI32 42 = scvI32 42).
Proof.
  split.
  - exact (proj1 (decoder_reach (P := Reference.platform) (scvVec [scvI32 1]))
             eq_refl).
  - exact (proj1 (proj2 (decoder_reach (P := Reference.platform) (scvI32 42)))
             (JNumber 42) eq_refl).
Defined.

Lemma hinted_array_roundTrip_witness :
  hintedRoundTrip (P := Reference.platform)
    (JArray [JNumber 1; JNull; JNumber (-2)]) T_tuple
  = Ok (JArray [JNumber 1; JNull; JNumber (-2)])
  /\ exists e,
       hintedRoundTrip (P := Reference.platform)
         (JArray [JNumber 1; JString "a"]) T_vec
       = Throw e.
Proof.
  split.
  - apply (proj1 (hinted_array_roundTrip (P := Reference.platform)
                    [JNumber 1; JNull; JNumber (-2)] T_tuple
                    (or_intror eq_refl))).
    reflexivity.
  - apply (proj2 (hinted_array_roundTrip (P := Reference.platform)
                    [JNumber 1; JString "a"] T_vec (or_introl eq_refl))).
    reflexivity.
Defined.

Lemma hinted_set_roundTrip_witness :
  hintedRoundTrip (P := Reference.platform)
    (JArray [JNumber 1; JNumber 1; JNumber 2]) T_set
  = Ok (JSet [JNumber 1; JNumber 2])
  /\ hintedRoundTrip (P := Reference.platform)
       (JSet [JNumber 1; JNumber 2]) T_set
     = Ok (JSet [JNumber 1; JNumber 2])
  /\ exists e,
       hintedRoundTrip (P := Reference.platform)
         (JSet [JNumber 1; JString "a"]) T_set
       = Throw e.
Proof.
  destruct (proj1 (hinted_set_roundTrip (P := Reference.platform)
                     [JNumber 1; JNumber 1; JNumber 2]) eq_refl)
    as [Harray _].
  destruct (proj1 (hinted_set_roundTrip (P := Reference.platform)
                     [JNumber 1; JNumber 2]) eq_refl)
    as [_ Hset].
  destruct (proj2 (hinted_set_roundTrip (P := Reference.platform)
                     [JNumber 1; JString "a"]) eq_refl)
    as [_ Hthrow].
  exact (conj Harray (conj (Hset eq_refl) Hthrow)).
Defined.

End EncoderShape.

(* ===================================================================== *)
(** * Further properties of the event monitor                             *)
(* ===================================================================== *)

Section StringMapLaws.
Context {V : Type}.
Implicit Types (m : list (string * V)) (k : string) (v : V).

Lemma SMap_get_None m k :
  SMap_get m k = None <-> ~ In k (SMap_keys m).
Proof.
  induction m as [|[k' v'] m IH]; simpl.
  - split; auto.
  - destruct (String.eqb_spec k' k) as [->|Hne].
    + split; [discriminate|]. intros H. exfalso. apply H. now left.
    + rewrite IH. split.
      * intros H [Heq|Hin]; [now apply Hne | now apply H].
      * intros H Hin. apply H. now right.
Qed.

Lemma SMap_get_Some_In m k v :
  SMap_get m k = Some v -> In k (SMap_keys m).
Proof.
  intros H. destruct (in_dec string_dec k (SMap_keys m)) as [Hin|Hout]; auto.
  apply SMap_get_None in Hout. congruence.
Qed.

Lemma SMap_has_In m k : SMap_has m k = true <-> In k (SMap_keys m).
Proof.
  unfold SMap_has. destruct (SMap_get m k) eqn:E.
  - split; auto. intros _. now apply SMap_get_Some_In with v.
  - split; [discriminate|]. intros H. now apply SMap_get_None in E.
Qed.

Lemma SMap_get_set_other m k k' v :
  k' <> k -> SMap_get (SMap_set m k v) k' = SMap_get m k'.
Proof.
  intros Hne. induction m as [|[k0 v0] m IH]; simpl.
  - destruct (String.eqb_spec k k'); congruence.
  - destruct (String.eqb_spec k0 k) as [->|H0]; simpl.
    + destruct (String.eqb_spec k k'); congruence.
    + now rewrite IH.
Qed.

Lemma SMap_keys_set m k v k' :
  In k' (SMap_keys (SMap_set m k v)) <-> k' = k \/ In k' (SMap_keys m).
Proof.
  induction m as [|[k0 v0] m IH]; simpl.
  - intuition.
  - destruct (String.eqb_spec k0 k) as [->|H0]; simpl.
    + intuition.
    + rewrite IH. intuition.
Qed.

Lemma SMap_set_NoDup m k v :
  NoDup (SMap_keys m) -> NoDup (SMap_keys (SMap_set m k v)).
Proof.
  induction m as [|[k0 v0] m IH]; simpl; intros Hnd.
  - constructor; [intros []|constructor].
  - inversion Hnd as [|? ? Hout Hnd']; subst.
    destruct (String.eqb_spec k0 k) as [->|H0]; simpl.
    + now constructor.
    + constructor; [|now apply IH].
      rewrite SMap_keys_set. intros [Heq|Hin]; [now apply H0 | now apply Hout].
Qed.

Lemma SMap_delete_absent m k : SMap_get m k = None -> SMap_delete m k = m.
Proof.
  induction m as [|[k0 v0] m IH]; simpl; [reflexivity|].
  destruct (String.eqb k0 k); [discriminate|].
  intros H. now rewrite IH.
Qed.

Lemma SMap_keys_delete m k k' :
  NoDup (SMap_keys m) ->
  (In k' (SMap_keys (SMap_delete m k)) <-> k' <> k /\ In k' (SMap_keys m)).
Proof.
  induction m as [|[k0 v0] m IH]; simpl; intros Hnd.
  - intuition.
  - inversion Hnd as [|? ? Hout Hnd']; subst.
    destruct (String.eqb_spec k0 k) as [->|H0]; simpl.
    + split.
      * intros Hin. split; [|now right]. intros ->. now apply Hout.
      * intros [Hne [Heq|Hin]]; [now elim Hne | exact Hin].
    + rewrite (IH Hnd'). split.
      * intros [<-|[Hne Hin]]; [split; [exact H0 | now left] | split; auto].
      * intros [Hne [Heq|Hin]]; [now left | right; auto].
Qed.

Lemma SMap_delete_NoDup m k :
  NoDup (SMap_keys m) -> NoDup (SMap_keys (SMap_delete m k)).
Proof.
  induction m as [|[k0 v0] m IH]; simpl; intros Hnd; [constructor|].
  inversion Hnd as [|? ? Hout Hnd']; subst.
  destruct (String.eqb_spec k0 k) as [->|H0]; simpl; [exact Hnd'|].
  constructor; [|now apply IH].
  rewrite (SMap_keys_delete m k k0 Hnd'). intros [_ Hin]. now apply Hout.
Qed.

Lemma SMap_get_delete m k :
  NoDup (SMap_keys m) -> SMap_get (SMap_delete m k) k = None.
Proof.
  intros Hnd. apply SMap_get_None. rewrite (SMap_keys_delete m k k Hnd).
  intros [Hne _]. now apply Hne.
Qed.

Lemma SMap_get_delete_other m k k' :
  k' <> k -> SMap_get (SMap_delete m k) k' = SMap_get m k'.
Proof.
  intros Hne. induction m as [|[k0 v0] m IH]; simpl; [reflexivity|].
  destruct (String.eqb_spec k0 k) as [->|H0]; simpl.
  - destruct (String.eqb_spec k k'); congruence.
  - now rewrite IH.
Qed.

Lemma SMap_delete_set_fresh m k v :
  SMap_get m k = None -> SMap_delete (SMap_set m k v) k = m.
Proof.
  induction m as [|[k0 v0] m IH]; simpl.
  - now rewrite String.eqb_refl.
  - destruct (String.eqb k0 k) eqn:E; [discriminate|]. simpl. rewrite E.
    intros H. now rewrite IH.
Qed.

Lemma SMap_keys_nil m : SMap_keys m = [] -> m = [].
Proof. now destruct m. Qed.
End StringMapLaws.

Section MonitorRegistry.
Import ContractEventMonitor.

Ltac run_eff :=
  unfold this, emit, update, callIfPresent, tryCatch, ebind, get, modify,
    lift, ret, throw;
  cbn [fst snd app subscriptions pollingIntervals lastLedger
       set_subscriptions set_pollingIntervals set_lastLedger].

(** The registry of a monitor is well formed: a subscription id is
    registered once, has at most one timer, and every timer belongs to a
    registered subscription. *)
Definition wellFormed (m : Monitor) : Prop :=
  NoDup (SMap_keys (subscriptions m))
  /\ NoDup (SMap_keys (pollingIntervals m))
  /\ (forall i, In i (SMap_keys (pollingIntervals m)) ->
                In i (SMap_keys (subscriptions m))).

(** [onClose] is absent or returns. *)
Definition closes (sub : EventSubscription) : bool :=
  match onClose sub with Some f => isOk (f tt) | None => true end.

(** What [unsubscribe] logs for the timer of [i]. *)
Definition clearedTimer (i : string) (m : Monitor) : list Effect :=
  if SMap_has (pollingIntervals m) i then [ClearInterval i] else [].

(** What [unsubscribe] logs for the [onClose] of the subscription of [i]. *)
Definition closeCall (i : string) (m : Monitor) : list Effect :=
  match SMap_get (subscriptions m) i with
  | Some sub => match onClose sub with Some _ => [CallOnClose i] | None => [] end
  | None => []
  end.

(** The monitor without the subscription [i] and without its timer. *)
Definition removed (i : string) (m : Monitor) : Monitor :=
  mkMonitor (SMap_delete (subscriptions m) i)
            (SMap_delete (pollingIntervals m) i) (lastLedger m).

(** The monitor without the timer of [i]. *)
Definition stopped (i : string) (m : Monitor) : Monitor :=
  mkMonitor (subscriptions m) (SMap_delete (pollingIntervals m) i)
            (lastLedger m).

(** What the [onClose] call of [unsubscribe] does for [i]. *)
Definition closing (i : string) (m : Monitor) : Result unit :=
  match SMap_get (subscriptions m) i with
  | Some sub => match onClose sub with Some f => f tt | None => Ok tt end
  | None => Ok tt
  end.

(** [unsubscribe] in closed form. *)
Lemma unsubscribe_eq (i : string) (m : Monitor) (log : list Effect) :
  unsubscribe i (m, log)
  = match closing i m with
    | Ok _ =>
        (Ok tt, (removed i m, (log ++ clearedTimer i m ++ closeCall i m)%list))
    | Throw e =>
        (Throw e, (stopped i m, (log ++ clearedTimer i m ++ closeCall i m)%list))
    end.
Proof.
  destruct m as [s t l].
  unfold unsubscribe, clearedTimer, closeCall, closing, removed, stopped,
    SMap_has.
  run_eff.
  destruct (SMap_get t i) as [timer|] eqn:Et; run_eff.
  - destruct (SMap_get s i) as [sub|]; run_eff.
    + destruct (onClose sub) as [f|]; run_eff.
      * destruct (f tt) as [[]|e]; now rewrite <- ?app_assoc.
      * reflexivity.
    + reflexivity.
  - rewrite (SMap_delete_absent t i Et).
    destruct (SMap_get s i) as [sub|]; run_eff.
    + destruct (onClose sub) as [f|]; run_eff.
      * destruct (f tt) as [[]|e]; reflexivity.
      * now rewrite app_nil_r.
    + now rewrite app_nil_r.
Qed.

Lemma wellFormed_create : wellFormed create.
Proof. repeat split; simpl; try constructor. intros i []. Qed.

Lemma wellFormed_removed (i : string) (m : Monitor) :
  wellFormed m -> wellFormed (removed i m).
Proof.
  intros [Hs [Ht Hsub]]. unfold wellFormed, removed; simpl.
  split; [now apply SMap_delete_NoDup|].
  split; [now apply SMap_delete_NoDup|].
  intros j. rewrite !SMap_keys_delete by assumption.
  intros [Hne Hin]. auto.
Qed.

Lemma wellFormed_stopped (i : string) (m : Monitor) :
  wellFormed m -> wellFormed (stopped i m).
Proof.
  intros [Hs [Ht Hsub]]. unfold wellFormed, stopped; simpl.
  split; [assumption|]. split; [now apply SMap_delete_NoDup|].
  intros j. rewrite SMap_keys_delete by assumption.
  intros [Hne Hin]. auto.
Qed.

Lemma wellFormed_cursor (current : Z) (m : Monitor) :
  wellFormed m -> wellFormed (set_lastLedger current m).
Proof. intros H. exact H. Qed.

Lemma unsubscribe_wellFormed (i : string) (m : Monitor) (log : list Effect) :
  wellFormed m -> wellFormed (fst (snd (unsubscribe i (m, log)))).
Proof.
  intros Hwf. rewrite unsubscribe_eq.
  destruct (closing i m) as [[]|e]; cbn [fst snd].
  - now apply wellFormed_removed.
  - now apply wellFormed_stopped.
Qed.

(** The entry [{ ...subscription, id: subscriptionId }] put in the
    registry. *)
Definition entryOf (clock : Clock) (sub : EventSubscription)
  : EventSubscription :=
  mkSubscription (generateSubscriptionId clock (sub_contractId sub))
                 (sub_contractId sub) (eventTypes sub) (onEvent sub)
                 (onError sub) (onClose sub).

(** The monitor with the entry of [sub] registered. *)
Definition registered (clock : Clock) (sub : EventSubscription) (m : Monitor)
  : Monitor :=
  mkMonitor
    (SMap_set (subscriptions m)
       (generateSubscriptionId clock (sub_contractId sub)) (entryOf clock sub))
    (pollingIntervals m) (lastLedger m).

(** The monitor with the entry of [sub] registered and its timer started. *)
Definition started (clock : Clock) (sub : EventSubscription) (cursor : Z)
    (m : Monitor) : Monitor :=
  mkMonitor
    (SMap_set (subscriptions m)
       (generateSubscriptionId clock (sub_contractId sub)) (entryOf clock sub))
    (SMap_set (pollingIntervals m)
       (generateSubscriptionId clock (sub_contractId sub)) (entryOf clock sub))
    cursor.

Lemma wellFormed_registered (clock : Clock) (sub : EventSubscription)
    (m : Monitor) :
  wellFormed m -> wellFormed (registered clock sub m).
Proof.
  intros [Hs [Ht Hsub]]. unfold wellFormed, registered; simpl.
  split; [now apply SMap_set_NoDup|]. split; [assumption|].
  intros j Hin. rewrite SMap_keys_set. right. auto.
Qed.

Lemma wellFormed_started (clock : Clock) (sub : EventSubscription)
    (cursor : Z) (m : Monitor) :
  wellFormed m -> wellFormed (started clock sub cursor m).
Proof.
  intros [Hs [Ht Hsub]]. unfold wellFormed, started; simpl.
  split; [now apply SMap_set_NoDup|]. split; [now apply SMap_set_NoDup|].
  intros j. rewrite !SMap_keys_set. intros [->|Hin]; auto.
Qed.

(** [streamEvents] in closed form: it always returns. *)
Lemma streamEvents_eq (clock : Clock) (sub : EventSubscription) (m : Monitor)
    (log : list Effect) :
  streamEvents clock sub (m, log)
  = (Ok (generateSubscriptionId clock (sub_contractId sub)),
     (started clock sub (lastLedger m) m,
      (log ++ [SetInterval
                 (generateSubscriptionId clock (sub_contractId sub))])%list)).
Proof.
  unfold streamEvents, startPolling. run_eff.
  rewrite SMap_get_set. reflexivity.
Qed.

(** [subscribeToEvents] when the ledger is fetched. *)
Lemma subscribeToEvents_ok (server : Server) (clock : Clock)
    (sub : EventSubscription) (m : Monitor) (log : list Effect) (current : Z) :
  getLatestLedger server = Ok current ->
  subscribeToEvents server clock sub (m, log)
  = (Ok (generateSubscriptionId clock (sub_contractId sub)),
     (started clock sub current m,
      (log ++ [CallGetLatestLedger;
               SetInterval
                 (generateSubscriptionId clock (sub_contractId sub))])%list)).
Proof.
  intros Hl. unfold subscribeToEvents, startPolling. run_eff. rewrite Hl.
  run_eff. rewrite SMap_get_set. run_eff. now rewrite <- app_assoc.
Qed.

(** [subscribeToEvents] when the fetch fails: the entry stays. *)
Lemma subscribeToEvents_failed (server : Server) (clock : Clock)
    (sub : EventSubscription) (m : Monitor) (log : list Effect) (error : Exn) :
  getLatestLedger server = Throw error ->
  fst (snd (subscribeToEvents server clock sub (m, log)))
  = registered clock sub m.
Proof.
  intros Hl. unfold subscribeToEvents, registered, entryOf. run_eff.
  rewrite Hl.
  destruct (onError sub) as [handler|]; run_eff;
    [destruct (handler error) as [[]|thrown]|]; reflexivity.
Qed.

(** The events whose [onEvent] call is made: those up to the first call
    that throws, with it. *)
Fixpoint attempted (sub : EventSubscription) (events : list RpcEvent)
  : list RpcEvent :=
  match events with
  | [] => []
  | event :: rest =>
      event :: (if isOk (onEvent sub (convertRpcEventToDetail event))
                then attempted sub rest else [])
  end.

(** What the first [onEvent] call that throws has thrown. *)
Fixpoint firstFailure (sub : EventSubscription) (events : list RpcEvent)
  : option Exn :=
  match events with
  | [] => None
  | event :: rest =>
      match onEvent sub (convertRpcEventToDetail event) with
      | Ok _ => firstFailure sub rest
      | Throw e => Some e
      end
  end.

(** The [onEvent] calls for a list of events. *)
Definition onEventCalls (sub : EventSubscription) (events : list RpcEvent)
  : list Effect :=
  List.map (fun event => CallOnEvent (id sub) (convertRpcEventToDetail event))
           events.

Lemma deliver_eq (sub : EventSubscription) (events : list RpcEvent) :
  forall (m : Monitor) (log : list Effect),
  deliver sub events (m, log)
  = (match firstFailure sub events with None => Ok tt | Some e => Throw e end,
     (m, (log ++ onEventCalls sub (attempted sub events))%list)).
Proof.
  induction events as [|ev events IH]; intros m log;
    cbn [deliver firstFailure attempted onEventCalls List.map].
  - now rewrite app_nil_r.
  - run_eff.
    destruct (onEvent sub (convertRpcEventToDetail ev)) as [[]|e]; cbn [isOk].
    + rewrite IH, <- app_assoc. reflexivity.
    + reflexivity.
Qed.

(** What one poll does, in closed form. *)
Definition pollOutcome (server : Server) (sub : EventSubscription)
    (m : Monitor) : Monitor * list Effect :=
  match getLatestLedger server with
  | Throw e => (m, [CallGetLatestLedger; ConsoleError e])
  | Ok current =>
      if current <=? lastLedger m then (m, [CallGetLatestLedger])
      else
        let request := requestFor sub m current in
        match getEvents server request with
        | Throw e =>
            (m, [CallGetLatestLedger; CallGetEvents request; ConsoleError e])
        | Ok events =>
            let calls := onEventCalls sub (attempted sub events) in
            match firstFailure sub events with
            | None =>
                (set_lastLedger current m,
                 (CallGetLatestLedger :: CallGetEvents request :: calls)%list)
            | Some e =>
                (m, (CallGetLatestLedger :: CallGetEvents request
                       :: calls ++ [ConsoleError e])%list)
            end
        end
  end.

Lemma pollForEvents_eq (server : Server) (i : string) (m : Monitor)
    (log : list Effect) :
  pollForEvents server i (m, log)
  = match SMap_get (subscriptions m) i with
    | None => (Ok tt, (m, log))
    | Some sub =>
        (Ok tt, (fst (pollOutcome server sub m),
                 (log ++ snd (pollOutcome server sub m))%list))
    end.
Proof.
  unfold pollForEvents, pollOutcome. run_eff.
  destruct (SMap_get (subscriptions m) i) as [sub|]; [|reflexivity].
  run_eff. destruct (getLatestLedger server) as [current|e]; run_eff.
  - destruct (current <=? lastLedger m); run_eff; [reflexivity|].
    fold (requestFor sub m current).
    destruct (getEvents server (requestFor sub m current)) as [events|e];
      run_eff.
    + rewrite deliver_eq.
      destruct (firstFailure sub events) as [e|]; run_eff;
        now rewrite <- !app_assoc.
    + now rewrite <- !app_assoc.
  - now rewrite <- !app_assoc.
Qed.

(** The handler of the timer callback never runs. *)
Lemma tick_eq (server : Server) (i : string) (sub : EventSubscription)
    (s : Monitor * list Effect) :
  tick server i sub s = pollForEvents server i s.
Proof.
  destruct s as [m log]. unfold tick, tryCatch. rewrite pollForEvents_eq.
  now destruct (SMap_get (subscriptions m) i).
Qed.

Lemma pollOutcome_registry (server : Server) (sub : EventSubscription)
    (m : Monitor) :
  subscriptions (fst (pollOutcome server sub m)) = subscriptions m
  /\ pollingIntervals (fst (pollOutcome server sub m)) = pollingIntervals m
  /\ lastLedger m <= lastLedger (fst (pollOutcome server sub m)).
Proof.
  unfold pollOutcome.
  destruct (getLatestLedger server) as [current|e]; cbn [fst];
    [|repeat split; lia].
  destruct (Z.leb_spec current (lastLedger m)); cbn [fst];
    [repeat split; lia|].
  destruct (getEvents server (requestFor sub m current)) as [events|e];
    cbn [fst]; [|repeat split; lia].
  destruct (firstFailure sub events); cbn [fst]; repeat split; simpl; lia.
Qed.

Lemma pollForEvents_registry (server : Server) (i : string) (m : Monitor)
    (log : list Effect) :
  let r := pollForEvents server i (m, log) in
  fst r = Ok tt
  /\ subscriptions (fst (snd r)) = subscriptions m
  /\ pollingIntervals (fst (snd r)) = pollingIntervals m
  /\ lastLedger m <= lastLedger (fst (snd r)).
Proof.
  cbv zeta. rewrite pollForEvents_eq.
  destruct (SMap_get (subscriptions m) i) as [sub|]; cbn [fst snd].
  - split; [reflexivity|]. apply pollOutcome_registry.
  - repeat split. lia.
Qed.

(** What [unsubscribeAll] logs for the ids it visits. *)
Definition closingLog (m : Monitor) (ids : list string) : list Effect :=
  flat_map (fun i => (clearedTimer i m ++ closeCall i m)%list) ids.

Lemma closingLog_removed (k : string) (m : Monitor) (ids : list string) :
  ~ In k ids -> closingLog (removed k m) ids = closingLog m ids.
Proof.
  unfold closingLog. induction ids as [|i ids IH]; intros Hout; simpl.
  - reflexivity.
  - assert (Hne : i <> k) by (intros ->; apply Hout; now left).
    rewrite IH by (intros Hin; apply Hout; now right).
    unfold clearedTimer, closeCall, removed, SMap_has; simpl.
    now rewrite !SMap_get_delete_other by exact Hne.
Qed.

Lemma closing_head (k : string) (s : EventSubscription)
    (r : list (string * EventSubscription)) (m : Monitor) :
  subscriptions m = (k, s) :: r ->
  closing k m = match onClose s with Some f => f tt | None => Ok tt end.
Proof.
  intros H. unfold closing. rewrite H. simpl. now rewrite String.eqb_refl.
Qed.

(** The loop of [unsubscribeAll] over the first entries of the registry. *)
Lemma unsubscribeEach_prefix (subs : list (string * EventSubscription)) :
  forall (rest : list (string * EventSubscription)) (m : Monitor)
         (log : list Effect),
  subscriptions m = (subs ++ rest)%list -> wellFormed m ->
  let r := unsubscribeEach (SMap_keys subs) (m, log) in
  wellFormed (fst (snd r))
  /\ lastLedger (fst (snd r)) = lastLedger m
  /\ (forall j, ~ In j (SMap_keys subs) ->
        SMap_get (pollingIntervals (fst (snd r))) j
        = SMap_get (pollingIntervals m) j)
  /\ (fst r = Ok tt ->
      subscriptions (fst (snd r)) = rest
      /\ (forall j, In j (SMap_keys subs) ->
            SMap_get (pollingIntervals (fst (snd r))) j = None)
      /\ snd (snd r) = (log ++ closingLog m (SMap_keys subs))%list)
  /\ (forallb closes (SMap_values subs) = true -> fst r = Ok tt).
Proof.
  induction subs as [|[k s] subs IH]; intros rest m log Hsubs Hwf; cbv zeta;
    cbn [SMap_keys SMap_values List.map unsubscribeEach fst snd].
  - unfold ret; cbn [fst snd].
    split; [exact Hwf|]. split; [reflexivity|]. split; [reflexivity|].
    split; [|reflexivity]. intros _. split; [exact Hsubs|].
    split; [intros j []|]. unfold closingLog. simpl. now rewrite app_nil_r.
  - unfold ebind. rewrite unsubscribe_eq.
    rewrite (closing_head k s (subs ++ rest) m Hsubs).
    assert (Hnd : NoDup (k :: SMap_keys (subs ++ rest))).
    { destruct Hwf as [Hnd _]. now rewrite Hsubs in Hnd. }
    assert (Hk : ~ In k (SMap_keys subs)).
    { inversion Hnd as [|? ? Hout _]; subst. intros Hin. apply Hout.
      unfold SMap_keys. rewrite map_app. apply in_or_app. now left. }
    assert (Ht : NoDup (SMap_keys (pollingIntervals m))) by apply Hwf.
    destruct (match onClose s with Some f => f tt | None => Ok tt end)
      as [[]|e] eqn:Hclose.
    + assert (Hsubs1 : subscriptions (removed k m) = (subs ++ rest)%list).
      { unfold removed; simpl. rewrite Hsubs. simpl.
        now rewrite String.eqb_refl. }
      destruct (IH rest (removed k m)
                   (log ++ clearedTimer k m ++ closeCall k m)%list
                   Hsubs1 (wellFormed_removed k m Hwf))
        as [Hwf' [Hcur [Hkeep [Hok Hall]]]].
      fold (SMap_keys subs).
      split; [exact Hwf'|]. split; [exact Hcur|].
      split; [|split].
      * intros j Hj. rewrite Hkeep by (intros Hin; apply Hj; now right).
        unfold removed; simpl. apply SMap_get_delete_other.
        intros ->. apply Hj. now left.
      * intros Hr. destruct (Hok Hr) as [Hrest [Hgone Hlog]].
        split; [exact Hrest|]. split.
        -- intros j [<-|Hin]; [|now apply Hgone].
           rewrite Hkeep by exact Hk. unfold removed; simpl.
           now apply SMap_get_delete.
        -- rewrite Hlog, closingLog_removed by exact Hk.
           unfold closingLog. simpl. now rewrite <- !app_assoc.
      * intros Hc. apply Hall. now apply andb_prop in Hc.
    + cbn [fst snd]. split; [now apply wellFormed_stopped|].
      split; [reflexivity|]. split; [|split].
      * intros j Hj. unfold stopped; simpl. apply SMap_get_delete_other.
        intros ->. apply Hj. now left.
      * discriminate.
      * intros Hc. apply andb_prop in Hc. destruct Hc as [Hc _].
        unfold closes in Hc. destruct (onClose s) as [f|]; [|discriminate].
        rewrite Hclose in Hc. discriminate.
Qed.

Lemma unsubscribeEach_app (ids1 ids2 : list string)
    (s : Monitor * list Effect) :
  unsubscribeEach (ids1 ++ ids2) s
  = (unsubscribeEach ids1 ;;; unsubscribeEach ids2)%js s.
Proof.
  revert s. induction ids1 as [|i ids1 IH]; intros s; simpl.
  - reflexivity.
  - unfold ebind. destruct (unsubscribe i s) as [[[]|e] s']; [|reflexivity].
    rewrite IH. reflexivity.
Qed.

(** [unsubscribeAll] on a well-formed registry. *)
Lemma unsubscribeAll_spec (m : Monitor) (log : list Effect) :
  wellFormed m ->
  let r := unsubscribeAll (m, log) in
  wellFormed (fst (snd r))
  /\ lastLedger (fst (snd r)) = lastLedger m
  /\ (fst r = Ok tt ->
      subscriptions (fst (snd r)) = [] /\ pollingIntervals (fst (snd r)) = []
      /\ snd (snd r)
         = (log ++ closingLog m (SMap_keys (subscriptions m)))%list)
  /\ (forallb closes (getSubscriptions m) = true -> fst r = Ok tt).
Proof.
  intros Hwf. unfold unsubscribeAll. run_eff.
  destruct (unsubscribeEach_prefix (subscriptions m) [] m log
              (eq_sym (app_nil_r _)) Hwf)
    as [Hwf' [Hcur [_ [Hok Hall]]]].
  split; [exact Hwf'|]. split; [exact Hcur|]. split; [|exact Hall].
  intros Hr. destruct (Hok Hr) as [Hrest [_ Hlog]].
  split; [exact Hrest|]. split; [|exact Hlog].
  apply SMap_keys_nil. destruct Hwf' as [_ [_ Hsub]].
  rewrite Hrest in Hsub.
  destruct (SMap_keys (pollingIntervals _)) as [|j js]; [reflexivity|].
  destruct (Hsub j (or_introl eq_refl)).
Qed.

Lemma destroy_wellFormed (m : Monitor) (log : list Effect) :
  wellFormed m -> wellFormed (fst (snd (destroy (m, log)))).
Proof.
  intros Hwf. unfold destroy, ebind.
  destruct (unsubscribeAll_spec m log Hwf) as [Hwf' [_ [Hok _]]].
  destruct (unsubscribeAll (m, log)) as [[[]|e] [m' log']];
    cbn [fst snd] in *; [|exact Hwf'].
  destruct (Hok eq_refl) as [Hs [Ht _]].
  unfold update, modify; cbn [fst snd]. unfold wellFormed; simpl.
  rewrite Ht. repeat split; try constructor. intros i [].
Qed.

Lemma firstFailure_none (sub : EventSubscription) (events : list RpcEvent) :
  callbacksReturn sub events = true ->
  firstFailure sub events = None /\ attempted sub events = events.
Proof.
  unfold callbacksReturn. induction events as [|ev events IH]; simpl.
  - now split.
  - destruct (onEvent sub (convertRpcEventToDetail ev)) as [[]|e]; simpl;
      [|discriminate].
    intros H. destruct (IH H) as [-> ->]. now split.
Qed.

Lemma firstFailure_at (sub : EventSubscription) (before : list RpcEvent)
    (ev : RpcEvent) (after : list RpcEvent) (e : Exn) :
  callbacksReturn sub before = true ->
  onEvent sub (convertRpcEventToDetail ev) = Throw e ->
  firstFailure sub (before ++ ev :: after) = Some e
  /\ attempted sub (before ++ ev :: after) = (before ++ [ev])%list.
Proof.
  unfold callbacksReturn. intros Hb He.
  induction before as [|b before IH]; simpl in *.
  - rewrite He. now split.
  - destruct (onEvent sub (convertRpcEventToDetail b)) as [[]|e']; simpl in *;
      [|discriminate].
    destruct (IH Hb) as [-> ->]. now split.
Qed.

Lemma SMap_delete_length {V : Type} (m : list (string * V)) (k : string)
    (v : V) :
  SMap_get m k = Some v ->
  S (List.length (SMap_delete m k)) = List.length m.
Proof.
  induction m as [|[k0 v0] m IH]; simpl; [discriminate|].
  destruct (String.eqb k0 k); [reflexivity|].
  intros H. simpl. now rewrite IH.
Qed.

(** The steps a poll can take. *)
Definition pollStep (e : Effect) : bool :=
  match e with
  | CallGetLatestLedger | CallGetEvents _ | CallOnEvent _ _ | ConsoleError _ =>
      true
  | CallOnError _ _ | CallOnClose _ | SetInterval _ | ClearInterval _ => false
  end.

Lemma onEventCalls_steps (sub : EventSubscription) (events : list RpcEvent) :
  forallb pollStep (onEventCalls sub events) = true.
Proof. induction events as [|ev events IH]; simpl; auto. Qed.

Lemma pollOutcome_steps (server : Server) (sub : EventSubscription)
    (m : Monitor) :
  forallb pollStep (snd (pollOutcome server sub m)) = true.
Proof.
  unfold pollOutcome.
  destruct (getLatestLedger server) as [current|e]; [|reflexivity].
  destruct (current <=? lastLedger m); [reflexivity|].
  destruct (getEvents server (requestFor sub m current)) as [events|e];
    [|reflexivity].
  destruct (firstFailure sub events) as [e|]; cbn [snd forallb pollStep andb].
  - rewrite forallb_app, onEventCalls_steps. reflexivity.
  - apply onEventCalls_steps.
Qed.

Lemma poll_steps (server : Server) (i : string) (m : Monitor)
    (log : list Effect) :
  exists steps,
    snd (snd (pollForEvents server i (m, log))) = (log ++ steps)%list
    /\ forallb pollStep steps = true
    /\ pollingIntervals (fst (snd (pollForEvents server i (m, log))))
       = pollingIntervals m.
Proof.
  destruct (pollForEvents_registry server i m log) as [_ [_ [Ht _]]].
  rewrite pollForEvents_eq in *.
  destruct (SMap_get (subscriptions m) i) as [sub|]; cbn [fst snd] in *.
  - exists (snd (pollOutcome server sub m)). split; [reflexivity|].
    split; [apply pollOutcome_steps|exact Ht].
  - exists []. rewrite app_nil_r. now repeat split.
Qed.

(** The operations of a monitor that change it. *)
Inductive Operation : Type :=
| Subscribe (server : Server) (clock : Clock) (sub : EventSubscription)
| Stream (clock : Clock) (sub : EventSubscription)
| Unsubscribe (subscriptionId : string)
| UnsubscribeAll
| Destroy
| Tick (server : Server) (subscriptionId : string) (sub : EventSubscription).

(** The state an operation leaves, whether it returns or throws. *)
Definition perform (s : Monitor * list Effect) (op : Operation)
  : Monitor * list Effect :=
  match op with
  | Subscribe server clock sub => snd (subscribeToEvents server clock sub s)
  | Stream clock sub => snd (streamEvents clock sub s)
  | Unsubscribe i => snd (unsubscribe i s)
  | UnsubscribeAll => snd (unsubscribeAll s)
  | Destroy => snd (destroy s)
  | Tick server i sub => snd (tick server i sub s)
  end.

Lemma perform_wellFormed (op : Operation) (s : Monitor * list Effect) :
  wellFormed (fst s) -> wellFormed (fst (perform s op)).
Proof.
  destruct s as [m log]; cbn [fst]. intros Hwf.
  destruct op as [server clock sub|clock sub|i| | |server i sub];
    cbn [perform].
  - destruct (getLatestLedger server) as [current|error] eqn:Hl.
    + rewrite (subscribeToEvents_ok server clock sub m log current Hl).
      now apply wellFormed_started.
    + rewrite (subscribeToEvents_failed server clock sub m log error Hl).
      now apply wellFormed_registered.
  - rewrite streamEvents_eq. now apply wellFormed_started.
  - now apply unsubscribe_wellFormed.
  - now apply unsubscribeAll_spec.
  - now apply destroy_wellFormed.
  - rewrite tick_eq.
    destruct (pollForEvents_registry server i m log) as [_ [Hs [Ht _]]].
    unfold wellFormed. rewrite Hs, Ht. exact Hwf.
Qed.

(** Every state reached from a new monitor is well formed. *)
Lemma reached_wellFormed (ops : list Operation) :
  wellFormed (fst (fold_left perform ops (create, []))).
Proof.
  assert (Hgen : forall s, wellFormed (fst s) ->
                           wellFormed (fst (fold_left perform ops s))).
  { induction ops as [|op ops IH]; intros s Hwf; simpl; [exact Hwf|].
    apply IH. now apply perform_wellFormed. }
  apply Hgen. exact wellFormed_create.
Qed.

(** What a step does to the number of timers of [i] that run. *)
Definition timerDelta (i : string) (e : Effect) : Z :=
  match e with
  | SetInterval j => if String.eqb j i then 1 else 0
  | ClearInterval j => if String.eqb j i then -1 else 0
  | _ => 0
  end.

(** The timers of [i] that run after the steps of a log: those that were
    set and have not been cleared. *)
Definition running (i : string) (log : list Effect) : Z :=
  fold_right (fun e n => timerDelta i e + n) 0 log.

(** The timers of [i] the monitor holds the handle of: one or none. *)
Definition held (i : string) (m : Monitor) : Z :=
  if SMap_has (pollingIntervals m) i then 1 else 0.

(** The timers of [i] that run and whose handle the monitor has lost. *)
Definition leaked (i : string) (s : Monitor * list Effect) : Z :=
  running i (snd s) - held i (fst s).

(** The operation reaches [startPolling] for the id [i] while the monitor
    holds a timer of [i]. *)
Definition overwrites (i : string) (s : Monitor * list Effect)
    (op : Operation) : bool :=
  match op with
  | Subscribe server clock sub =>
      isOk (getLatestLedger server)
      && String.eqb (generateSubscriptionId clock (sub_contractId sub)) i
      && SMap_has (pollingIntervals (fst s)) i
  | Stream clock sub =>
      String.eqb (generateSubscriptionId clock (sub_contractId sub)) i
      && SMap_has (pollingIntervals (fst s)) i
  | _ => false
  end.

Lemma running_app (i : string) (l1 l2 : list Effect) :
  running i (l1 ++ l2) = running i l1 + running i l2.
Proof.
  unfold running. induction l1 as [|e l1 IH]; simpl; [reflexivity|].
  rewrite IH. lia.
Qed.

Lemma running_pollSteps (i : string) (steps : list Effect) :
  forallb pollStep steps = true -> running i steps = 0.
Proof.
  unfold running. induction steps as [|e steps IH]; simpl; [reflexivity|].
  intros H. apply andb_prop in H. destruct H as [He Hs].
  rewrite (IH Hs). now destruct e.
Qed.

Lemma running_closeCall (i j : string) (m : Monitor) :
  running i (closeCall j m) = 0.
Proof.
  unfold closeCall. destruct (SMap_get (subscriptions m) j) as [sub|];
    [|reflexivity].
  now destruct (onClose sub).
Qed.

Lemma SMap_has_set {V : Type} (t : list (string * V)) (k i : string)
    (v : V) :
  SMap_has (SMap_set t k v) i = String.eqb k i || SMap_has t i.
Proof.
  unfold SMap_has. destruct (String.eqb_spec k i) as [->|Hne].
  - now rewrite SMap_get_set.
  - now rewrite SMap_get_set_other by (intros <-; now apply Hne).
Qed.

Lemma SMap_has_delete {V : Type} (t : list (string * V)) (k i : string) :
  NoDup (SMap_keys t) ->
  SMap_has (SMap_delete t k) i = negb (String.eqb k i) && SMap_has t i.
Proof.
  intros Hnd. unfold SMap_has. destruct (String.eqb_spec k i) as [->|Hne].
  - now rewrite SMap_get_delete.
  - now rewrite SMap_get_delete_other by (intros <-; now apply Hne).
Qed.

(** [unsubscribe] clears the timer whose handle it deletes. *)
Lemma unsubscribe_leaked (i j : string) (m : Monitor) (log : list Effect) :
  wellFormed m ->
  leaked i (snd (unsubscribe j (m, log))) = leaked i (m, log).
Proof.
  intros [_ [Ht _]]. rewrite unsubscribe_eq.
  assert (H : running i (log ++ clearedTimer j m ++ closeCall j m)
              - held i (stopped j m)
              = running i log - held i m).
  { rewrite !running_app, running_closeCall.
    unfold held, stopped, clearedTimer; cbn [pollingIntervals].
    rewrite SMap_has_delete by exact Ht.
    destruct (String.eqb_spec j i) as [->|Hne]; cbn [negb andb].
    - destruct (SMap_has (pollingIntervals m) i); cbn [running fold_right
        timerDelta]; rewrite ?String.eqb_refl; lia.
    - destruct (SMap_has (pollingIntervals m) j); cbn [running fold_right
        timerDelta]; [|lia].
      destruct (String.eqb_spec j i); [contradiction|lia]. }
  destruct (closing j m) as [[]|e]; unfold leaked; cbn [fst snd]; exact H.
Qed.

Lemma unsubscribeEach_leaked (i : string) (ids : list string) :
  forall (m : Monitor) (log : list Effect),
  wellFormed m ->
  leaked i (snd (unsubscribeEach ids (m, log))) = leaked i (m, log).
Proof.
  induction ids as [|j ids IH]; intros m log Hwf; cbn [unsubscribeEach].
  - reflexivity.
  - unfold ebind.
    pose proof (unsubscribe_leaked i j m log Hwf) as Hstep.
    pose proof (unsubscribe_wellFormed j m log Hwf) as Hwf'.
    destruct (unsubscribe j (m, log)) as [[[]|e] [m' log']];
      cbn [fst snd] in *.
    + now rewrite IH.
    + exact Hstep.
Qed.

Lemma started_leaked (i : string) (clock : Clock) (sub : EventSubscription)
    (cursor : Z) (m : Monitor) (log before : list Effect) :
  running i before = 0 ->
  leaked i (started clock sub cursor m,
            (log ++ before
               ++ [SetInterval
                     (generateSubscriptionId clock (sub_contractId sub))])%list)
  = leaked i (m, log)
    + (if String.eqb (generateSubscriptionId clock (sub_contractId sub)) i
          && SMap_has (pollingIntervals m) i
       then 1 else 0).
Proof.
  intros Hb. unfold leaked, held, started; cbn [fst snd pollingIntervals].
  rewrite !running_app, Hb, SMap_has_set.
  cbn [running fold_right timerDelta].
  destruct (String.eqb (generateSubscriptionId clock (sub_contractId sub)) i);
    destruct (SMap_has (pollingIntervals m) i); cbn [orb andb]; lia.
Qed.

(** What an operation does to the timers the monitor has lost. *)
Lemma perform_leaked (i : string) (op : Operation)
    (s : Monitor * list Effect) :
  wellFormed (fst s) ->
  leaked i (perform s op)
  = leaked i s + (if overwrites i s op then 1 else 0).
Proof.
  destruct s as [m log]; cbn [fst]. intros Hwf.
  destruct op as [server clock sub|clock sub|j| | |server j sub];
    cbn [perform overwrites fst].
  - destruct (getLatestLedger server) as [current|error] eqn:Hl; cbn [isOk andb].
    + rewrite (subscribeToEvents_ok server clock sub m log current Hl).
      cbn [snd].
      exact (started_leaked i clock sub current m log [CallGetLatestLedger]
               eq_refl).
    + unfold subscribeToEvents. run_eff. rewrite Hl.
      destruct (onError sub) as [handler|]; run_eff;
        [destruct (handler error) as [[]|thrown]|];
        unfold leaked, held;
        cbn [fst snd pollingIntervals set_subscriptions];
        rewrite !running_app; cbn [running fold_right timerDelta];
        destruct (SMap_has (pollingIntervals m) i); lia.
  - rewrite streamEvents_eq. cbn [snd].
    rewrite <- (started_leaked i clock sub (lastLedger m) m log [] eq_refl).
    reflexivity.
  - rewrite unsubscribe_leaked by exact Hwf. lia.
  - unfold unsubscribeAll. run_eff.
    rewrite unsubscribeEach_leaked by exact Hwf. lia.
  - unfold destroy, unsubscribeAll. run_eff.
    pose proof (unsubscribeEach_leaked i (SMap_keys (subscriptions m)) m log
                  Hwf) as Hall.
    destruct (unsubscribeEach (SMap_keys (subscriptions m)) (m, log))
      as [[[]|e] [m' log']]; cbn [fst snd] in *.
    + unfold leaked, held in *.
      cbn [fst snd pollingIntervals set_subscriptions] in *. lia.
    + lia.
  - rewrite tick_eq.
    destruct (poll_steps server j m log) as [steps [Hlog [Hsteps Ht]]].
    unfold leaked, held. rewrite Hlog, Ht, running_app.
    rewrite (running_pollSteps i steps Hsteps). cbn [fst snd]. lia.
Qed.

(** X8.  Timers set and timers cleared, for operations that run one after
    another and callbacks that do not call the monitor.  For a
    subscription id, count the timers that run after the steps taken so
    far (each [setInterval] for the id, less each [clearInterval]) and take
    away the one whose handle the monitor holds, if it holds one: what is
    left are timers that run and that the monitor can no longer clear.
    Starting from a new monitor, whatever operations are run and whether
    they return or throw: every handle held belongs to a subscription that
    is registered; the number of lost timers of an id is never negative;
    an operation changes it only by adding one, exactly when
    [subscribeToEvents] (once the ledger is fetched) or [streamEvents]
    generates an id that already has a timer, because [startPolling]
    overwrites the handle without clearing the timer; so no operation,
    [destroy] included, stops a lost timer.  For instance after two
    [streamEvents] that generate the same id and a [destroy], one timer of
    that id still runs and the monitor holds no handle at all. *)
Theorem timers_accounted (ops : list Operation) (i : string) :
  let s := fold_left perform ops (create, []) in
  (forall j, In j (SMap_keys (pollingIntervals (fst s))) ->
             In j (SMap_keys (subscriptions (fst s))))
  /\ 0 <= leaked i s
  /\ (forall op,
        leaked i (perform s op)
        = leaked i s + (if overwrites i s op then 1 else 0))
  /\ (forall clock sub,
        let twice :=
          fold_left perform [Stream clock sub; Stream clock sub; Destroy]
                    (create, []) in
        pollingIntervals (fst twice) = []
        /\ leaked (generateSubscriptionId clock (sub_contractId sub)) twice
           = 1).
Proof.
  cbv zeta. split; [|split; [|split]].
  - apply (reached_wellFormed ops).
  - assert (Hgen : forall s, wellFormed (fst s) -> 0 <= leaked i s ->
                             0 <= leaked i (fold_left perform ops s)).
    { induction ops as [|op ops IH]; intros s Hwf Hs; simpl; [exact Hs|].
      apply IH; [now apply perform_wellFormed|].
      rewrite perform_leaked by exact Hwf.
      destruct (overwrites i s op); lia. }
    apply Hgen; [exact wellFormed_create|]. unfold leaked, held. simpl. lia.
  - intros op. apply perform_leaked. apply (reached_wellFormed ops).
  - intros clock sub.
    pose proof (reached_wellFormed [Stream clock sub; Stream clock sub])
      as Hwf2.
    pose proof (reached_wellFormed [Stream clock sub]) as Hwf1.
    cbn [fold_left] in *.
    set (i' := generateSubscriptionId clock (sub_contractId sub)).
    split.
    + cbn [perform]. rewrite streamEvents_eq. cbn [snd].
      rewrite streamEvents_eq. cbn [snd].
      unfold destroy, unsubscribeAll. run_eff.
      unfold started.
      cbn [subscriptions pollingIntervals create SMap_set SMap_keys List.map
           fst].
      fold i'. rewrite String.eqb_refl. cbn [List.map fst unsubscribeEach].
      unfold ebind. rewrite unsubscribe_eq.
      unfold stopped, removed; cbn [subscriptions pollingIntervals SMap_delete
        lastLedger]. rewrite String.eqb_refl.
      destruct (closing _ _) as [[]|e]; reflexivity.
    + rewrite perform_leaked by exact Hwf2.
      rewrite perform_leaked by exact Hwf1.
      rewrite perform_leaked by exact wellFormed_create.
      cbn [overwrites perform fst]. rewrite streamEvents_eq. cbn [fst snd].
      unfold started; cbn [pollingIntervals create SMap_set].
      fold i'. unfold SMap_has; cbn [SMap_get].
      rewrite String.eqb_refl. cbn [andb]. unfold leaked, held. simpl. lia.
Qed.

(** [unsubscribe] of an id that has no subscription. *)
Lemma unsubscribe_absent (i : string) (m : Monitor) (log : list Effect) :
  wellFormed m -> SMap_get (subscriptions m) i = None ->
  unsubscribe i (m, log) = (Ok tt, (m, log)).
Proof.
  intros [_ [_ Hsub]] Hnone. rewrite unsubscribe_eq.
  assert (Ht : SMap_get (pollingIntervals m) i = None).
  { apply SMap_get_None. intros Hin. apply SMap_get_None in Hnone.
    apply Hnone. now apply Hsub. }
  unfold closing, clearedTimer, closeCall, removed, SMap_has.
  rewrite Hnone, Ht, !SMap_delete_absent by assumption.
  rewrite app_nil_r. now destruct m.
Qed.

(** X9.  Unsubscribing an id that is not registered does nothing: it
    returns, calls nothing and leaves the monitor as it is; so a second
    [unsubscribe] of the same id is harmless. *)
Theorem unsubscribe_unknown (i : string) (m : Monitor) (log : list Effect) :
  wellFormed m -> SMap_get (subscriptions m) i = None ->
  unsubscribe i (m, log) = (Ok tt, (m, log)).
Proof.
  intros [_ [_ Hsub]] Hnone. rewrite unsubscribe_eq.
  assert (Ht : SMap_get (pollingIntervals m) i = None).
  { apply SMap_get_None. intros Hin. apply SMap_get_None in Hnone.
    apply Hnone. now apply Hsub. }
  unfold closing, clearedTimer, closeCall, removed, SMap_has.
  rewrite Hnone, Ht, !SMap_delete_absent by assumption.
  rewrite app_nil_r. now destruct m.
Qed.

(** X10.  Unsubscribing a registered id whose [onClose] is absent or
    returns: the call returns, the id has no subscription and no timer
    afterwards, [getSubscriptions] is one shorter, every other id keeps
    its subscription and its timer, the cursor is untouched, and the steps
    taken are the [clearInterval] of its timer, when it had one, then its
    [onClose], when it has one. *)
Theorem unsubscribe_removes (i : string) (sub : EventSubscription)
    (m : Monitor) :
  wellFormed m -> SMap_get (subscriptions m) i = Some sub ->
  closes sub = true ->
  let r := run (unsubscribe i) m in
  fst r = Ok tt
  /\ SMap_get (subscriptions (monitorAfter r)) i = None
  /\ SMap_get (pollingIntervals (monitorAfter r)) i = None
  /\ S (List.length (getSubscriptions (monitorAfter r)))
     = List.length (getSubscriptions m)
  /\ (forall j, j <> i ->
        SMap_get (subscriptions (monitorAfter r)) j
        = SMap_get (subscriptions m) j
        /\ SMap_get (pollingIntervals (monitorAfter r)) j
           = SMap_get (pollingIntervals m) j)
  /\ lastLedger (monitorAfter r) = lastLedger m
  /\ logOf r
     = ((if SMap_has (pollingIntervals m) i then [ClearInterval i] else [])
        ++ match onClose sub with
           | Some _ => [CallOnClose i]
           | None => []
           end)%list.
Proof.
  intros [Hs [Ht _]] Hreg Hc r. subst r. unfold run.
  rewrite unsubscribe_eq.
  assert (Hclose : closing i m = Ok tt).
  { unfold closing. rewrite Hreg. unfold closes in Hc.
    destruct (onClose sub) as [f|]; [|reflexivity].
    now destruct (f tt) as [[]|e]. }
  rewrite Hclose. unfold monitorAfter, logOf, removed, getSubscriptions,
    SMap_values; cbn [fst snd subscriptions pollingIntervals lastLedger app].
  split; [reflexivity|].
  split; [now apply SMap_get_delete|].
  split; [now apply SMap_get_delete|].
  split; [rewrite !length_map; now apply SMap_delete_length with sub|].
  split; [intros j Hne; now rewrite !SMap_get_delete_other by exact Hne|].
  split; [reflexivity|].
  unfold clearedTimer, closeCall. now rewrite Hreg.
Qed.


(** X12.  When the [onClose] of every registered subscription is absent or
    returns, [unsubscribeAll] returns and leaves no subscription and no
    timer; the cursor is untouched; the timers are cleared and the
    [onClose] callbacks called in the order in which the subscriptions
    were registered; and [destroy] does exactly the same. *)
Theorem unsubscribeAll_clears (m : Monitor) :
  wellFormed m -> forallb closes (getSubscriptions m) = true ->
  let r := run unsubscribeAll m in
  fst r = Ok tt
  /\ getSubscriptions (monitorAfter r) = []
  /\ pollingIntervals (monitorAfter r) = []
  /\ lastLedger (monitorAfter r) = lastLedger m
  /\ logOf r
     = flat_map (fun i => (clearedTimer i m ++ closeCall i m)%list)
                (SMap_keys (subscriptions m))
  /\ run destroy m = r.
Proof.
  intros Hwf Hall r.
  destruct (unsubscribeAll_spec m [] Hwf) as [_ [Hcur [Hok Hret]]].
  specialize (Hret Hall). destruct (Hok Hret) as [Hs [Ht Hlog]].
  fold (run unsubscribeAll m) in Hcur, Hret, Hs, Ht, Hlog. fold r in Hcur, Hret, Hs, Ht, Hlog.
  unfold monitorAfter, logOf, getSubscriptions.
  split; [exact Hret|]. split; [now rewrite Hs|]. split; [exact Ht|].
  split; [exact Hcur|]. split; [exact Hlog|].
  unfold run, destroy, ebind. fold (run unsubscribeAll m). fold r.
  destruct r as [[[]|e] [[s t l] log]]; cbn [fst snd] in *; [|discriminate].
  unfold update, modify; cbn [fst snd]. unfold set_subscriptions; simpl in *.
  now rewrite Hs.
Qed.

(** X13.  [destroy] is interrupted by an [onClose] that throws: the
    subscriptions registered before the throwing one are removed, [destroy]
    throws the error without clearing the registry, and the throwing
    subscription and every subscription registered after it stay
    registered, those after it with their timers still running. *)
Theorem destroy_interrupted (m : Monitor)
    (before after : list (string * EventSubscription)) (i : string)
    (sub : EventSubscription) (f : unit -> Result unit) (e : Exn) :
  wellFormed m ->
  subscriptions m = (before ++ (i, sub) :: after)%list ->
  forallb closes (SMap_values before) = true ->
  onClose sub = Some f -> f tt = Throw e ->
  let r := run destroy m in
  fst r = Throw e
  /\ subscriptions (monitorAfter r) = (i, sub) :: after
  /\ SMap_get (pollingIntervals (monitorAfter r)) i = None
  /\ (forall j, In j (SMap_keys after) ->
        SMap_get (pollingIntervals (monitorAfter r)) j
        = SMap_get (pollingIntervals m) j).
Proof.
  intros Hwf Hsubs Hall Hf He r. subst r.
  unfold run, destroy, unsubscribeAll. run_eff.
  rewrite Hsubs. unfold SMap_keys. rewrite map_app. cbn [List.map fst].
  fold (SMap_keys before). fold (SMap_keys after).
  rewrite unsubscribeEach_app. unfold ebind.
  destruct (unsubscribeEach_prefix before ((i, sub) :: after) m [] Hsubs Hwf)
    as [Hwf1 [_ [Hkeep [Hok Hret]]]].
  specialize (Hret Hall). destruct (Hok Hret) as [Hs1 [_ _]].
  destruct (unsubscribeEach (SMap_keys before) (m, [])) as [[[]|e1] [m1 log1]];
    cbn [fst snd] in *; [|discriminate].
  cbn [unsubscribeEach]. unfold ebind. rewrite unsubscribe_eq.
  rewrite (closing_head i sub after m1 Hs1), Hf, He.
  unfold monitorAfter, stopped; cbn [fst snd subscriptions pollingIntervals].
  assert (Hnd : NoDup (SMap_keys (before ++ (i, sub) :: after))).
  { destruct Hwf as [Hnd _]. now rewrite Hsubs in Hnd. }
  unfold SMap_keys in Hnd. rewrite map_app in Hnd. cbn [List.map fst] in Hnd.
  split; [reflexivity|]. split; [exact Hs1|].
  split; [apply SMap_get_delete; apply Hwf1|].
  intros j Hj.
  assert (Hji : j <> i).
  { intros ->. apply NoDup_remove_2 in Hnd. apply Hnd. apply in_or_app.
    now right. }
  rewrite SMap_get_delete_other by exact Hji. apply Hkeep.
  intros Hin.
  assert (Hdis : forall x, In x (List.map fst before) ->
                           ~ In x (i :: List.map fst after)).
  { revert Hnd. clear. induction before as [|[k v] before IH]; simpl.
    - intros _ x [].
    - intros Hnd x [<-|Hx].
      + inversion Hnd as [|? ? Hout _]; subst. intros Hin. apply Hout.
        apply in_or_app. now right.
      + inversion Hnd; subst. now apply IH. }
  apply (Hdis j Hin). now right.
Qed.

Lemma deliverTo_onEvent (sub : EventSubscription) (events : list RpcEvent)
    (s : Monitor * list Effect) :
  deliverTo (fun event => lift (onEvent sub event)) sub events s
  = deliver sub events s.
Proof.
  revert s. induction events as [|ev events IH]; intros s;
    cbn [deliverTo deliver]; [reflexivity|].
  unfold ebind. destruct (emit _ s) as [[[]|e] s1]; [|reflexivity].
  destruct (lift _ s1) as [[[]|e] s2]; [|reflexivity].
  apply IH.
Qed.

Lemma closes_closing (i : string) (sub : EventSubscription) (m : Monitor) :
  SMap_get (subscriptions m) i = Some sub -> closes sub = true ->
  closing i m = Ok tt.
Proof.
  unfold closes, closing. intros ->.
  destruct (onClose sub) as [f|]; [|reflexivity].
  now destruct (f tt) as [[]|e].
Qed.

(** Once the id is gone, an [onEvent] that unsubscribes it does nothing
    more. *)
Lemma deliverTo_unsubscribed (i : string) (sub : EventSubscription)
    (events : list RpcEvent) :
  forall (m : Monitor) (log : list Effect),
  wellFormed m -> SMap_get (subscriptions m) i = None ->
  deliverTo (fun _ => unsubscribe i) sub events (m, log)
  = (Ok tt, (m, (log ++ onEventCalls sub events)%list)).
Proof.
  induction events as [|ev events IH]; intros m log Hwf Hnone;
    cbn [deliverTo onEventCalls List.map].
  - unfold ret. now rewrite app_nil_r.
  - unfold ebind, emit, modify; cbn [fst snd].
    rewrite unsubscribe_absent by assumption.
    rewrite IH by assumption. now rewrite <- app_assoc.
Qed.

(** X14.  A poll that runs in one piece never throws, whatever the server
    answers and whether the callbacks return or throw.  With callbacks
    that do not call the monitor themselves: it returns, leaves the
    registry and the timers as they are, and its only steps are the ledger
    fetch, the event query, [onEvent] calls and [console.error]; the
    [onError] of the subscription is never called, so the timer callback,
    which wraps the poll in a [try] whose handler calls [onError], behaves
    exactly as the poll.  The registry can change during a poll only
    through a callback: with an [onEvent] that unsubscribes its own id
    (and an [onClose] that is absent or returns), a poll that gets events
    still returns and still hands every event of the answer to the
    callback, since it kept the subscription it read at its start, but
    after it the id has no subscription and no timer; the timer is cleared
    and [onClose] called once, after the first event, and the cursor is
    moved to the ledger seen. *)
Theorem poll_never_throws (server : Server) (i : string)
    (sub : EventSubscription) (m : Monitor) (log : list Effect) :
  (let r := pollForEvents server i (m, log) in
   fst r = Ok tt
   /\ subscriptions (fst (snd r)) = subscriptions m
   /\ pollingIntervals (fst (snd r)) = pollingIntervals m
   /\ (exists steps, snd (snd r) = (log ++ steps)%list
                     /\ forallb pollStep steps = true)
   /\ tick server i sub (m, log) = r)
  /\ (SMap_get (subscriptions m) i = Some sub ->
      pollForEventsTo (fun event => lift (onEvent sub event)) server i (m, log)
      = pollForEvents server i (m, log))
  /\ (forall current event events,
        wellFormed m ->
        SMap_get (subscriptions m) i = Some sub ->
        closes sub = true ->
        getLatestLedger server = Ok current ->
        lastLedger m < current ->
        getEvents server (requestFor sub m current) = Ok (event :: events) ->
        pollForEventsTo (fun _ => unsubscribe i) server i (m, log)
        = (Ok tt,
           (set_lastLedger current (removed i m),
            (log ++ [CallGetLatestLedger;
                     CallGetEvents (requestFor sub m current);
                     CallOnEvent (id sub) (convertRpcEventToDetail event)]
                 ++ clearedTimer i m ++ closeCall i m
                 ++ onEventCalls sub events)%list))).
Proof.
  split; [|split].
  - cbv zeta.
    destruct (pollForEvents_registry server i m log) as [Hr [Hs [Ht _]]].
    split; [exact Hr|]. split; [exact Hs|]. split; [exact Ht|].
    split; [|apply tick_eq].
    rewrite pollForEvents_eq.
    destruct (SMap_get (subscriptions m) i) as [sub'|]; cbn [fst snd].
    + exists (snd (pollOutcome server sub' m)). split; [reflexivity|].
      apply pollOutcome_steps.
    + exists []. now rewrite app_nil_r.
  - intros Hsub. set (react := fun event => lift (onEvent sub event)).
    unfold pollForEventsTo, pollForEvents. run_eff.
    rewrite Hsub. run_eff.
    destruct (getLatestLedger server) as [current|e]; run_eff; [|reflexivity].
    destruct (current <=? lastLedger m); run_eff; [reflexivity|].
    destruct (getEvents server _) as [events|e]; run_eff; [|reflexivity].
    subst react. now rewrite deliverTo_onEvent.
  - intros current event events Hwf Hsub Hclose Hl Hlt He.
    assert (Hle : (current <=? lastLedger m) = false)
      by (apply Z.leb_gt; lia).
    unfold requestFor in *. unfold pollForEventsTo. run_eff.
    rewrite Hsub. run_eff. rewrite Hl. run_eff. rewrite Hle. run_eff.
    rewrite He. run_eff. cbn [deliverTo]. run_eff.
    rewrite unsubscribe_eq, (closes_closing i sub m Hsub Hclose).
    rewrite deliverTo_unsubscribed.
    + cbn [fst snd]. unfold removed, set_lastLedger;
        cbn [subscriptions pollingIntervals lastLedger].
      now rewrite <- !app_assoc.
    + now apply wellFormed_removed.
    + unfold removed; cbn [subscriptions]. apply SMap_get_delete.
      apply Hwf.
Qed.

Section RegisteredPoll.
Variables (server : Server) (i : string) (sub : EventSubscription)
          (m : Monitor).
Hypothesis isRegistered : SMap_get (subscriptions m) i = Some sub.

Lemma poll_outcome :
  poll server i m = (Ok tt, pollOutcome server sub m).
Proof.
  unfold poll, run. rewrite pollForEvents_eq, isRegistered.
  now destruct (pollOutcome server sub m).
Qed.

(** X15.  A failure of the server during a poll is swallowed.  When the
    fetch of the latest ledger fails, or when it shows a new ledger and the
    event query fails, the poll returns, logs the error with
    [console.error] as its last step, calls no callback, and leaves the
    monitor, the cursor included, as it was; so the next poll asks for the
    same ledgers again. *)
Theorem poll_rpc_failure (e : Exn) :
  (getLatestLedger server = Throw e ->
   poll server i m = (Ok tt, (m, [CallGetLatestLedger; ConsoleError e])))
  /\ (forall current,
        getLatestLedger server = Ok current -> lastLedger m < current ->
        getEvents server (requestFor sub m current) = Throw e ->
        poll server i m
        = (Ok tt, (m, [CallGetLatestLedger;
                       CallGetEvents (requestFor sub m current);
                       ConsoleError e])))
  /\ (forall server' current,
        (getLatestLedger server = Throw e
         \/ exists seen, getLatestLedger server = Ok seen
                         /\ lastLedger m < seen
                         /\ getEvents server (requestFor sub m seen)
                            = Throw e) ->
        getLatestLedger server' = Ok current -> lastLedger m < current ->
        queries (logOf (poll server' i (monitorAfter (poll server i m))))
        = [requestFor sub m current]).
Proof.
  assert (H1 : getLatestLedger server = Throw e ->
               poll server i m
               = (Ok tt, (m, [CallGetLatestLedger; ConsoleError e]))).
  { intros Hl. rewrite poll_outcome. unfold pollOutcome. now rewrite Hl. }
  assert (H2 : forall current,
             getLatestLedger server = Ok current -> lastLedger m < current ->
             getEvents server (requestFor sub m current) = Throw e ->
             poll server i m
             = (Ok tt, (m, [CallGetLatestLedger;
                            CallGetEvents (requestFor sub m current);
                            ConsoleError e]))).
  { intros current Hl Hlt He. rewrite poll_outcome. unfold pollOutcome.
    now rewrite Hl, (proj2 (Z.leb_gt _ _) Hlt), He. }
  split; [exact H1|]. split; [exact H2|].
  intros server' current Hfail Hl' Hlt'.
  assert (Hsame : monitorAfter (poll server i m) = m).
  { destruct Hfail as [Hl|[seen [Hl [Hlt He]]]].
    - now rewrite (H1 Hl).
    - now rewrite (H2 seen Hl Hlt He). }
  rewrite Hsame.
  unfold poll, run. rewrite pollForEvents_eq, isRegistered.
  unfold logOf; cbn [fst snd app]. unfold pollOutcome.
  rewrite Hl', (proj2 (Z.leb_gt _ _) Hlt').
  destruct (getEvents server' (requestFor sub m current)) as [events|e'];
    [|reflexivity].
  assert (Hq : forall l, queries (onEventCalls sub l) = []).
  { induction l as [|x l IH]; simpl; auto. }
  destruct (firstFailure sub events) as [e'|]; cbn [snd queries flat_map app].
  - fold (queries (onEventCalls sub (attempted sub events) ++ [ConsoleError e'])).
    now rewrite queries_app, Hq.
  - fold (queries (onEventCalls sub (attempted sub events))).
    now rewrite Hq.
Qed.

(** X16.  The events of a response are handed to [onEvent] one by one in
    the order of the response, each converted by [convertRpcEventToDetail]
    and under the id of the subscription.  When every call returns, all of
    them are delivered and the cursor moves to the ledger seen.  When a
    call throws, the events after it are not delivered, the error is
    logged with [console.error], and the cursor stays, so the events
    already delivered are delivered again by the next poll that
    succeeds. *)
Theorem poll_delivery_order (current : Z) (events : list RpcEvent) :
  getLatestLedger server = Ok current -> lastLedger m < current ->
  getEvents server (requestFor sub m current) = Ok events ->
  (callbacksReturn sub events = true ->
   poll server i m
   = (Ok tt,
      (set_lastLedger current m,
       CallGetLatestLedger :: CallGetEvents (requestFor sub m current)
         :: List.map (fun ev => CallOnEvent (id sub)
                                  (convertRpcEventToDetail ev)) events)))
  /\ (forall before ev after e,
        events = (before ++ ev :: after)%list ->
        callbacksReturn sub before = true ->
        onEvent sub (convertRpcEventToDetail ev) = Throw e ->
        poll server i m
        = (Ok tt,
           (m,
            (CallGetLatestLedger :: CallGetEvents (requestFor sub m current)
               :: List.map (fun ev => CallOnEvent (id sub)
                                        (convertRpcEventToDetail ev))
                           (before ++ [ev])
               ++ [ConsoleError e])%list))).
Proof.
  intros Hl Hlt He. split.
  - intros Hcb. rewrite poll_outcome. unfold pollOutcome.
    rewrite Hl, (proj2 (Z.leb_gt _ _) Hlt), He.
    destruct (firstFailure_none sub events Hcb) as [-> ->]. reflexivity.
  - intros before ev after e Hsplit Hcb Hthrow.
    rewrite poll_outcome. unfold pollOutcome.
    rewrite Hl, (proj2 (Z.leb_gt _ _) Hlt), He, Hsplit.
    destruct (firstFailure_at sub before ev after e Hcb Hthrow) as [-> ->].
    reflexivity.
Qed.

End RegisteredPoll.








(** X18.  [streamEvents] registers the subscription and starts its timer
    as [subscribeToEvents] does, but makes no call to the server, leaves
    the cursor where it is and cannot fail.  So the first poll after it
    that sees a ledger beyond the cursor asks for every ledger from the
    cursor plus one, whereas after a [subscribeToEvents] that fetched the
    ledger [current], a poll that sees [current] asks for nothing. *)
Theorem stream_then_poll (clock : Clock) (sub : EventSubscription)
    (m : Monitor) (server : Server) (current : Z) :
  getLatestLedger server = Ok current -> lastLedger m < current ->
  let i := generateSubscriptionId clock (sub_contractId sub) in
  let streamed := run (streamEvents clock sub) m in
  let subscribed := run (subscribeToEvents server clock sub) m in
  streamed = (Ok i, (started clock sub (lastLedger m) m, [SetInterval i]))
  /\ queries (logOf (poll server i (monitorAfter streamed)))
     = [mkRequest (lastLedger m + 1) current [sub_contractId sub]
                  (eventTypes sub)]
  /\ fst subscribed = Ok i
  /\ poll server i (monitorAfter subscribed)
     = (Ok tt, (monitorAfter subscribed, [CallGetLatestLedger])).
Proof.
  intros Hl Hlt i streamed subscribed.
  assert (Hstream : streamed
                    = (Ok i, (started clock sub (lastLedger m) m,
                              [SetInterval i]))).
  { subst streamed. unfold run. now rewrite streamEvents_eq. }
  assert (Hsub : subscribed
                 = (Ok i, (started clock sub current m,
                           [CallGetLatestLedger; SetInterval i]))).
  { subst subscribed. unfold run.
    now rewrite (subscribeToEvents_ok server clock sub m [] current Hl). }
  assert (Hreg : forall cursor,
             SMap_get (subscriptions (started clock sub cursor m)) i
             = Some (entryOf clock sub)).
  { intros cursor. unfold started; simpl. apply SMap_get_set. }
  rewrite Hstream, Hsub. unfold monitorAfter; cbn [fst snd].
  split; [reflexivity|]. split; [|split; [reflexivity|]].
  - rewrite (poll_outcome server i (entryOf clock sub) _ (Hreg _)).
    unfold pollOutcome, logOf. cbn [fst snd].
    rewrite Hl. cbn [lastLedger started].
    rewrite (proj2 (Z.leb_gt _ _) Hlt).
    assert (Hq : forall l, queries (onEventCalls (entryOf clock sub) l) = []).
    { induction l as [|x l IH]; simpl; auto. }
    destruct (getEvents server _) as [events|e]; [|reflexivity].
    destruct (firstFailure _ events) as [e|]; cbn [snd queries flat_map app].
    + fold (queries (onEventCalls (entryOf clock sub)
                       (attempted (entryOf clock sub) events)
                     ++ [ConsoleError e])).
      now rewrite queries_app, Hq.
    + fold (queries (onEventCalls (entryOf clock sub)
                       (attempted (entryOf clock sub) events))).
      now rewrite Hq.
  - rewrite (poll_outcome server i (entryOf clock sub) _ (Hreg _)).
    unfold pollOutcome. rewrite Hl. cbn [lastLedger started].
    now rewrite Z.leb_refl.
Qed.

(** X19.  Subscribing and then unsubscribing the id returned gives back
    the registry as it was: when the id generated is not registered yet
    and [onClose] is absent or returns, the subscriptions and the timers
    after the [unsubscribe] are those from before the [subscribeToEvents];
    only the cursor keeps the ledger fetched. *)
Theorem subscribe_then_unsubscribe (server : Server) (clock : Clock)
    (sub : EventSubscription) (m : Monitor) (current : Z) :
  wellFormed m ->
  getLatestLedger server = Ok current ->
  SMap_get (subscriptions m)
           (generateSubscriptionId clock (sub_contractId sub)) = None ->
  closes sub = true ->
  let subscribed := run (subscribeToEvents server clock sub) m in
  exists i,
    fst subscribed = Ok i
    /\ List.length (getSubscriptions (monitorAfter subscribed))
       = S (List.length (getSubscriptions m))
    /\ run (unsubscribe i) (monitorAfter subscribed)
       = (Ok tt,
          (mkMonitor (subscriptions m) (pollingIntervals m) current,
           (ClearInterval i
              :: match onClose sub with
                 | Some _ => [CallOnClose i]
                 | None => []
                 end))).
Proof.
  intros [_ [_ Hsub]] Hl Hfresh Hc subscribed.
  exists (generateSubscriptionId clock (sub_contractId sub)).
  set (i := generateSubscriptionId clock (sub_contractId sub)) in *.
  assert (Ht : SMap_get (pollingIntervals m) i = None).
  { apply SMap_get_None. intros Hin. apply SMap_get_None in Hfresh.
    apply Hfresh. now apply Hsub. }
  subst subscribed. unfold run.
  rewrite (subscribeToEvents_ok server clock sub m [] current Hl).
  fold i. unfold monitorAfter; cbn [fst snd].
  split; [reflexivity|]. split.
  - unfold getSubscriptions, SMap_values, started; simpl.
    rewrite !length_map. fold i.
    assert (Hlen : forall (l : list (string * EventSubscription)) v,
               SMap_get l i = None ->
               List.length (SMap_set l i v) = S (List.length l)).
    { induction l as [|[k0 v0] l IH]; simpl; intros v H; [reflexivity|].
      destruct (String.eqb k0 i); [discriminate|]. simpl. now rewrite IH. }
    now apply Hlen.
  - rewrite unsubscribe_eq.
    unfold closing, clearedTimer, closeCall, removed, started, SMap_has;
      cbn [subscriptions pollingIntervals lastLedger]. fold i.
    rewrite !SMap_get_set, !SMap_delete_set_fresh by assumption.
    unfold entryOf; cbn [onClose]. unfold closes in Hc.
    destruct (onClose sub) as [f|]; [|reflexivity].
    now destruct (f tt) as [[]|e].
Qed.

End MonitorRegistry.

Section RegistryChecks.
Import ContractEventMonitor.

(** The strings of a list are pairwise different. *)
Fixpoint distinct (l : list string) : bool :=
  match l with
  | [] => true
  | x :: r => negb (existsb (String.eqb x) r) && distinct r
  end.

(** [wellFormed], as a test. *)
Definition wellFormedb (m : Monitor) : bool :=
  distinct (SMap_keys (subscriptions m))
  && distinct (SMap_keys (pollingIntervals m))
  && forallb (fun i => existsb (String.eqb i) (SMap_keys (subscriptions m)))
             (SMap_keys (pollingIntervals m)).

Lemma existsb_eqb_In (x : string) (l : list string) :
  existsb (String.eqb x) l = true <-> In x l.
Proof.
  rewrite existsb_exists. split.
  - intros [y [Hin Heq]]. apply String.eqb_eq in Heq. now subst.
  - intros Hin. exists x. split; [exact Hin | apply String.eqb_refl].
Qed.

Lemma distinct_NoDup (l : list string) : distinct l = true -> NoDup l.
Proof.
  induction l as [|x l IH]; simpl; intros H; constructor.
  - apply andb_prop in H. destruct H as [H _].
    intros Hin. apply existsb_eqb_In in Hin. rewrite Hin in H. discriminate.
  - apply IH. now apply andb_prop in H.
Qed.

Lemma wellFormedb_spec (m : Monitor) : wellFormedb m = true -> wellFormed m.
Proof.
  unfold wellFormedb, wellFormed. intros H.
  apply andb_prop in H. destruct H as [H H3].
  apply andb_prop in H. destruct H as [H1 H2].
  split; [now apply distinct_NoDup|]. split; [now apply distinct_NoDup|].
  intros i Hin. rewrite forallb_forall in H3.
  now apply existsb_eqb_In, H3.
Qed.
End RegistryChecks.

(** More fixtures for the monitor. *)
Module RegistryExamples.
Import ContractEventMonitor MonitorExamples.

(** A subscription whose [onClose] returns. *)
Definition closable (name contract : string) : EventSubscription :=
  mkSubscription name contract None (fun _ => Ok tt) None
                 (Some (fun _ => Ok tt)).

(** A subscription whose [onClose] throws. *)
Definition badClose (name contract : string) : EventSubscription :=
  mkSubscription name contract None (fun _ => Ok tt) None
                 (Some (fun _ => Throw (Error "close failed"))).

(** Three subscriptions with their timers; the second one has the
    [onClose] that throws. *)
Definition threeSubscriptions : Monitor :=
  let entries :=
    [("sub-1", closable "sub-1" "CA"); ("sub-2", badClose "sub-2" "CB");
     ("sub-3", quiet "sub-3" "CC")] in
  mkMonitor entries entries 100.

(** A server whose ledger is [current] and whose event query fails. *)
Definition queryFails (current : Z) : Server :=
  mkServer (Ok current) (fun _ => Throw (Error "query failed")).

(** A second event, which the [onEvent] of [picky] refuses. *)
Definition otherEvent : RpcEvent :=
  mkRpcEvent (Some "CA") "system" None None None (Some 121) None.

(** A subscription whose [onEvent] throws on events of type "system". *)
Definition picky : EventSubscription :=
  mkSubscription "sub-1" "CA" None
    (fun event => if String.eqb (type event) "system"
                  then Throw (Error "refused") else Ok tt)
    None None.

End RegistryExamples.

Section RegistryWitnesses.
Import ContractEventMonitor MonitorExamples RegistryExamples.

Lemma timers_accounted_witness :
  let i := generateSubscriptionId clock "CABCDEFGHIJK" in
  let twice :=
    fold_left perform
      [Stream clock (quiet "" "CABCDEFGHIJK");
       Stream clock (quiet "" "CABCDEFGHIJK"); Destroy] (create, []) in
  snd twice = [SetInterval i; SetInterval i; ClearInterval i]
  /\ pollingIntervals (fst twice) = []
  /\ leaked i twice = 1.
Proof.
  intros i twice. split; [reflexivity|].
  destruct (timers_accounted [] i) as [_ [_ [_ H]]].
  exact (H clock (quiet "" "CABCDEFGHIJK")).
Defined.

Lemma poll_never_throws_witness :
  pollForEventsTo (fun _ => unsubscribe "sub-1")
    (serverAt 150 [anEvent; anEvent]) "sub-1"
    (oneSubscription (closable "sub-1" "CA") 100, [])
  = (Ok tt,
     (mkMonitor [] [] 150,
      [CallGetLatestLedger; CallGetEvents (mkRequest 101 150 ["CA"] None);
       CallOnEvent "sub-1" (convertRpcEventToDetail anEvent);
       ClearInterval "sub-1"; CallOnClose "sub-1";
       CallOnEvent "sub-1" (convertRpcEventToDetail anEvent)])).
Proof.
  destruct (poll_never_throws (serverAt 150 [anEvent; anEvent]) "sub-1"
              (closable "sub-1" "CA")
              (oneSubscription (closable "sub-1" "CA") 100) [])
    as [_ [_ H]].
  exact (H 150 anEvent [anEvent]
           (wellFormedb_spec (oneSubscription (closable "sub-1" "CA") 100)
              eq_refl)
           eq_refl eq_refl eq_refl eq_refl eq_refl).
Defined.


Lemma unsubscribe_unknown_witness :
  unsubscribe "sub-9" (twoSubscriptions 100, [])
  = (Ok tt, (twoSubscriptions 100, [])).
Proof.
  apply unsubscribe_unknown.
  - apply wellFormedb_spec. reflexivity.
  - reflexivity.
Defined.

Lemma unsubscribe_removes_witness :
  let r := run (unsubscribe "sub-1") (twoSubscriptions 100) in
  fst r = Ok tt
  /\ SMap_get (subscriptions (monitorAfter r)) "sub-1" = None
  /\ SMap_get (pollingIntervals (monitorAfter r)) "sub-1" = None
  /\ S (List.length (getSubscriptions (monitorAfter r))) = 2%nat
  /\ logOf r = [ClearInterval "sub-1"].
Proof.
  intros r.
  destruct (unsubscribe_removes "sub-1" (quiet "sub-1" "CA")
              (twoSubscriptions 100) (wellFormedb_spec (twoSubscriptions 100) eq_refl)
              eq_refl eq_refl)
    as [H1 [H2 [H3 [H4 [_ [_ H5]]]]]].
  exact (conj H1 (conj H2 (conj H3 (conj H4 H5)))).
Defined.


Lemma unsubscribeAll_clears_witness :
  let r := run unsubscribeAll (twoSubscriptions 100) in
  fst r = Ok tt
  /\ getSubscriptions (monitorAfter r) = []
  /\ pollingIntervals (monitorAfter r) = []
  /\ lastLedger (monitorAfter r) = 100
  /\ logOf r = [ClearInterval "sub-1"; ClearInterval "sub-2"]
  /\ run destroy (twoSubscriptions 100) = r.
Proof.
  exact (unsubscribeAll_clears (twoSubscriptions 100)
           (wellFormedb_spec (twoSubscriptions 100) eq_refl) eq_refl).
Defined.

Lemma destroy_interrupted_witness :
  let r := run destroy threeSubscriptions in
  fst r = Throw (Error "close failed")
  /\ subscriptions (monitorAfter r)
     = [("sub-2", badClose "sub-2" "CB"); ("sub-3", quiet "sub-3" "CC")]
  /\ SMap_get (pollingIntervals (monitorAfter r)) "sub-2" = None
  /\ SMap_get (pollingIntervals (monitorAfter r)) "sub-3"
     = Some (quiet "sub-3" "CC").
Proof.
  intros r.
  destruct (destroy_interrupted threeSubscriptions
              [("sub-1", closable "sub-1" "CA")]
              [("sub-3", quiet "sub-3" "CC")] "sub-2" (badClose "sub-2" "CB")
              (fun _ => Throw (Error "close failed")) (Error "close failed")
              (wellFormedb_spec (threeSubscriptions) eq_refl) eq_refl eq_refl eq_refl eq_refl)
    as [H1 [H2 [H3 H4]]].
  exact (conj H1 (conj H2 (conj H3 (H4 "sub-3" (or_introl eq_refl))))).
Defined.

Lemma poll_rpc_failure_witness :
  poll down "sub-1" (oneSubscription (quiet "sub-1" "CA") 100)
  = (Ok tt, (oneSubscription (quiet "sub-1" "CA") 100,
             [CallGetLatestLedger; ConsoleError (Error "Network error")]))
  /\ poll (queryFails 150) "sub-1" (oneSubscription (quiet "sub-1" "CA") 100)
     = (Ok tt, (oneSubscription (quiet "sub-1" "CA") 100,
                [CallGetLatestLedger;
                 CallGetEvents (mkRequest 101 150 ["CA"] None);
                 ConsoleError (Error "query failed")])).
Proof.
  split.
  - destruct (poll_rpc_failure down "sub-1" (quiet "sub-1" "CA")
                (oneSubscription (quiet "sub-1" "CA") 100) eq_refl
                (Error "Network error")) as [H _].
    exact (H eq_refl).
  - destruct (poll_rpc_failure (queryFails 150) "sub-1" (quiet "sub-1" "CA")
                (oneSubscription (quiet "sub-1" "CA") 100) eq_refl
                (Error "query failed")) as [_ [H _]].
    apply (H 150); [reflexivity | reflexivity | reflexivity].
Defined.

Lemma poll_delivery_order_witness :
  poll (serverAt 150 [anEvent; otherEvent; anEvent]) "sub-1"
       (oneSubscription picky 100)
  = (Ok tt,
     (oneSubscription picky 100,
      [CallGetLatestLedger; CallGetEvents (mkRequest 101 150 ["CA"] None);
       CallOnEvent "sub-1" (convertRpcEventToDetail anEvent);
       CallOnEvent "sub-1" (convertRpcEventToDetail otherEvent);
       ConsoleError (Error "refused")])).
Proof.
  destruct (poll_delivery_order (serverAt 150 [anEvent; otherEvent; anEvent])
              "sub-1" picky (oneSubscription picky 100) eq_refl 150
              [anEvent; otherEvent; anEvent] eq_refl eq_refl eq_refl)
    as [_ H].
  apply (H [anEvent] otherEvent [anEvent] (Error "refused"));
    reflexivity.
Defined.

Lemma stream_then_poll_witness :
  let i := generateSubscriptionId clock "CABCDEFGHIJK" in
  let streamed := run (streamEvents clock (quiet "" "CABCDEFGHIJK")) create in
  queries (logOf (poll (serverAt 150 []) i (monitorAfter streamed)))
  = [mkRequest 1 150 ["CABCDEFGHIJK"] None].
Proof.
  intros i streamed.
  assert (Hlt : lastLedger create < 150) by (simpl; lia).
  destruct (stream_then_poll clock (quiet "" "CABCDEFGHIJK") create
              (serverAt 150 []) 150 eq_refl Hlt) as [_ [H _]].
  exact H.
Defined.

Lemma subscribe_then_unsubscribe_witness :
  let subscribed :=
    run (subscribeToEvents (serverAt 150 []) clock
           (closable "" "CABCDEFGHIJK")) create in
  exists i,
    fst subscribed = Ok i
    /\ List.length (getSubscriptions (monitorAfter subscribed)) = 1%nat
    /\ run (unsubscribe i) (monitorAfter subscribed)
       = (Ok tt, (mkMonitor [] [] 150, [ClearInterval i; CallOnClose i])).
Proof.
  exact (subscribe_then_unsubscribe (serverAt 150 []) clock
           (closable "" "CABCDEFGHIJK") create 150
           (wellFormedb_spec (create) eq_refl) eq_refl eq_refl eq_refl).
Defined.

End RegistryWitnesses.

(* ===================================================================== *)
(** * Statistics and filters over events                                  *)
(* ===================================================================== *)

Section EventStatistics.
Import ContractEventMonitor.

Lemma SSet_add_In (s : list string) (x y : string) :
  In y (SSet_add s x) <-> y = x \/ In y s.
Proof.
  induction s as [|z s IH]; simpl.
  - intuition.
  - destruct (String.eqb_spec z x) as [->|Hne]; simpl.
    + intuition.
    + rewrite IH. intuition.
Qed.

Lemma SSet_add_NoDup (s : list string) (x : string) :
  NoDup s -> NoDup (SSet_add s x).
Proof.
  induction s as [|z s IH]; simpl; intros Hnd.
  - constructor; [intros []|constructor].
  - inversion Hnd as [|? ? Hout Hnd']; subst.
    destruct (String.eqb_spec z x) as [->|Hne]; [exact Hnd|].
    constructor; [|now apply IH].
    rewrite SSet_add_In. intros [Heq|Hin]; [now apply Hne | now apply Hout].
Qed.

Lemma SSet_of_spec (xs : list string) :
  NoDup (SSet_of xs) /\ (forall y, In y (SSet_of xs) <-> In y xs).
Proof.
  unfold SSet_of.
  assert (Hgen : forall acc, NoDup acc ->
             NoDup (fold_left SSet_add xs acc)
             /\ (forall y, In y (fold_left SSet_add xs acc)
                           <-> In y acc \/ In y xs)).
  { induction xs as [|x xs IH]; intros acc Hnd; simpl.
    - split; [exact Hnd|]. intuition.
    - destruct (IH (SSet_add acc x) (SSet_add_NoDup acc x Hnd)) as [H1 H2].
      split; [exact H1|]. intros y. rewrite H2, SSet_add_In. intuition. }
  destruct (Hgen [] (NoDup_nil _)) as [H1 H2]. split; [exact H1|].
  intros y. rewrite H2. simpl. intuition.
Qed.

Lemma fold_min_spec (r : list Z) :
  forall x,
  In (fold_left Z.min r x) (x :: r)
  /\ (forall y, In y (x :: r) -> fold_left Z.min r x <= y).
Proof.
  induction r as [|z r IH]; intros x; simpl.
  - split; [now left|]. intros y [<-|[]]. lia.
  - destruct (IH (Z.min x z)) as [Hin Hle]. split.
    + destruct Hin as [Heq|Hin]; [|now right; right].
      rewrite <- Heq. destruct (Z.min_spec x z) as [[_ ->]|[_ ->]]; auto.
    + intros y Hy.
      assert (Hm : fold_left Z.min r (Z.min x z) <= Z.min x z)
        by (apply Hle; now left).
      destruct Hy as [<-|[<-|Hy]]; [lia | lia |]. apply Hle. now right.
Qed.

Lemma fold_max_spec (r : list Z) :
  forall x,
  In (fold_left Z.max r x) (x :: r)
  /\ (forall y, In y (x :: r) -> y <= fold_left Z.max r x).
Proof.
  induction r as [|z r IH]; intros x; simpl.
  - split; [now left|]. intros y [<-|[]]. lia.
  - destruct (IH (Z.max x z)) as [Hin Hle]. split.
    + destruct Hin as [Heq|Hin]; [|now right; right].
      rewrite <- Heq. destruct (Z.max_spec x z) as [[_ ->]|[_ ->]]; auto.
    + intros y Hy.
      assert (Hm : Z.max x z <= fold_left Z.max r (Z.max x z))
        by (apply Hle; now left).
      destruct Hy as [<-|[<-|Hy]]; [lia | lia |]. apply Hle. now right.
Qed.

(** [r] is the range of the positive values of [f] over the events: both
    zero when there is none; otherwise its bounds are values taken, they
    are positive, and every positive value lies between them. *)
Definition rangeOver (f : ContractEventDetail -> Z)
    (events : list ContractEventDetail) (r : Range) : Prop :=
  ((forall e, In e events -> f e <= 0) -> r = mkRange 0 0)
  /\ ((exists e, In e events /\ 0 < f e) ->
      0 < min r
      /\ (exists e, In e events /\ f e = min r)
      /\ (exists e, In e events /\ f e = max r))
  /\ (forall e, In e events -> 0 < f e -> min r <= f e <= max r).

Lemma rangeOf_rangeOver (f : ContractEventDetail -> Z)
    (events : list ContractEventDetail) :
  rangeOver f events (rangeOf (filter (fun x => x >? 0) (List.map f events))).
Proof.
  set (xs := filter (fun x => x >? 0) (List.map f events)).
  assert (Hxs : forall x, In x xs <-> exists e, In e events /\ f e = x /\ 0 < x).
  { intros x. unfold xs. rewrite filter_In, in_map_iff, Z.gtb_lt.
    split.
    - intros [[e [He Hin]] Hpos]. exists e. auto.
    - intros [e [Hin [He Hpos]]]. split; [exists e; auto | exact Hpos]. }
  unfold rangeOver. destruct xs as [|x r] eqn:E.
  - split; [reflexivity|]. split.
    + intros [e [Hin Hpos]].
      destruct (proj2 (Hxs (f e))) as []. exists e. auto.
    + intros e Hin Hpos. destruct (proj2 (Hxs (f e))) as []. exists e. auto.
  - cbn [rangeOf min max].
    destruct (fold_min_spec r x) as [Hmin Hlow].
    destruct (fold_max_spec r x) as [Hmax Hhigh].
    apply Hxs in Hmin. apply Hxs in Hmax.
    destruct Hmin as [e1 [Hin1 [He1 Hpos1]]].
    destruct Hmax as [e2 [Hin2 [He2 Hpos2]]].
    split; [|split].
    + intros Hnone. specialize (Hnone e1 Hin1). lia.
    + intros _. split; [exact Hpos1|]. split; [now exists e1 | now exists e2].
    + intros e Hin Hpos.
      assert (Hx : In (f e) (x :: r)) by (apply Hxs; exists e; auto).
      split; [now apply Hlow | now apply Hhigh].
Qed.

(** [n] is the number of different values of [f] over the events. *)
Definition countsDistinct (f : ContractEventDetail -> string)
    (events : list ContractEventDetail) (n : nat) : Prop :=
  exists values,
    NoDup values
    /\ (forall v, In v values <-> exists e, In e events /\ f e = v)
    /\ n = List.length values.

Lemma SSet_of_countsDistinct (f : ContractEventDetail -> string)
    (events : list ContractEventDetail) :
  countsDistinct f events (List.length (SSet_of (List.map f events)))
  /\ (List.length (SSet_of (List.map f events)) <= List.length events)%nat.
Proof.
  destruct (SSet_of_spec (List.map f events)) as [Hnd Hin]. split.
  - exists (SSet_of (List.map f events)). split; [exact Hnd|].
    split; [|reflexivity]. intros v. rewrite Hin, in_map_iff.
    split; intros [e [H1 H2]]; exists e; auto.
  - rewrite <- (length_map f events). apply NoDup_incl_length; [exact Hnd|].
    intros v Hv. now apply Hin.
Qed.

(** X20.  [getEventStats] counts what it says: [totalEvents] is the number
    of events; [uniqueContracts] and [uniqueTypes] are the numbers of
    different contract ids and of different types among them, so neither
    exceeds [totalEvents]; [ledgerRange] and [timeRange] cover the
    positive ledgers and the positive timestamps only: events whose ledger
    or timestamp is 0 or missing are left out of the range, both bounds
    are 0 when no event has a positive value, and otherwise both bounds
    are values of events, positive, with every positive value between
    them. *)
Theorem getEventStats_spec (events : list ContractEventDetail) :
  let stats := getEventStats events in
  totalEvents stats = List.length events
  /\ countsDistinct contractId events (uniqueContracts stats)
  /\ countsDistinct type events (uniqueTypes stats)
  /\ (uniqueContracts stats <= totalEvents stats)%nat
  /\ (uniqueTypes stats <= totalEvents stats)%nat
  /\ rangeOver ledger events (ledgerRange stats)
  /\ rangeOver timestamp events (timeRange stats).
Proof.
  cbv zeta. unfold getEventStats.
  cbn [totalEvents uniqueContracts uniqueTypes ledgerRange timeRange].
  destruct (SSet_of_countsDistinct contractId events) as [Hc Hcl].
  destruct (SSet_of_countsDistinct type events) as [Ht Htl].
  split; [reflexivity|]. split; [exact Hc|]. split; [exact Ht|].
  split; [exact Hcl|]. split; [exact Htl|].
  split; apply rangeOf_rangeOver.
Qed.

Lemma filter_filter {A : Type} (f g : A -> bool) (l : list A) :
  filter f (filter g l) = filter (fun x => g x && f x) l.
Proof.
  induction l as [|x l IH]; simpl; [reflexivity|].
  destruct (g x); simpl; [|exact IH]. destruct (f x); now rewrite IH.
Qed.

(** X21.  The filters compose: filtering by two time ranges in turn keeps
    the events of the intersection of the ranges; filtering by contract
    and by time range gives the same events in either order; a range whose
    end is before its start keeps nothing; and the statistics of the
    events kept by a time range with a positive start have a [timeRange]
    within that range, or 0 and 0 when nothing is kept. *)
Theorem filters_compose (events : list ContractEventDetail)
    (a b c d : Z) (contract : string) :
  filterEventsByTimeRange (filterEventsByTimeRange events a b) c d
  = filterEventsByTimeRange events (Z.max a c) (Z.min b d)
  /\ filterEventsByContract (filterEventsByTimeRange events a b) contract
     = filterEventsByTimeRange (filterEventsByContract events contract) a b
  /\ (b < a -> filterEventsByTimeRange events a b = [])
  /\ (0 < a ->
      let r := timeRange (getEventStats (filterEventsByTimeRange events a b)) in
      r = mkRange 0 0 \/ (a <= min r /\ max r <= b)).
Proof.
  unfold filterEventsByTimeRange, filterEventsByContract.
  split; [|split; [|split]].
  - rewrite filter_filter. apply filter_ext. intros e.
    destruct (Z.geb_spec (timestamp e) a), (Z.geb_spec (timestamp e) c),
      (Z.leb_spec (timestamp e) b), (Z.leb_spec (timestamp e) d),
      (Z.geb_spec (timestamp e) (Z.max a c)),
      (Z.leb_spec (timestamp e) (Z.min b d)); simpl; try reflexivity; lia.
  - rewrite !filter_filter. apply filter_ext. intros e.
    now rewrite andb_comm.
  - intros Hlt. induction events as [|e events IH]; simpl; [reflexivity|].
    destruct (Z.geb_spec (timestamp e) a), (Z.leb_spec (timestamp e) b);
      simpl; try exact IH; lia.
  - intros Ha. cbv zeta. unfold getEventStats. cbn [timeRange].
    assert (Hkept : forall e,
               In e (filter (fun event => (timestamp event >=? a)
                                          && (timestamp event <=? b)) events) ->
               a <= timestamp e <= b).
    { intros e He. apply filter_In in He.
      destruct He as [_ He]. apply andb_prop in He.
      destruct He as [H1 H2]. apply Z.geb_le in H1. apply Z.leb_le in H2.
      lia. }
    remember (filter (fun event => (timestamp event >=? a)
                                   && (timestamp event <=? b)) events)
      as kept eqn:E.
    clear E.
    destruct (rangeOf_rangeOver timestamp kept) as [Hnone [Hsome _]].
    destruct kept as [|e0 rest].
    + left. apply Hnone. intros e [].
    + right. destruct Hsome as [_ [[e1 [Hin1 He1]] [e2 [Hin2 He2]]]].
      { exists e0. split; [now left|].
        specialize (Hkept e0 (or_introl eq_refl)). lia. }
      rewrite <- He1, <- He2.
      specialize (Hkept e1 Hin1) as H1. specialize (Hkept e2 Hin2) as H2.
      lia.
Qed.

End EventStatistics.

Section EventStatisticsWitnesses.
Import ContractEventMonitor.

Definition eventAt (contract : string) (time l : Z) : ContractEventDetail :=
  mkDetail contract "contract" [] scvVoid time l "tx".

Lemma filters_compose_witness :
  let events := [eventAt "CA" 10 1; eventAt "CB" 20 2; eventAt "CA" 30 3] in
  filterEventsByTimeRange events 25 15 = []
  /\ (let r := timeRange (getEventStats (filterEventsByTimeRange events 15 40))
      in r = mkRange 0 0 \/ (15 <= min r /\ max r <= 40)).
Proof.
  intros events.
  destruct (filters_compose events 25 15 0 0 "CA") as [_ [_ [Hempty _]]].
  destruct (filters_compose events 15 40 0 0 "CA") as [_ [_ [_ Hrange]]].
  split; [apply Hempty; lia | apply Hrange; lia].
Defined.

End EventStatisticsWitnesses.

(* ===================================================================== *)
(** * Further properties of the contract manager                          *)
(* ===================================================================== *)

Section InvocationPipeline.
Import SorobanContractManager.
Context {P : Platform}.
Variables (server : Server) (params : ContractInvocationParams).

Ltac stage :=
  unfold call, tryCatch, ebind, modify, lift, ret, throw; cbn [fst snd app].

(** The transaction [invokeContract] builds for an account and encoded
    arguments. *)
Definition builtFor (account : Account) (scArgs : list ScVal) : Transaction :=
  mkTransaction account BASE_FEE (networkPassphrase params) (contractId params)
                (method params) scArgs 30 false [].


(** [simulateOnly] is absent or false. *)
Definition submits : Prop := simulateOnly params <> Some true.

Lemma submits_flag :
  submits -> match simulateOnly params with Some b => b | None => false end
             = false.
Proof.
  unfold submits. destruct (simulateOnly params) as [[]|]; congruence.
Qed.



(** X23.  Whatever goes wrong inside [invokeContract], the caller gets a
    plain [Error] whose message starts with "Contract invocation failed: ":
    the class of the original error (a [TypeError] of the encoder, a
    [RangeError] of the SDK, a rejection of the server) is lost and only
    its message is kept.  For instance arguments that cannot be encoded
    give the encoder's message behind that prefix, after the one call to
    [getAccount]; and a simulation that fails gives "Contract invocation
    failed: Simulation failed: " followed by the simulation's error. *)
Theorem invoke_failures_wrapped :
  (forall e, fst (run (invokeContract server params)) = Throw e ->
             exists message,
               e = Error ("Contract invocation failed: " ++ message))
  /\ (forall account thrown,
        getAccount server (publicKey (caller params)) = Ok account ->
        StrKey_isValid (contractId params) = true ->
        ScValConverter.encodeArgs (args params) None = Throw thrown ->
        run (invokeContract server params)
        = (Throw (Error ("Contract invocation failed: "
                           ++ Exn_message thrown)),
           [CallGetAccount (publicKey (caller params))]))
  /\ (forall account scArgs simulation,
        getAccount server (publicKey (caller params)) = Ok account ->
        StrKey_isValid (contractId params) = true ->
        ScValConverter.encodeArgs (args params) None = Ok scArgs ->
        simulateTransaction server (builtFor account scArgs) = Ok simulation ->
        sim_success simulation = false ->
        fst (run (invokeContract server params))
        = Throw (Error ("Contract invocation failed: Simulation failed: "
                          ++ sim_error simulation))).
Proof.
  split; [|split].
  - intros e. unfold run, invokeContract, tryCatch.
    match goal with
    | |- context [match ?c [] with _ => _ end] => destruct (c []) as [[r|e'] log]
    end; cbn [fst]; [discriminate|].
    unfold throw; cbn [fst]. intros H; injection H as <-.
    now exists (Exn_message e').
  - intros account thrown Ha Hv He. unfold run, invokeContract. stage.
    unfold Contract_new. now rewrite Ha, Hv, He.
  - intros account scArgs simulation Ha Hv He Hs Hok.
    unfold run, invokeContract. stage. unfold Contract_new.
    rewrite Ha, Hv, He. fold (builtFor account scArgs). rewrite Hs, Hok.
    reflexivity.
Qed.

(** X24.  Without [simulateOnly], [invokeContract] never returns a result
    and never submits.  After a successful simulation it calls
    [SorobanRpc.Api.prepareTransaction], which the SDK does not have, so it
    throws "Contract invocation failed: SorobanRpc.Api.prepareTransaction
    is not a function" after the two calls [getAccount] and
    [simulateTransaction]; in every other case it has failed before.  So
    whatever the server answers, no [sendTransaction] and no
    [getTransaction] call is made.  The code after the submit could not
    read a transaction's events either: [parseEvents] throws on a meta
    that holds an event, and returns no event only for a meta without
    any. *)
Theorem invoke_never_submits :
  submits ->
  (forall r, fst (run (invokeContract server params)) <> Ok r)
  /\ existsb isSubmitOrPoll (snd (run (invokeContract server params))) = false
  /\ (forall account scArgs simulation,
        getAccount server (publicKey (caller params)) = Ok account ->
        StrKey_isValid (contractId params) = true ->
        ScValConverter.encodeArgs (args params) None = Ok scArgs ->
        simulateTransaction server (builtFor account scArgs) = Ok simulation ->
        sim_success simulation = true ->
        run (invokeContract server params)
        = (Throw (Error ("Contract invocation failed: "
                           ++ "SorobanRpc.Api.prepareTransaction"
                           ++ " is not a function")),
           [CallGetAccount (publicKey (caller params));
            CallSimulateTransaction (builtFor account scArgs)]))
  /\ (forall event events,
        parseEvents (Some (OfMeta (V3 (Some (event :: events)))))
        = Throw (TypeError "event.topics is not a function"))
  /\ parseEvents (Some (OfMeta (V3 (Some [])))) = Ok [].
Proof.
  intros Hsub. pose proof (submits_flag Hsub) as Hflag.
  split; [|split; [|split; [|split]]].
  - intros r. unfold run, invokeContract. stage.
    destruct (getAccount server _) as [account|e]; [|discriminate].
    destruct (Contract_new _) as [contract|e]; [|discriminate].
    destruct (ScValConverter.encodeArgs _ _) as [scArgs|e]; [|discriminate].
    destruct (simulateTransaction server _) as [simulation|e];
      [|discriminate].
    destruct (sim_success simulation); cbn [negb]; [|discriminate].
    rewrite Hflag. discriminate.
  - unfold run, invokeContract. stage.
    destruct (getAccount server _) as [account|e]; [|reflexivity].
    destruct (Contract_new _) as [contract|e]; [|reflexivity].
    destruct (ScValConverter.encodeArgs _ _) as [scArgs|e]; [|reflexivity].
    destruct (simulateTransaction server _) as [simulation|e];
      [|reflexivity].
    destruct (sim_success simulation); cbn [negb]; [|reflexivity].
    rewrite Hflag. reflexivity.
  - intros account scArgs simulation Ha Hv He Hs Hok.
    unfold run, invokeContract. stage. unfold Contract_new.
    rewrite Ha, Hv, He. fold (builtFor account scArgs).
    rewrite Hs, Hok. cbn [negb]. rewrite Hflag. reflexivity.
  - reflexivity.
  - reflexivity.
Qed.

End InvocationPipeline.

Section InvocationWitnesses.
Import SorobanContractManager.

(** A request that is to be submitted, with one argument. *)
Definition submitParams (argument : JsVal) : ContractInvocationParams :=
  mkParams "mock-contract-id" "testMethod" [argument]
           (mkKeypair "GDQZ43L2QQ3B5OUP4QKA52L2AKYYG5ZC5LEJ2TFKX2LFDWLXRWERFW53")
           "Test SDF Network ; September 2015" None.

(** A server whose simulation fails. *)
Definition failingSimulation : Server :=
  mkServer (fun _ => Ok testAccount)
           (fun _ => Ok (mkSimulation false "HostError: Error(Contract, #1)"
                                      None))
           (fun _ => Ok (mkSend "PENDING" "mock-tx-hash"))
           (fun _ => Ok (mkGetTransaction true "" None None None)).

Lemma invoke_failures_wrapped_witness :
  run (invokeContract (P := Reference.mocked) testServer
         (submitParams (JBigInt (2 ^ 200))))
  = (Throw (Error "Contract invocation failed: value too large"),
     [CallGetAccount
        "GDQZ43L2QQ3B5OUP4QKA52L2AKYYG5ZC5LEJ2TFKX2LFDWLXRWERFW53"])
  /\ fst (run (invokeContract (P := Reference.mocked) failingSimulation
                 (submitParams (JNumber 1))))
     = Throw (Error ("Contract invocation failed: Simulation failed: "
                       ++ "HostError: Error(Contract, #1)")).
Proof.
  split.
  - destruct (invoke_failures_wrapped (P := Reference.mocked) testServer
                (submitParams (JBigInt (2 ^ 200)))) as [_ [H _]].
    exact (H testAccount (RangeError "value too large")
             eq_refl eq_refl eq_refl).
  - destruct (invoke_failures_wrapped (P := Reference.mocked)
                failingSimulation (submitParams (JNumber 1))) as [_ [_ H]].
    exact (H testAccount [scvI32 1]
             (mkSimulation false "HostError: Error(Contract, #1)" None)
             eq_refl eq_refl eq_refl eq_refl eq_refl).
Defined.

(** A request to be submitted to a contract whose id is a strkey. *)
Definition contractParams : ContractInvocationParams :=
  mkParams "CAAAAAAAAAAAAAAAAAAAAAAAAAAAAAAAAAAAAAAAAAAAAAAAAAAAD2KM"
           "testMethod" [JNumber 1]
           (mkKeypair "GA7QYNF7SOWQ3GLR2BGMZEHXAVIRZA4KVWLTJJFC7MGXUA74P7UJVSGZ")
           "Test SDF Network ; September 2015" None.

Lemma invoke_never_submits_witness :
  run (invokeContract (P := Reference.platform) testServer contractParams)
  = (Throw (Error ("Contract invocation failed: "
                     ++ "SorobanRpc.Api.prepareTransaction"
                     ++ " is not a function")),
     [CallGetAccount
        "GA7QYNF7SOWQ3GLR2BGMZEHXAVIRZA4KVWLTJJFC7MGXUA74P7UJVSGZ";
      CallSimulateTransaction
        (mkTransaction testAccount BASE_FEE
           "Test SDF Network ; September 2015"
           "CAAAAAAAAAAAAAAAAAAAAAAAAAAAAAAAAAAAAAAAAAAAAAAAAAAAD2KM"
           "testMethod" [scvI32 1] 30 false [])]).
Proof.
  assert (Hsub : submits contractParams) by discriminate.
  destruct (invoke_never_submits (P := Reference.platform) testServer
              contractParams Hsub) as [_ [_ [H _]]].
  exact (H testAccount [scvI32 1]
           (mkSimulation true "null" (Some (scvOther "success" JUndefined)))
           eq_refl eq_refl eq_refl eq_refl eq_refl).
Defined.

End InvocationWitnesses.

(* ===================================================================== *)
(** * Properties of the signature builder                                 *)
(* ===================================================================== *)

Section ArgumentValidation.
Import ScValConverter FunctionSignatureBuilder.
Context {P : Platform}.

(** Encoding an argument with its hint. *)
Definition encodeHinted (ah : JsVal * ScType) : Result ScVal :=
  toScVal (fst ah) (Some (snd ah)).

Lemma encodeArgs_hinted (args : list JsVal) (types : list ScType) :
  List.length types = List.length args ->
  encodeArgs args (Some types) = mapM encodeHinted (combine args types).
Proof.
  intros Hlen. unfold encodeArgs. rewrite Hlen, Nat.eqb_refl. cbn [negb].
  exact (mapMi_hints args [] types Hlen).
Qed.

Lemma createInvocation_hinted (funcName : string) (args : list JsVal)
    (types : list ScType) :
  List.length types = List.length args ->
  createInvocation funcName args (Some types)
  = (argScVals <- mapM encodeHinted (combine args types) ;;
     Ok (scvVec (scvSymbol (JString funcName) :: argScVals))).
Proof.
  intros Hlen. unfold createInvocation.
  now rewrite (mapMi_hints args [] types Hlen).
Qed.

(** The arguments that do not encode with their hint. *)
Definition rejected (args : list JsVal) (types : list ScType)
  : list (JsVal * ScType) :=
  filter (fun ah => negb (isOk (encodeHinted ah))) (combine args types).

Lemma validateEach_length (args : list JsVal) :
  forall (inputs : list FunctionInput) (i : nat),
  List.length (validateEach i args inputs)
  = List.length (rejected args (List.map input_type inputs)).
Proof.
  unfold rejected.
  induction args as [|arg args IH]; intros inputs i; [reflexivity|].
  destruct inputs as [|input inputs]; [reflexivity|].
  cbn [validateEach List.map combine filter]. unfold validateArgumentType.
  unfold encodeHinted at 1. cbn [fst snd].
  destruct (toScVal arg (Some (input_type input))); cbn [isOk negb];
    [apply IH|]. cbn [List.length]. now rewrite IH.
Qed.

Lemma mapM_rejected (ahs : list (JsVal * ScType)) :
  (exists scVals, mapM encodeHinted ahs = Ok scVals)
  <-> filter (fun ah => negb (isOk (encodeHinted ah))) ahs = [].
Proof.
  induction ahs as [|ah ahs IH]; cbn [mapM filter].
  - split; [reflexivity|]. intros _. now exists [].
  - destruct (encodeHinted ah) as [w|e]; cbn [isOk negb bind].
    + rewrite <- IH. split.
      * intros [scVals H].
        destruct (mapM encodeHinted ahs) as [ws|e]; [|discriminate].
        now exists ws.
      * intros [ws ->]. now exists (w :: ws).
    + split; [intros [scVals H]; discriminate | discriminate].
Qed.

(** X25.  [validateArguments] agrees with the encoder.  It reports the
    arguments valid exactly when it has no error message, and exactly when
    [encodeArgs] with the types of the function's inputs returns; then
    [createInvocation] returns the vector made of the function name as a
    symbol followed by those encoded arguments.  When the counts agree
    there is one message per argument that does not encode with its type;
    when they differ the arguments are invalid with a single message. *)
Theorem validateArguments_sound (func : ContractFunction)
    (args : list JsVal) :
  let v := validateArguments func args in
  let types := List.map input_type (inputs func) in
  (valid v = true <-> errors v = [])
  /\ (valid v = true <-> exists scVals, encodeArgs args (Some types) = Ok scVals)
  /\ (forall scVals,
        encodeArgs args (Some types) = Ok scVals ->
        createInvocation (name func) args (Some types)
        = Ok (scvVec (scvSymbol (JString (name func)) :: scVals)))
  /\ (List.length args = List.length (inputs func) ->
      List.length (errors v) = List.length (rejected args types))
  /\ (List.length args <> List.length (inputs func) ->
      valid v = false /\ List.length (errors v) = 1%nat).
Proof.
  cbv zeta. unfold validateArguments.
  destruct (Nat.eqb_spec (List.length args) (List.length (inputs func)))
    as [Hlen|Hlen]; cbn [negb valid errors].
  - assert (Hl : List.length (List.map input_type (inputs func))
                 = List.length args) by (now rewrite length_map).
    rewrite (encodeArgs_hinted args _ Hl).
    rewrite (createInvocation_hinted (name func) args _ Hl).
    assert (Hnil : forall l : list string,
               Nat.eqb (List.length l) 0 = true <-> l = []).
    { intros [|x l]; simpl; split; congruence. }
    split; [apply Hnil|]. split; [|split; [|split]].
    + rewrite Hnil, mapM_rejected. fold (rejected args (List.map input_type (inputs func))).
      rewrite <- !length_zero_iff_nil. now rewrite validateEach_length.
    + intros scVals ->. reflexivity.
    + intros _. apply validateEach_length.
    + intros Hne. now elim Hne.
  - split; [split; discriminate|]. split; [|split; [|split]].
    + split; [discriminate|]. intros [scVals H]. unfold encodeArgs in H.
      rewrite length_map in H.
      destruct (Nat.eqb_spec (List.length (inputs func)) (List.length args))
        as [Heq|Hne]; [now elim Hlen | discriminate].
    + intros scVals H. unfold encodeArgs in H. rewrite length_map in H.
      destruct (Nat.eqb_spec (List.length (inputs func)) (List.length args))
        as [Heq|Hne]; [now elim Hlen | discriminate].
    + intros Heq. now elim Hlen.
    + intros _. split; reflexivity.
Qed.

End ArgumentValidation.

Section SignatureParsing.
Import FunctionSignatureBuilder.

(** Every character of the string is a word character. *)
Definition wordOnly (s : string) : bool :=
  forallb isWord (list_ascii_of_string s).

Lemma list_ascii_app (a b : string) :
  list_ascii_of_string (a ++ b)
  = (list_ascii_of_string a ++ list_ascii_of_string b)%list.
Proof. induction a as [|c a IH]; simpl; [reflexivity|now rewrite IH]. Qed.

Lemma append_assoc (a b c : string) : (a ++ b) ++ c = a ++ (b ++ c).
Proof. induction a as [|x a IH]; simpl; [reflexivity|now rewrite IH]. Qed.

Lemma wordOnly_app (a b : string) :
  wordOnly (a ++ b) = wordOnly a && wordOnly b.
Proof. unfold wordOnly. now rewrite list_ascii_app, forallb_app. Qed.

Lemma spanWord_paren (name rest : string) :
  wordOnly name = true ->
  spanWord (name ++ String "(" rest) = (name, String "(" rest).
Proof.
  unfold wordOnly. induction name as [|c name IH]; simpl; intros H.
  - reflexivity.
  - apply andb_prop in H. destruct H as [Hc Hn]. rewrite Hc, (IH Hn).
    reflexivity.
Qed.

Lemma unsnoc_paren (s : string) : unsnoc (s ++ ")") = Some (s, ")"%char).
Proof. induction s as [|c s IH]; simpl; [reflexivity|now rewrite IH]. Qed.

(** The text between the parentheses of a signature. *)
Definition typesStr (types : list ScType) : string :=
  join ", " (List.map ScType_name types).

Lemma typesStr_cons (t : ScType) (types : list ScType) :
  typesStr (t :: types)
  = ScType_name t
    ++ match types with
       | [] => ""
       | _ :: _ => String "," (String " " (typesStr types))
       end.
Proof. unfold typesStr. simpl. now destruct types. Qed.

Lemma typesStr_one_line (types : list ScType) :
  existsb isLineTerminator (list_ascii_of_string (typesStr types)) = false.
Proof.
  induction types as [|t types IH]; [reflexivity|].
  rewrite typesStr_cons, list_ascii_app, existsb_app.
  assert (Ht : existsb isLineTerminator (list_ascii_of_string (ScType_name t))
               = false) by (now destruct t).
  rewrite Ht. destruct types as [|t' types]; [reflexivity|].
  cbn [list_ascii_of_string existsb orb]. exact IH.
Qed.

Lemma split_comma_nonempty (s : string) : split_comma s <> [].
Proof.
  induction s as [|c s IH]; simpl; [discriminate|].
  destruct (Ascii.eqb c ","); [discriminate|].
  now destruct (split_comma s).
Qed.

Lemma split_comma_name (t : ScType) (rest : string) :
  split_comma (ScType_name t ++ String "," rest)
  = ScType_name t :: split_comma rest.
Proof. destruct t; reflexivity. Qed.

Lemma trimmed_types (types : list ScType) :
  types <> [] ->
  List.map trim (split_comma (typesStr types)) = List.map ScType_name types.
Proof.
  induction types as [|t types IH]; intros Hne; [now elim Hne|].
  rewrite typesStr_cons. destruct types as [|t' types].
  - destruct t; reflexivity.
  - rewrite split_comma_name, (map_cons trim),
      (map_cons ScType_name t (t' :: types)).
    assert (Ht : trim (ScType_name t) = ScType_name t) by (now destruct t).
    rewrite Ht. f_equal.
    rewrite <- IH by discriminate.
    cbn [split_comma].
    change (Ascii.eqb " " ",") with false. cbn iota.
    destruct (split_comma (typesStr (t' :: types))) as [|h tl] eqn:E.
    + now elim (split_comma_nonempty _ E).
    + reflexivity.
Qed.

Lemma typesStr_trim (types : list ScType) :
  String.eqb (trim (typesStr types)) "" = match types with
                                          | [] => true
                                          | _ :: _ => false
                                          end.
Proof.
  destruct types as [|t types]; [reflexivity|].
  rewrite typesStr_cons.
  assert (H : forall c r, isWhiteSpace c = false -> trim (String c r) <> "").
  { intros c r Hc. unfold trim. cbn [trimStart]. rewrite Hc.
    cbn [trimEnd]. rewrite Hc. now destruct (trimEnd r). }
  apply String.eqb_neq. destruct t; cbn [ScType_name append]; now apply H.
Qed.

Lemma parse_built (funcName : string) (types : list ScType) :
  funcName <> "" -> wordOnly funcName = true ->
  parseSignature (buildSignatureString funcName types)
  = Ok (funcName, List.map ScType_name types).
Proof.
  intros Hne Hw. unfold buildSignatureString, parseSignature, matchSignature.
  fold (typesStr types).
  change ("(" ++ typesStr types ++ ")") with (String "(" (typesStr types ++ ")")).
  rewrite (spanWord_paren funcName _ Hw).
  destruct funcName as [|c funcName]; [now elim Hne|].
  cbn [Ascii.eqb Bool.eqb negb].
  change (Ascii.eqb "(" "(") with true. cbn [negb].
  rewrite unsnoc_paren. change (Ascii.eqb ")" ")") with true.
  rewrite typesStr_one_line. cbn [negb andb].
  rewrite typesStr_trim. destruct types as [|t types]; cbn [negb].
  - reflexivity.
  - now rewrite trimmed_types by discriminate.
Qed.

(** X26.  [parseSignature] undoes [buildSignatureString]: for a function
    name made of one or more word characters and any list of types, parsing
    the signature string built from them gives the name back and the names
    of the types in order; the same holds for the strings built by
    [buildMethodSignature] and [createErrorSignature], whose names are
    joined with an underscore.  With an empty function name the string
    built is rejected by [parseSignature]. *)
Theorem parseSignature_buildSignatureString (funcName : string)
    (types : list ScType) :
  wordOnly funcName = true ->
  (funcName <> "" ->
   parseSignature (buildSignatureString funcName types)
   = Ok (funcName, List.map ScType_name types))
  /\ (forall namespace,
        wordOnly namespace = true ->
        parseSignature (buildMethodSignature namespace funcName types)
        = Ok (namespace ++ "_" ++ funcName, List.map ScType_name types))
  /\ parseSignature (createErrorSignature funcName types)
     = Ok ("error_" ++ funcName, List.map ScType_name types)
  /\ parseSignature (buildSignatureString "" types)
     = Throw (Error ("Invalid function signature format: "
                       ++ buildSignatureString "" types)).
Proof.
  intros Hw. split; [|split; [|split]].
  - intros Hne. now apply parse_built.
  - intros namespace Hn. unfold buildMethodSignature. apply parse_built.
    + destruct namespace; discriminate.
    + rewrite wordOnly_app, Hn. exact Hw.
  - unfold createErrorSignature. apply parse_built; [discriminate|].
    now rewrite wordOnly_app, Hw.
  - reflexivity.
Qed.

End SignatureParsing.

Section SignatureHash.
Import FunctionSignatureBuilder.

Lemma toInt32_range (z : Z) : - 2 ^ 31 <= toInt32 z < 2 ^ 31.
Proof.
  unfold toInt32.
  assert (H : 0 <= (z + 2 ^ 31) mod 2 ^ 32 < 2 ^ 32)
    by (apply Z.mod_pos_bound; reflexivity).
  change (2 ^ 32) with 4294967296 in *.
  change (2 ^ 31) with 2147483648 in *. lia.
Qed.

Lemma toInt32_mod (z : Z) : toInt32 z mod 2 ^ 32 = z mod 2 ^ 32.
Proof.
  unfold toInt32. rewrite Zminus_mod_idemp_l. f_equal. lia.
Qed.

Lemma toInt32_congr (x y : Z) :
  x mod 2 ^ 32 = y mod 2 ^ 32 -> toInt32 x = toInt32 y.
Proof.
  intros H. unfold toInt32.
  now rewrite <- (Zplus_mod_idemp_l x), H, Zplus_mod_idemp_l.
Qed.

(** One step of the loop multiplies by 31 and adds the character code,
    modulo [2^32]. *)
Lemma hashChar_eq (h : Z) (c : ascii) :
  hashChar h c = toInt32 (31 * h + charCode c).
Proof.
  unfold hashChar. cbv zeta. apply toInt32_congr.
  rewrite <- Zplus_mod_idemp_l, <- Zminus_mod_idemp_l, toInt32_mod,
    Zminus_mod_idemp_l, Zplus_mod_idemp_l.
  f_equal. change (2 ^ 5) with 32. lia.
Qed.

Lemma hashChar_twice (h : Z) (c1 c2 : ascii) :
  hashChar (hashChar h c1) c2
  = toInt32 (961 * h + 31 * charCode c1 + charCode c2).
Proof.
  rewrite (hashChar_eq (hashChar h c1) c2), (hashChar_eq h c1).
  apply toInt32_congr.
  rewrite <- Zplus_mod_idemp_l, <- Zmult_mod_idemp_r, toInt32_mod,
    Zmult_mod_idemp_r, Zplus_mod_idemp_l.
  f_equal. lia.
Qed.

(** The value of [hash] when the loop of [hashSignature] ends, started
    from [h]. *)
Definition rawHash (signature : string) (h : Z) : Z :=
  fold_left hashChar (list_ascii_of_string signature) h.

Lemma rawHash_app (a b : string) (h : Z) :
  rawHash (a ++ b) h = rawHash b (rawHash a h).
Proof. unfold rawHash. now rewrite list_ascii_app, fold_left_app. Qed.

Lemma rawHash_range (signature : string) (h : Z) :
  - 2 ^ 31 <= h < 2 ^ 31 -> - 2 ^ 31 <= rawHash signature h < 2 ^ 31.
Proof.
  unfold rawHash. revert h.
  induction (list_ascii_of_string signature) as [|c l IH]; intros h Hh;
    simpl; [exact Hh|].
  apply IH. unfold hashChar. apply toInt32_range.
Qed.

Lemma hexDigits_length (fuel : nat) :
  forall (k : nat) (n : Z) (acc : string),
  (1 <= k)%nat -> 0 <= n < 16 ^ Z.of_nat k ->
  (String.length (hexDigits fuel n acc) <= String.length acc + k)%nat.
Proof.
  induction fuel as [|fuel IH]; intros k n acc Hk Hn; cbn [hexDigits].
  - lia.
  - destruct (Z.ltb_spec n 16) as [Hlt|Hge]; cbn [String.length]; [lia|].
    destruct k as [|[|k]]; [lia | simpl in Hn; lia |].
    specialize (IH (S k) (n / 16) (String (hexDigit (n mod 16)) acc)).
    cbn [String.length] in IH.
    assert (Hdiv : 0 <= n / 16 < 16 ^ Z.of_nat (S k)).
    { split; [apply Z.div_pos; lia|].
      apply Z.div_lt_upper_bound; [lia|].
      rewrite (Nat2Z.inj_succ (S k)), Z.pow_succ_r in Hn by lia. lia. }
    specialize (IH ltac:(lia) Hdiv). lia.
Qed.

Lemma length_append (a b : string) :
  String.length (a ++ b) = (String.length a + String.length b)%nat.
Proof. induction a as [|c a IH]; simpl; [reflexivity|now rewrite IH]. Qed.

Lemma length_string_of_list (l : list ascii) :
  String.length (string_of_list_ascii l) = List.length l.
Proof. induction l as [|c l IH]; simpl; [reflexivity|now rewrite IH]. Qed.

Lemma padStart_length (n : nat) (pad : ascii) (s : string) :
  (String.length s <= n)%nat -> String.length (padStart n pad s) = n.
Proof.
  intros H. unfold padStart.
  rewrite length_append, length_string_of_list, repeat_length. lia.
Qed.

(** The block [hashSignature] repeats. *)
Definition hashBlock (signature : string) : string :=
  padStart 8 "0"%char (toString16 (Z.abs (rawHash signature 0))).

Lemma hashBlock_length (signature : string) :
  String.length (hashBlock signature) = 8%nat.
Proof.
  unfold hashBlock. apply padStart_length. unfold toString16.
  assert (H0 : - 2 ^ 31 <= 0 < 2 ^ 31) by (split; [discriminate|reflexivity]).
  pose proof (rawHash_range signature 0 H0) as Hr.
  apply (hexDigits_length _ 8 _ ""); [lia|].
  change (16 ^ Z.of_nat 8) with 4294967296.
  change (2 ^ 31) with 2147483648 in Hr. lia.
Qed.

(** X27.  [hashSignature], and with it [buildSignatureHash], returns 32
    characters that are one block of 8 written four times, so it carries
    at most 32 bits; and the block is fixed by a sum that multiplies by 31
    and adds the character code at each step, modulo [2^32].  Hence
    signatures collide: replacing "Aa" by "BB" anywhere in a signature
    leaves the hash unchanged, and so the functions named "Aa" and "BB"
    have the same signature hash for every list of input types. *)
Theorem hashSignature_collisions (signature : string) :
  String.length (hashSignature signature) = 32%nat
  /\ (exists block,
        String.length block = 8%nat
        /\ hashSignature signature = block ++ block ++ block ++ block)
  /\ (forall h c, hashChar h c = toInt32 (31 * h + charCode c))
  /\ (forall before after,
        hashSignature (before ++ "Aa" ++ after)
        = hashSignature (before ++ "BB" ++ after))
  /\ (forall inputTypes,
        buildSignatureHash "Aa" inputTypes = buildSignatureHash "BB" inputTypes).
Proof.
  assert (Hblocks : hashSignature signature
                    = hashBlock signature ++ hashBlock signature
                      ++ hashBlock signature ++ hashBlock signature).
  { unfold hashSignature. cbv zeta. fold (rawHash signature 0).
    fold (hashBlock signature). cbn [String_repeat].
    f_equal. f_equal. f_equal.
    induction (hashBlock signature) as [|c s IH]; simpl; [reflexivity|].
    now rewrite IH. }
  assert (Hswap : forall before after,
             hashSignature (before ++ "Aa" ++ after)
             = hashSignature (before ++ "BB" ++ after)).
  { intros before after. unfold hashSignature. cbv zeta.
    fold (rawHash (before ++ "Aa" ++ after) 0).
    fold (rawHash (before ++ "BB" ++ after) 0).
    rewrite !rawHash_app.
    assert (Hpair : forall h, rawHash "Aa" h = rawHash "BB" h).
    { intros h. unfold rawHash. cbn [list_ascii_of_string fold_left].
      rewrite !hashChar_twice. f_equal.
      change (charCode "A") with 65. change (charCode "a") with 97.
      change (charCode "B") with 66. lia. }
    now rewrite Hpair. }
  split; [|split; [|split; [|split]]].
  - rewrite Hblocks, !length_append, hashBlock_length. reflexivity.
  - exists (hashBlock signature). split; [apply hashBlock_length|exact Hblocks].
  - exact hashChar_eq.
  - exact Hswap.
  - intros inputTypes. unfold buildSignatureHash, buildSignatureString.
    cbv zeta. exact (Hswap "" _).
Qed.

End SignatureHash.

Section InferredTypes.
Import ScValConverter FunctionSignatureBuilder.
Context {P : Platform}.

(** The hints whose wire value [inferTypeFromScVal] tells the type of: the
    clause of their tag comes before the one of f32. *)
Definition inferable (t : ScType) : bool :=
  match t with
  | T_void | T_bool | T_u32 | T_i32 | T_u64 | T_i64 | T_u128 | T_i128
  | T_u256 | T_i256 => true
  | _ => false
  end.

(** The hints whose wire value has a tag that comes after f32. *)
Definition afterF32 (t : ScType) : bool :=
  match t with
  | T_bytes | T_string | T_symbol | T_address | T_vec | T_map | T_set
  | T_tuple => true
  | _ => false
  end.

(** The type of a tag the switch reaches. *)
Definition typeOfTag (t : ScValType) : ScType :=
  match t with
  | TagBool => T_bool | TagU32 => T_u32 | TagI32 => T_i32
  | TagU64 => T_u64 | TagI64 => T_i64 | TagU128 => T_u128
  | TagI128 => T_i128 | TagU256 => T_u256 | TagI256 => T_i256
  | _ => T_void
  end.

Ltac crack H :=
  repeat match type of H with
         | Ok _ = Ok _ => injection H as <-
         | Throw _ = Ok _ => discriminate H
         | context [match ?x with _ => _ end] =>
             destruct x eqn:?; try discriminate H
         end.

Lemma inferTypeFromScVal_reach (w : ScVal) :
  inferTypeFromScVal w
  = if reached (switch w) then Ok (typeOfTag (switch w)) else Throw noF32.
Proof. destruct w; reflexivity. Qed.

Lemma toTypedScVal_inferable (v : JsVal) (t : ScType) (w : ScVal) :
  toTypedScVal v t = Ok w -> inferable t = true ->
  inferTypeFromScVal w = Ok t.
Proof.
  intros H Ht.
  destruct t; try discriminate Ht; cbn [toTypedScVal] in H;
    unfold bind, ScInt_convert, bind in H; crack H; reflexivity.
Qed.

Lemma toTypedScVal_afterF32 (v : JsVal) (t : ScType) (w : ScVal) :
  toTypedScVal v t = Ok w -> afterF32 t = true ->
  inferTypeFromScVal w = Throw noF32.
Proof.
  intros H Ht.
  destruct t; try discriminate Ht; cbn [toTypedScVal] in H;
    unfold bind in H; crack H; reflexivity.
Qed.

Lemma encoded_inferable (args : list JsVal) :
  forall (types : list ScType) (ws : list ScVal),
  mapM encodeHinted (combine args types) = Ok ws ->
  List.length types = List.length args ->
  forallb (fun v => negb (isNullish v)) args = true ->
  forallb inferable types = true ->
  mapM inferTypeFromScVal ws = Ok types.
Proof.
  induction args as [|arg args IH]; intros types ws H Hlen Hnn Hi.
  - destruct types; [|discriminate].
    simpl in H. now injection H as <-.
  - destruct types as [|t types]; [discriminate|].
    cbn [combine mapM] in H. unfold encodeHinted at 1 in H.
    cbn [fst snd] in H. cbn [forallb] in Hnn, Hi.
    apply andb_prop in Hnn. destruct Hnn as [Hv Hnn].
    apply andb_prop in Hi. destruct Hi as [Ht Hi]. unfold toScVal in H.
    destruct (isNullish arg); [discriminate|].
    destruct (toTypedScVal arg t) as [w|e] eqn:Hw1; [|discriminate].
    cbn [bind] in H.
    destruct (mapM encodeHinted (combine args types)) as [ws'|e] eqn:Hrest;
      [|discriminate].
    cbn [bind] in H. injection H as <-.
    cbn [mapM]. rewrite (toTypedScVal_inferable arg t w Hw1 Ht).
    cbn [bind]. rewrite (IH types ws' Hrest) by auto. reflexivity.
Qed.

Lemma encoded_afterF32 (args : list JsVal) :
  forall (types : list ScType) (ws : list ScVal),
  mapM encodeHinted (combine args types) = Ok ws ->
  List.length types = List.length args ->
  forallb (fun v => negb (isNullish v)) args = true ->
  existsb afterF32 types = true ->
  mapM inferTypeFromScVal ws = Throw noF32.
Proof.
  induction args as [|arg args IH]; intros types ws H Hlen Hnn Hx.
  - destruct types; discriminate.
  - destruct types as [|t types]; [discriminate|].
    cbn [combine mapM] in H. unfold encodeHinted at 1 in H.
    cbn [fst snd] in H. cbn [forallb] in Hnn. cbn [existsb] in Hx.
    apply andb_prop in Hnn. destruct Hnn as [Hv Hnn]. unfold toScVal in H.
    destruct (isNullish arg); [discriminate|].
    destruct (toTypedScVal arg t) as [w|e] eqn:Hw1; [|discriminate].
    cbn [bind] in H.
    destruct (mapM encodeHinted (combine args types)) as [ws'|e] eqn:Hrest;
      [|discriminate].
    cbn [bind] in H. injection H as <-.
    cbn [mapM].
    destruct (afterF32 t) eqn:Ht.
    + now rewrite (toTypedScVal_afterF32 arg t w Hw1 Ht).
    + cbn [orb] in Hx.
      rewrite (IH types ws' Hrest) by auto.
      rewrite inferTypeFromScVal_reach.
      now destruct (reached (switch w)).
Qed.

(** X28.  The signature inferred from encoded arguments.  Let [encodeArgs]
    return for arguments none of which is [null] or [undefined].  When
    every hint is void, bool, u32, i32 or one of the six wide integer
    types, [createSignatureFromScVals] on the result builds the signature
    string of the same function name with the same types.  When some hint
    is bytes, string, symbol, address, vec, map, set or tuple, it throws
    the TypeError of the missing label [xdr.ScValType.scvF32()], which its
    switch evaluates before the clauses of those tags: such a signature is
    never inferred.  A [null] or [undefined] argument is encoded as void
    under every hint, and is inferred as [void]. *)
Theorem inferred_signature (funcName : string) (args : list JsVal)
    (types : list ScType) (ws : list ScVal) :
  encodeArgs args (Some types) = Ok ws ->
  forallb (fun v => negb (isNullish v)) args = true ->
  (forallb inferable types = true ->
   createSignatureFromScVals funcName ws
   = Ok (buildSignatureString funcName types))
  /\ (existsb afterF32 types = true ->
      createSignatureFromScVals funcName ws = Throw noF32)
  /\ (forall t w, toScVal JNull (Some t) = Ok w ->
                  inferTypeFromScVal w = Ok T_void).
Proof.
  intros H Hnn.
  assert (Hlen : List.length types = List.length args).
  { unfold encodeArgs in H.
    destruct (Nat.eqb_spec (List.length types) (List.length args));
      [assumption|discriminate]. }
  rewrite (encodeArgs_hinted args types Hlen) in H.
  unfold createSignatureFromScVals. split; [|split].
  - intros Hi. now rewrite (encoded_inferable args types ws H Hlen Hnn Hi).
  - intros Hx. now rewrite (encoded_afterF32 args types ws H Hlen Hnn Hx).
  - intros t w Hv. cbn in Hv. now injection Hv as <-.
Qed.

End InferredTypes.

Section SignatureMatching.
Import FunctionSignatureBuilder.

Lemma ScType_name_inj (a b : ScType) : ScType_name a = ScType_name b -> a = b.
Proof. destruct a, b; intros H; try reflexivity; discriminate H. Qed.

Lemma typesMatch_eq (inputs : list FunctionInput) :
  forall inputTypes : list ScType,
  List.length inputs = List.length inputTypes ->
  (typesMatch inputs inputTypes = true
   <-> List.map input_type inputs = inputTypes).
Proof.
  induction inputs as [|input inputs IH]; intros [|t ts] Hlen;
    try discriminate Hlen; cbn [typesMatch List.map].
  - split; reflexivity.
  - unfold ScType_eqb.
    destruct (String.eqb_spec (ScType_name (input_type input)) (ScType_name t))
      as [Heq|Hne]; cbn [negb].
    + apply ScType_name_inj in Heq. rewrite IH by (simpl in Hlen; lia).
      split; [intros <-; now rewrite Heq | intros H; now injection H].
    + split; [discriminate|]. intros H. injection H as Ht _.
      elim Hne. now rewrite Ht.
Qed.

(** X30.  [matchesSignature] is true exactly when the function has the
    name asked for and its inputs have the types asked for, in order and
    in number; so every function matches its own name and input types, and
    a function that matches a name and types has the signature string, and
    the signature hash, built from them. *)
Theorem matchesSignature_iff (func : ContractFunction) (funcName : string)
    (inputTypes : list ScType) :
  (matchesSignature func funcName inputTypes = true
   <-> name func = funcName
       /\ List.map input_type (inputs func) = inputTypes)
  /\ matchesSignature func (name func) (List.map input_type (inputs func))
     = true
  /\ (matchesSignature func funcName inputTypes = true ->
      buildSignatureString (name func) (List.map input_type (inputs func))
      = buildSignatureString funcName inputTypes
      /\ buildSignatureHash (name func) (List.map input_type (inputs func))
         = buildSignatureHash funcName inputTypes).
Proof.
  assert (Hiff : forall n ts,
             matchesSignature func n ts = true
             <-> name func = n /\ List.map input_type (inputs func) = ts).
  { intros n ts. unfold matchesSignature.
    destruct (String.eqb_spec (name func) n) as [Hn|Hn]; cbn [negb].
    - destruct (Nat.eqb_spec (List.length (inputs func)) (List.length ts))
        as [Hl|Hl]; cbn [negb].
      + rewrite (typesMatch_eq (inputs func) ts Hl). tauto.
      + split; [discriminate|]. intros [_ H]. elim Hl.
        now rewrite <- H, length_map.
    - split; [discriminate|]. intros [H _]. now elim Hn. }
  split; [apply Hiff|]. split.
  - apply Hiff. now split.
  - intros H. apply Hiff in H. destruct H as [<- <-]. now split.
Qed.

End SignatureMatching.

(* ===================================================================== *)
(** * Grouping events by transaction                                      *)
(* ===================================================================== *)

Section Grouping.
Import ContractEventMonitor EventDecoder.

(** The events of the transaction [h], in the order of the list. *)
Definition inTransaction (h : string) (events : list ContractEventDetail)
  : list ContractEventDetail :=
  filter (fun event => String.eqb (txHash event) h) events.

(** The number of events held by the groups. *)
Definition grouped_total (grouped : list (string * list ContractEventDetail))
  : nat :=
  List.length (List.concat (SMap_values grouped)).

Lemma SMap_keys_set_add {V : Type} (m : list (string * V)) (k : string)
    (v : V) :
  SMap_keys (SMap_set m k v) = SSet_add (SMap_keys m) k.
Proof.
  induction m as [|[k0 v0] m IH]; simpl; [reflexivity|].
  destruct (String.eqb k0 k); simpl; [reflexivity|now rewrite IH].
Qed.

Lemma SSet_add_twice (s : list string) (x : string) :
  SSet_add (SSet_add s x) x = SSet_add s x.
Proof.
  induction s as [|y s IH]; simpl.
  - now rewrite String.eqb_refl.
  - destruct (String.eqb y x) eqn:E; simpl; rewrite E; [reflexivity|].
    now rewrite IH.
Qed.

Lemma grouped_total_set (m : list (string * list ContractEventDetail))
    (k : string) (v : list ContractEventDetail) :
  (grouped_total (SMap_set m k v)
   + List.length (match SMap_get m k with Some l => l | None => [] end)
   = grouped_total m + List.length v)%nat.
Proof.
  unfold grouped_total, SMap_values.
  induction m as [|[k0 v0] m IH]; simpl.
  - rewrite app_nil_r. lia.
  - destruct (String.eqb k0 k); simpl; rewrite !length_app; lia.
Qed.

Lemma addToGroup_spec (grouped : list (string * list ContractEventDetail))
    (event : ContractEventDetail) :
  (forall h,
     SMap_get (addToGroup grouped event) h
     = if String.eqb (txHash event) h
       then Some (match SMap_get grouped h with
                  | Some group => group ++ [event]
                  | None => [event]
                  end)%list
       else SMap_get grouped h)
  /\ SMap_keys (addToGroup grouped event)
     = SSet_add (SMap_keys grouped) (txHash event)
  /\ grouped_total (addToGroup grouped event) = S (grouped_total grouped).
Proof.
  unfold addToGroup. cbv zeta. unfold SMap_has.
  destruct (SMap_get grouped (txHash event)) as [group|] eqn:E; cbn [negb].
  - rewrite E. split; [|split].
    + intros h. destruct (String.eqb_spec (txHash event) h) as [<-|Hne].
      * now rewrite SMap_get_set, E.
      * apply SMap_get_set_other. congruence.
    + apply SMap_keys_set_add.
    + pose proof (grouped_total_set grouped (txHash event) (group ++ [event]))
        as H.
      rewrite E, length_app in H. simpl in H. lia.
  - rewrite SMap_get_set. split; [|split].
    + intros h. destruct (String.eqb_spec (txHash event) h) as [<-|Hne].
      * now rewrite SMap_get_set, E.
      * rewrite !SMap_get_set_other by congruence. reflexivity.
    + now rewrite !SMap_keys_set_add, SSet_add_twice.
    + pose proof (grouped_total_set grouped (txHash event) []) as H1.
      pose proof (grouped_total_set (SMap_set grouped (txHash event) [])
                    (txHash event) ([] ++ [event])) as H2.
      rewrite E in H1. rewrite SMap_get_set in H2. simpl in H1, H2.
      cbn [app]. lia.
Qed.

Lemma fold_addToGroup (events : list ContractEventDetail) :
  forall grouped : list (string * list ContractEventDetail),
  (forall h,
     SMap_get (fold_left addToGroup events grouped) h
     = match SMap_get grouped h with
       | Some group => Some (group ++ inTransaction h events)%list
       | None => match inTransaction h events with
                 | [] => None
                 | group => Some group
                 end
       end)
  /\ SMap_keys (fold_left addToGroup events grouped)
     = fold_left SSet_add (List.map txHash events) (SMap_keys grouped)
  /\ grouped_total (fold_left addToGroup events grouped)
     = (grouped_total grouped + List.length events)%nat.
Proof.
  induction events as [|event events IH]; intros grouped;
    cbn [fold_left List.map].
  - split; [|split; [reflexivity|simpl; lia]].
    intros h. simpl. destruct (SMap_get grouped h); [|reflexivity].
    now rewrite app_nil_r.
  - destruct (IH (addToGroup grouped event)) as [Hget [Hkeys Htotal]].
    destruct (addToGroup_spec grouped event) as [Hget1 [Hkeys1 Htotal1]].
    split; [|split].
    + intros h. rewrite Hget, Hget1. unfold inTransaction. cbn [filter].
      destruct (String.eqb (txHash event) h).
      * destruct (SMap_get grouped h) as [group|];
          [now rewrite <- app_assoc | reflexivity].
      * reflexivity.
    + now rewrite Hkeys, Hkeys1.
    + rewrite Htotal, Htotal1. simpl. lia.
Qed.

(** X29.  [groupEventsByTransaction] partitions the events by transaction
    hash: the keys of the Map are the different hashes, in the order in
    which they first occur; the group of a hash holds exactly the events
    with this hash, in their original order, and a hash no event has is
    no key; no group is empty, and the groups together hold as many events
    as were given. *)
Theorem groupEventsByTransaction_partition
    (events : list ContractEventDetail) :
  let grouped := groupEventsByTransaction events in
  SMap_keys grouped = SSet_of (List.map txHash events)
  /\ NoDup (SMap_keys grouped)
  /\ (forall h,
        SMap_get grouped h = match inTransaction h events with
                             | [] => None
                             | group => Some group
                             end)
  /\ (forall h group, SMap_get grouped h = Some group -> group <> [])
  /\ grouped_total grouped = List.length events.
Proof.
  cbv zeta. unfold groupEventsByTransaction.
  destruct (fold_addToGroup events []) as [Hget [Hkeys Htotal]].
  assert (Hk : SMap_keys (fold_left addToGroup events [])
               = SSet_of (List.map txHash events)) by exact Hkeys.
  split; [exact Hk|]. split; [rewrite Hk; apply SSet_of_spec|].
  split; [exact Hget|]. split; [|exact Htotal].
  intros h group H. rewrite Hget in H. cbn [SMap_get] in H.
  destruct (inTransaction h events); [discriminate|].
  injection H as <-. discriminate.
Qed.

End Grouping.

Section SignatureWitnesses.
Import ScValConverter FunctionSignatureBuilder ContractEventMonitor
  EventDecoder.

Definition anAccount : string :=
  "GA7QYNF7SOWQ3GLR2BGMZEHXAVIRZA4KVWLTJJFC7MGXUA74P7UJVSGZ".

(** [transfer(to: address, amount: i128)] *)
Definition transferFunction : ContractFunction :=
  mkFunction "transfer" [mkInput "to" T_address; mkInput "amount" T_i128]
             [T_void].

Lemma validateArguments_sound_witness :
  createInvocation (P := Reference.platform) "transfer"
    [JString anAccount; JBigInt 5] (Some [T_address; T_i128])
  = Ok (scvVec [scvSymbol (JString "transfer");
                scvAddress (mkAddress anAccount); scvI128 5])
  /\ valid (validateArguments (P := Reference.platform) transferFunction
              [JString "nobody"; JBigInt 5]) = false
  /\ List.length (errors (validateArguments (P := Reference.platform)
                            transferFunction [JString "nobody"; JBigInt 5]))
     = 1%nat.
Proof.
  destruct (validateArguments_sound (P := Reference.platform) transferFunction
              [JString anAccount; JBigInt 5]) as [_ [_ [Hinvoke _]]].
  destruct (validateArguments_sound (P := Reference.platform) transferFunction
              [JString "nobody"; JBigInt 5]) as [_ [Hvalid [_ [Hcount _]]]].
  split; [apply Hinvoke; reflexivity|]. split.
  - destruct (valid (validateArguments transferFunction
                       [JString "nobody"; JBigInt 5])) eqn:E; [|reflexivity].
    destruct (proj1 Hvalid eq_refl) as [scVals H]. discriminate H.
  - exact (Hcount eq_refl).
Defined.

Lemma parseSignature_buildSignatureString_witness :
  parseSignature (buildSignatureString "transfer" [T_address; T_address; T_i128])
  = Ok ("transfer", ["address"; "address"; "i128"])
  /\ parseSignature (createErrorSignature "Unauthorized" [T_u32])
     = Ok ("error_Unauthorized", ["u32"]).
Proof.
  split.
  - apply (proj1 (parseSignature_buildSignatureString "transfer"
                    [T_address; T_address; T_i128] eq_refl)).
    discriminate.
  - exact (proj1 (proj2 (proj2 (parseSignature_buildSignatureString
                                  "Unauthorized" [T_u32] eq_refl)))).
Defined.

Lemma inferred_signature_witness :
  createSignatureFromScVals "mint" [scvU32 7; scvBool true]
  = Ok (buildSignatureString "mint" [T_u32; T_bool])
  /\ createSignatureFromScVals "pay"
       [scvAddress (mkAddress anAccount); scvVec [scvI32 1]]
     = Throw noF32.
Proof.
  split.
  - apply (proj1 (inferred_signature (P := Reference.platform) "mint"
                    [JNumber 7; JBool true] [T_u32; T_bool]
                    [scvU32 7; scvBool true] eq_refl eq_refl)).
    reflexivity.
  - apply (proj1 (proj2 (inferred_signature (P := Reference.platform) "pay"
                           [JString anAccount; JArray [JNumber 1]]
                           [T_address; T_tuple]
                           [scvAddress (mkAddress anAccount);
                            scvVec [scvI32 1]]
                           eq_refl eq_refl))).
    reflexivity.
Defined.

Lemma matchesSignature_iff_witness :
  matchesSignature transferFunction "transfer" [T_address; T_i128] = true
  /\ buildSignatureString "transfer" [T_address; T_i128]
     = "transfer(address, i128)".
Proof.
  destruct (matchesSignature_iff transferFunction "transfer"
              [T_address; T_i128]) as [Hiff [_ Hsame]].
  assert (Hm : matchesSignature transferFunction "transfer"
                 [T_address; T_i128] = true)
    by (apply (proj2 Hiff); split; reflexivity).
  split; [exact Hm|]. symmetry. exact (proj1 (Hsame Hm)).
Defined.

Definition eventOf (tx : string) (l : Z) : ContractEventDetail :=
  mkDetail "CA" "contract" [] scvVoid 0 l tx.

Lemma groupEventsByTransaction_partition_witness :
  let events := [eventOf "tx1" 1; eventOf "tx2" 2; eventOf "tx1" 3] in
  SMap_keys (groupEventsByTransaction events) = ["tx1"; "tx2"]
  /\ SMap_get (groupEventsByTransaction events) "tx1"
     = Some [eventOf "tx1" 1; eventOf "tx1" 3]
  /\ [eventOf "tx1" 1; eventOf "tx1" 3] <> [].
Proof.
  intros events.
  destruct (groupEventsByTransaction_partition events)
    as [Hkeys [_ [Hget [Hne _]]]].
  split; [exact Hkeys|]. split; [exact (Hget "tx1")|].
  exact (Hne "tx1" _ (Hget "tx1")).
Defined.

End SignatureWitnesses.
